(** * pyflowgraph: call tracing by AST rewriting

    A shallow embedding of [flowgraph/trace/ast_transform.py] and
    [flowgraph/trace/ast_trace.py]: the syntax-tree helpers, the two
    [ast.NodeTransformer] subclasses [WrapCalls] and [TraceFunctionCalls],
    the two [bind_arguments] resolvers and [make_tracing_call_wrapper].
    The transformers are given twice, on trees and on a store of nodes
    that they update in place; the rewritten call sites are run by an
    evaluator of the host's expressions. *)

From Stdlib Require Import ZArith Lia.
From stdpp Require Import base option list strings pretty.

Local Open Scope string_scope.
Local Open Scope list_scope.

(** ** The host's exceptions *)

(** The two exception classes the sources raise or catch. *)
Inductive error :=
| TypeError (msg : string)
| ValueError (msg : string).

(** ** The host's syntax trees (Python's [ast] module) *)

Scheme All for list.
Scheme All for option.

Module ast.

(** [ast.Load()], [ast.Store()], [ast.Del()]. *)
Inductive expr_context := Load | Store | Del.

(** The node classes the transformers build or inspect, a [Lambda] as the
    host's function-definition form, and [Node] for every other node class
    (a class name with its child nodes in field order).  A [Call] has the
    fields of both dialects: [starargs] and [kwargs] are the explicit
    spread slots of Python 3.4 and lower and are absent ([None]) from
    Python 3.5 on, where a spread is a [Starred] entry of [args] or a
    [keyword] whose [arg] is [None]. *)
Inductive expr :=
| Name (id : string) (ctx : expr_context)
| Num (n : Z)
| Str (s : string)
| Attribute (value : expr) (attr : string) (ctx : expr_context)
| Starred (value : expr) (ctx : expr_context)
| Call (func : expr) (args : list expr) (keywords : list keyword)
       (starargs kwargs : option expr)
| Lambda (params : list string) (body : expr)
| Node (kind : string) (children : list expr)
with keyword :=
| Keyword (arg : option string) (value : expr).

Definition kw_arg (kw : keyword) : option string :=
  match kw with Keyword a _ => a end.
Definition kw_value (kw : keyword) : expr :=
  match kw with Keyword _ v => v end.

Scheme expr_keyword_ind := Induction for expr Sort Prop
  with keyword_expr_ind := Induction for keyword Sort Prop.

Definition is_Starred (e : expr) : bool :=
  match e with Starred _ _ => true | _ => false end.

(** Does a tree contain no call site? *)
Fixpoint call_free (e : expr) : bool :=
  match e with
  | Name _ _ | Num _ | Str _ => true
  | Attribute v _ _ | Starred v _ => call_free v
  | Call _ _ _ _ _ => false
  | Lambda _ b => call_free b
  | Node _ cs => forallb call_free cs
  end.

(** [ast.NodeTransformer]: [visit] dispatches a [Call] node to the
    subclass's [visit_Call] and every other node to [generic_visit], which
    replaces each child by the result of visiting it.  This is the tree
    that the traversal returns; the in-place update of the visited nodes is
    modelled in [Module store]. *)
Module NodeTransformer.
Section generic.
Variable visit : expr -> expr.

Definition visit_keyword (kw : keyword) : keyword :=
  match kw with Keyword a v => Keyword a (visit v) end.

Definition generic_visit (node : expr) : expr :=
  match node with
  | Name id ctx => Name id ctx
  | Num n => Num n
  | Str s => Str s
  | Attribute v a ctx => Attribute (visit v) a ctx
  | Starred v ctx => Starred (visit v) ctx
  | Call f args kws sa ka =>
      Call (visit f) (map visit args) (map visit_keyword kws)
           (option_map visit sa) (option_map visit ka)
  | Lambda ps b => Lambda ps (visit b)
  | Node k cs => Node k (map visit cs)
  end.
End generic.
End NodeTransformer.

End ast.

Import ast.

(** ** The host's ordered dictionaries and call signatures *)

Module collections.
(** An insertion-ordered dictionary with string keys: [dict] (the
    [**kwargs] of a call) and [collections.OrderedDict]. *)
Abbreviation OrderedDict V := (list (string * V)) (only parsing).

Section dict.
Context {V : Type}.

(** [d[k] = v]: an existing key keeps its position, a new key goes last. *)
Fixpoint setitem (k : string) (v : V) (d : OrderedDict V)
  : OrderedDict V :=
  match d with
  | [] => [(k, v)]
  | (k', v') :: d' =>
      if decide (k' = k) then (k, v) :: d' else (k', v') :: setitem k v d'
  end.

(** [k in d] *)
Definition contains (k : string) (d : OrderedDict V) : bool :=
  bool_decide (k ∈ d.*1).

(** [d.pop(k)]: [None] stands for [KeyError]. *)
Fixpoint pop (k : string) (d : OrderedDict V)
  : option (V * OrderedDict V) :=
  match d with
  | [] => None
  | (k', v') :: d' =>
      if decide (k' = k) then Some (v', d')
      else match pop k d' with
           | Some (v, d'') => Some (v, (k', v') :: d'')
           | None => None
           end
  end.

(** [d.get(k)] *)
Fixpoint getitem (k : string) (d : OrderedDict V) : option V :=
  match d with
  | [] => None
  | (k', v') :: d' => if decide (k' = k) then Some v' else getitem k d'
  end.
End dict.
End collections.

Import collections.

Module inspect.

Inductive kind :=
| POSITIONAL_ONLY
| POSITIONAL_OR_KEYWORD
| VAR_POSITIONAL
| KEYWORD_ONLY
| VAR_KEYWORD.

Global Instance kind_eq_dec : EqDecision kind.
Proof. solve_decision. Defined.

Section values.
Context {value : Type}.

(** [inspect.Parameter] with its [name], [kind] and [default]; a missing
    default ([Parameter.empty]) is [None]. *)
Record Param := {
  pname : string;
  pkind : kind;
  pdefault : option value;
}.

(** [inspect.Signature]: the parameters in declaration order. *)
Local Abbreviation Signature := (list Param) (only parsing).

(** What a parameter is bound to: one argument, the tuple collected by a
    [*args] parameter, or the dictionary collected by [**kwargs]. *)
Inductive bound :=
| One (v : value)
| Tuple (vs : list value)
| Dict (kvs : OrderedDict value).

(** The positional phase of [Signature._bind] (with [partial=False]):
    the [while True] loop over the positional arguments.  It returns the
    arguments bound so far and the parameters left for the keyword
    phase, [itertools.chain(parameters_ex, parameters)]. *)
Fixpoint bind_positional (parameters : list Param)
    (arg_vals : list value) (kwargs : OrderedDict value)
    (arguments : OrderedDict bound)
  : error + (OrderedDict bound * list Param) :=
  match arg_vals with
  | [] =>
      (* No more positional arguments *)
      match parameters with
      | [] => inr (arguments, [])
      | param :: parameters' =>
          if decide (pkind param = VAR_POSITIONAL) then
            inr (arguments, parameters')
          else if contains (pname param) kwargs then
            if decide (pkind param = POSITIONAL_ONLY) then
              inl (TypeError "parameter is positional only, but was passed as a keyword")
            else inr (arguments, param :: parameters')
          else if decide (pkind param = VAR_KEYWORD) then
            inr (arguments, param :: parameters')
          else if pdefault param is Some _ then
            inr (arguments, param :: parameters')
          else inl (TypeError "missing a required argument")
      end
  | arg_val :: arg_vals' =>
      (* We have a positional argument to process *)
      match parameters with
      | [] => inl (TypeError "too many positional arguments")
      | param :: parameters' =>
          if decide (pkind param = VAR_KEYWORD) then
            inl (TypeError "too many positional arguments")
          else if decide (pkind param = KEYWORD_ONLY) then
            inl (TypeError "too many positional arguments")
          else if decide (pkind param = VAR_POSITIONAL) then
            inr (setitem (pname param) (Tuple (arg_val :: arg_vals'))
                         arguments, parameters')
          else if contains (pname param) kwargs
                  && bool_decide (pkind param <> POSITIONAL_ONLY) then
            inl (TypeError "multiple values for argument")
          else
            bind_positional parameters' arg_vals' kwargs
              (setitem (pname param) (One arg_val) arguments)
      end
  end.

(** The keyword phase of [Signature._bind]: the [for param in ...] loop,
    which pops the keyword arguments it binds and remembers the
    [**kwargs] parameter. *)
Fixpoint bind_keywords (parameters : list Param)
    (kwargs : OrderedDict value) (arguments : OrderedDict bound)
    (kwargs_param : option Param)
  : error
    + (OrderedDict bound * OrderedDict value * option Param) :=
  match parameters with
  | [] => inr (arguments, kwargs, kwargs_param)
  | param :: parameters' =>
      if decide (pkind param = VAR_KEYWORD) then
        bind_keywords parameters' kwargs arguments (Some param)
      else if decide (pkind param = VAR_POSITIONAL) then
        bind_keywords parameters' kwargs arguments kwargs_param
      else
        match pop (pname param) kwargs with
        | None =>
            if pdefault param is Some _ then
              bind_keywords parameters' kwargs arguments kwargs_param
            else inl (TypeError "missing a required argument")
        | Some (arg_val, kwargs') =>
            if decide (pkind param = POSITIONAL_ONLY) then
              inl (TypeError "parameter is positional only, but was passed as a keyword")
            else
              bind_keywords parameters' kwargs'
                (setitem (pname param) (One arg_val) arguments)
                kwargs_param
        end
  end.

(** [Signature.bind] followed by [.arguments]: the ordered mapping of
    the explicitly bound parameters.  ([BoundArguments.apply_defaults]
    is what would add the parameters left to their defaults.) *)
Definition bind (sig : Signature) (args : list value)
    (kwargs : OrderedDict value) : error + OrderedDict bound :=
  match bind_positional sig args kwargs [] with
  | inl e => inl e
  | inr (arguments, parameters) =>
      match bind_keywords parameters kwargs arguments None with
      | inl e => inl e
      | inr (arguments, kwargs, kwargs_param) =>
          match kwargs with
          | [] => inr arguments
          | _ :: _ =>
              match kwargs_param with
              | Some param =>
                  inr (setitem (pname param) (Dict kwargs) arguments)
              | None =>
                  inl (TypeError "got an unexpected keyword argument")
              end
          end
      end
  end.

(** [inspect._signature_bound_method]: the signature of a bound method
    drops the first parameter of the underlying function. *)
Definition _signature_bound_method (sig : Signature)
  : error + Signature :=
  match sig with
  | [] => inl (ValueError "invalid method signature")
  | param :: params =>
      match pkind param with
      | VAR_KEYWORD | KEYWORD_ONLY =>
          inl (ValueError "invalid method signature")
      | POSITIONAL_OR_KEYWORD | POSITIONAL_ONLY => inr params
      | VAR_POSITIONAL => inr sig
      end
  end.

(** The receiver of a method, [fun.__self__]: the object, whether it is
    a class ([inspect.isclass]) and whether it is a module
    ([isinstance(_, types.ModuleType)]). *)
Record receiver := {
  obj : value;
  isclass : bool;
  ismodule : bool;
}.

(** The callables as the resolvers inspect them.  [Method self func] is
    a method object of the host language ([inspect.ismethod]) with its
    [__self__] and [__func__]; [Callable self sig] is any other callable,
    with [getattr(fun, '__self__', None)] and the signature that
    introspection finds for it, [None] when [signature(fun)] raises
    [ValueError]. *)
Inductive callable :=
| Method (self : receiver) (func : callable)
| Callable (self : option receiver) (sig : option Signature).

Definition ismethod (f : callable) : bool :=
  match f with Method _ _ => true | Callable _ _ => false end.

(** [getattr(fun, '__self__', None)] *)
Definition getattr_self (f : callable) : option receiver :=
  match f with Method self _ => Some self | Callable self _ => self end.

(** [inspect.signature(fun)] *)
Fixpoint signature (f : callable) : error + Signature :=
  match f with
  | Callable _ (Some sig) => inr sig
  | Callable _ None => inl (ValueError "no signature found")
  | Method _ func =>
      match signature func with
      | inl e => inl e
      | inr sig => _signature_bound_method sig
      end
  end.
End values.
Arguments Param : clear implicits.
Arguments bound : clear implicits.
Arguments receiver : clear implicits.
Arguments callable : clear implicits.

(** [inspect.Signature], outside of the section. *)
Abbreviation Signature value := (list (Param value)) (only parsing).
End inspect.

(** ** [flowgraph/trace/ast_transform.py] *)

Module ast_transform.
Import inspect.

(** The argument of [to_name]: a string, an AST node, or anything else. *)
Inductive str_or_name :=
| OfStr (s : string)
| OfNode (e : expr)
| OfOther.

(** [to_name(str_or_name, ctx=None)] *)
Definition to_name (x : str_or_name) (ctx : option expr_context)
  : error + expr :=
  let ctx := default Load ctx in
  match x with
  | OfStr s => inr (Name s ctx)
  | OfNode (Name id _) => inr (Name id ctx)
  | _ => inl (TypeError "Argument must be a string or a Name AST node")
  end.

(** Modelled from the spec: [to_attribute], a node-construction helper
    that [ast_trace.py] imports from this module and that is not among the
    sources; it builds an attribute reference in load context. *)
Definition to_attribute (value : expr) (attr : string) : expr :=
  Attribute value attr Load.

(** Modelled from the spec: [to_call], the node-construction helper for
    call references, imported by [ast_trace.py] and not among the sources;
    it builds the [Call] node from the callee, the positional and keyword
    argument lists and the two optional spread slots. *)
Definition to_call (func : expr) (args : list expr) (keywords : list keyword)
    (starargs kwargs : option expr) : expr :=
  Call func args keywords starargs kwargs.

Section calls.
Context {value : Type}.

(** The parameter list [(fun, *args, **kwargs)] that [bind_arguments] of
    both modules and the tracing wrapper have.  The callable comes first
    among the positional arguments, so a keyword argument named [fun]
    gives the parameter [fun] a second value: the host raises [TypeError]
    at the call, before the body runs.  (The text of the error is the
    host's without the name of the function.) *)
Definition fun_args_kwargs (kwargs : OrderedDict value) : error + unit :=
  if contains "fun" kwargs
  then inl (TypeError "got multiple values for argument 'fun'")
  else inr tt.

(** [enumerate(args)] *)
Definition enumerate (args : list value) : list (nat * value) :=
  imap (fun i v => (i, v)) args.

(** The body shared by both resolvers for a callable without a
    signature: positional keys [str(i)], then the keywords. *)
Definition opaque_arguments (args : list value)
    (kwargs : OrderedDict value) : OrderedDict (bound value) :=
  let arguments := [] in
  let arguments :=
    fold_left (fun d iv => setitem (pretty (fst iv)) (One (snd iv)) d)
              (enumerate args) arguments in
  let arguments :=
    fold_left (fun d kv => setitem (fst kv) (One (snd kv)) d)
              kwargs arguments in
  arguments.

(** [bind_arguments(fun, *args, **kwargs)] of [ast_transform.py] *)
Definition bind_arguments (fun_ : callable value) (args : list value)
    (kwargs : OrderedDict value) : error + OrderedDict (bound value) :=
  match fun_args_kwargs kwargs with
  | inl e => inl e
  | inr _ =>
      match signature fun_ with
      | inl (ValueError _) =>
          (* Sigantures doesn't exist for certain builtin functions. *)
          inr (opaque_arguments args kwargs)
      | inl e => inl e
      | inr sig =>
          (* If we have a signature, use it to bind the arguments. *)
          bind sig args kwargs
      end
  end.

(** *** Calls with effects

    A call of the traced program runs in a [world] that it may change,
    and returns a value or raises: one of the host's errors or an
    exception object of the program. *)
Context {world : Type}.

Inductive raised :=
| Builtin (e : error)
| Object (v : value).

Inductive outcome (A : Type) :=
| Returned (a : A)
| Raised (e : raised).
Global Arguments Returned {A} a.
Global Arguments Raised {A} e.

(** The calls that the wrapper makes, in the order it makes them. *)
Inductive event :=
| on_call_event (f : callable value) (arguments : OrderedDict (bound value))
| call_event (f : callable value) (args : list value)
    (kwargs : OrderedDict value)
| on_return_event (f : callable value)
    (arguments : OrderedDict (bound value)) (return_value : value).

Definition M (A : Type) : Type :=
  world * list event -> outcome A * (world * list event).

Global Instance M_ret : MRet M := fun A a s => (Returned a, s).
Global Instance M_bind : MBind M := fun A B k c s =>
  match c s with
  | (Returned a, s') => k a s'
  | (Raised e, s') => (Raised e, s')
  end.

(** An exception of the host raised by the wrapper's own code. *)
Definition lift {A : Type} (r : error + A) : M A := fun s =>
  match r with
  | inl e => (Raised (Builtin e), s)
  | inr a => (Returned a, s)
  end.

(** Calling [c], recorded as [ev]. *)
Definition perform {A : Type} (ev : event)
    (c : world -> outcome A * world) : M A := fun s =>
  let (r, w) := c (fst s) in (r, (w, snd s ++ [ev])).

(** The call of [fun] with [args] and [kwargs]: what the host does when
    [fun] is called. *)
Variable invoke :
  callable value -> list value -> OrderedDict value ->
  world -> outcome value * world.

(** [make_tracing_call_wrapper(on_call=None, on_return=None)] *)
Definition make_tracing_call_wrapper
    (on_call : option (callable value -> OrderedDict (bound value) ->
                       world -> outcome unit * world))
    (on_return : option (callable value -> OrderedDict (bound value) ->
                         value -> world -> outcome unit * world))
  : callable value -> list value -> OrderedDict value -> M value :=
  fun fun_ args kwargs =>
    lift (fun_args_kwargs kwargs);;
    (* Pre-call. *)
    arguments ← lift (bind_arguments fun_ args kwargs);
    (if on_call is Some h
     then perform (on_call_event fun_ arguments) (h fun_ arguments)
     else mret tt);;
    (* Call! *)
    return_value ← perform (call_event fun_ args kwargs)
                           (invoke fun_ args kwargs);
    (* Post-call. *)
    (if on_return is Some h
     then perform (on_return_event fun_ arguments return_value)
                  (h fun_ arguments return_value)
     else mret tt);;
    mret return_value.
End calls.

(** [class WrapCalls(ast.NodeTransformer)] *)
Module WrapCalls.
Section self.
(** [sys.version_info.major >= 3 and sys.version_info.minor >= 5] *)
Variable py35 : bool.
(** [self.wrapper], the result of [to_name(wrapper)]. *)
Variable wrapper : expr.

Definition visit_Call (visit : expr -> expr) (call : expr) : expr :=
  match NodeTransformer.generic_visit visit call with
  | Call func args keywords starargs kwargs =>
      let new_args := [func] ++ args in
      if py35 then Call wrapper new_args keywords None None
      else Call wrapper new_args keywords starargs kwargs
  | other => other
  end.

Fixpoint visit (node : expr) : expr :=
  match node with
  | Call _ _ _ _ _ => visit_Call visit node
  | _ => NodeTransformer.generic_visit visit node
  end.
End self.

(** [WrapCalls(wrapper).visit(tree)] *)
Definition run (py35 : bool) (wrapper : str_or_name) (tree : expr)
  : error + expr :=
  match to_name wrapper None with
  | inl e => inl e
  | inr w => inr (visit py35 w tree)
  end.
End WrapCalls.

End ast_transform.

(** ** [flowgraph/trace/ast_trace.py]: the call rewriter *)

Module ast_trace.
Import inspect ast_transform.

(** [sys.version_info] *)
Record version_info := { major : nat; minor : nat }.

(** [ast_has_starred = sys.version_info.major >= 3 and
    sys.version_info.minor >= 5]: does [ast.Starred] mark the spreads of a
    call? *)
Definition ast_has_starred (v : version_info) : bool :=
  (3 <=? major v)%nat && (5 <=? minor v)%nat.

Section binding.
Context {value : Type}.

(** [bind_arguments(fun, *args, **kwargs)] of [ast_trace.py] *)
Definition bind_arguments (fun_ : callable value) (args : list value)
    (kwargs : OrderedDict value) : error + OrderedDict (bound value) :=
  match fun_args_kwargs kwargs with
  | inl e => inl e
  | inr _ =>
      let '(fun_, args) :=
        match fun_ with
        | Method self func =>
            if negb (isclass self)
            then
              (* Case 1: Bound instance method, implemented in Python. *)
              (func, [obj self] ++ args)
            else (fun_, args)
        | Callable _ _ => (fun_, args)
        end in
      match signature fun_ with
      | inr sig =>
          (* Case 2: Callable implemented in Python. *)
          bind sig args kwargs
      | inl (ValueError _) =>
          let fun_self := getattr_self fun_ in
          let args :=
            match fun_self with
            | Some s =>
                if negb (ismodule s)
                then
                  (* Case 3: Method implemented in C ("builtin method"). *)
                  [obj s] ++ args
                else args
            | None => args
            end in
          (* Case 4: Callable implemented in C ("builtin") *)
          inr (opaque_arguments args kwargs)
      | inl e => inl e
      end
  end.
End binding.

(** The truth value of [arg_name] in [if arg_name:]: [None] and the empty
    string are false. *)
Definition truthy_name (arg_name : option string) : option string :=
  match arg_name with
  | Some "" => None
  | other => other
  end.

(** [class TraceFunctionCalls(ast.NodeTransformer)] *)
Module TraceFunctionCalls.
Section self.
Variable has_starred : bool.
(** [self.tracer], the result of [to_name(tracer)]. *)
Variable tracer : expr.

Definition trace_method (method : string) : expr :=
  to_attribute tracer method.

Definition trace_function (func : expr) (nargs : nat) : expr :=
  to_call (trace_method "trace_function")
          [func; Num (Z.of_nat nargs)] [] None None.

Definition trace_argument (arg_value : expr)
    (arg_name : option string) (nstars : nat) : expr :=
  (* Unpack starred expression in Python 3.5+. *)
  let starred := has_starred && is_Starred arg_value in
  let arg_value :=
    match arg_value with
    | Starred value _ => if starred then value else arg_value
    | _ => arg_value
    end in
  let nstars := if starred then 1 else nstars in
  (* Create new call. *)
  let args := [arg_value] ++
    match truthy_name arg_name with
    | Some name => [Str name]
    | None => []
    end in
  let keywords :=
    match nstars with
    | O => []
    | _ => [Keyword (Some "nstars") (Num (Z.of_nat nstars))]
    end in
  let call := to_call (trace_method "trace_argument")
                      args keywords None None in
  (* Repack starred expression in Python 3.5+. *)
  if starred then Starred call Load else call.

Definition trace_return (return_value : expr) : expr :=
  to_call (trace_method "trace_return") [return_value] [] None None.

Definition visit_Call (visit : expr -> expr) (call : expr) : expr :=
  match NodeTransformer.generic_visit visit call with
  | Call func call_args call_keywords call_starargs call_kwargs =>
      let args := map (fun arg => trace_argument arg None 0) call_args in
      let keywords :=
        map (fun kw => Keyword (kw_arg kw)
               (trace_argument (kw_value kw) (kw_arg kw)
                  (if kw_arg kw is None then 2 else 0)))
            call_keywords in
      let nargs := length args + length keywords in
      (* Handle *args and **kwargs in Python 3.4 and lower. *)
      let starargs :=
        if has_starred then None
        else option_map (fun s => trace_argument s None 1)
                        call_starargs in
      let nargs := nargs + (if starargs is Some _ then 1 else 0) in
      let kwargs :=
        if has_starred then None
        else option_map (fun k => trace_argument k None 2)
                        call_kwargs in
      let nargs := nargs + (if kwargs is Some _ then 1 else 0) in
      trace_return
        (to_call (trace_function func nargs)
                 args keywords starargs kwargs)
  | other => other
  end.

Fixpoint visit (node : expr) : expr :=
  match node with
  | Call _ _ _ _ _ => visit_Call visit node
  | _ => NodeTransformer.generic_visit visit node
  end.
End self.

(** [TraceFunctionCalls(tracer).visit(tree)] on the interpreter [v]. *)
Definition run (v : version_info) (tracer : str_or_name) (tree : expr)
  : error + expr :=
  match to_name tracer None with
  | inl e => inl e
  | inr t => inr (visit (ast_has_starred v) t tree)
  end.
End TraceFunctionCalls.

End ast_trace.

(** ** The transformers on the host's objects

    A syntax tree of the host is a graph of objects with an identity, and
    [ast.NodeTransformer.generic_visit] assigns to the fields of the node
    it visits.  Here the nodes live in a store; a field holds the address of
    a node.  (A list field is held in its node: during a traversal no list
    object is changed through one node and read through another.) *)

Module store.
Import ast_trace.

Abbreviation loc := nat (only parsing).

(** The node objects: the classes of [ast.expr] and [ast.keyword], with
    addresses for the child nodes. *)
Inductive object :=
| OName (id : string) (ctx : expr_context)
| ONum (n : Z)
| OStr (s : string)
| OAttribute (value : loc) (attr : string) (ctx : expr_context)
| OStarred (value : loc) (ctx : expr_context)
| OCall (func : loc) (args : list loc) (keywords : list loc)
        (starargs kwargs : option loc)
| OLambda (params : list string) (body : loc)
| ONode (kind : string) (children : list loc)
| OKeyword (arg : option string) (value : loc).

(** The store: the objects allocated so far, each at its index. *)
Abbreviation heap := (list object) (only parsing).

(** A computation on the store; [None] is an exception of the host
    ([AttributeError] on a node of the wrong class, [RecursionError]). *)
Definition M (A : Type) : Type := heap -> option (A * heap).

Global Instance M_ret : MRet M := fun A a h => Some (a, h).
Global Instance M_bind : MBind M := fun A B k c h =>
  match c h with
  | Some (a, h') => k a h'
  | None => None
  end.

Definition raise {A : Type} : M A := fun _ => None.

(** A constructor call of a node class: a new object. *)
Definition alloc (o : object) : M loc := fun h => Some (length h, h ++ [o]).

(** Reading the fields of the node at [l]. *)
Definition load (l : loc) : M object := fun h =>
  match h !! l with
  | Some o => Some (o, h)
  | None => None
  end.

(** Assigning to the fields of the node at [l]. *)
Definition assign (l : loc) (o : object) : M unit := fun h =>
  if decide (l < length h) then Some (tt, <[l := o]> h) else None.

Fixpoint mapM {A B : Type} (f : A -> M B) (l : list A) : M (list B) :=
  match l with
  | [] => mret []
  | a :: l' => b ← f a; bs ← mapM f l'; mret (b :: bs)
  end.

Definition optM {A B : Type} (f : A -> M B) (o : option A) : M (option B) :=
  match o with
  | Some a => b ← f a; mret (Some b)
  | None => mret None
  end.

(** [ast.NodeTransformer] *)
Module NodeTransformer.
Section transformer.
(** The [visit_Call] of the subclass, given the [visit] method. *)
Variable visit_Call : (loc -> M loc) -> loc -> M loc.

(** [generic_visit(node)]: each child, in field order, is visited and the
    result is assigned to the field, a list field after all its elements
    are visited; the node itself is returned. *)
Definition generic_visit (visit : loc -> M loc) (node : loc) : M loc :=
  o ← load node;
  match o with
  | OName _ _ | ONum _ | OStr _ => mret node
  | OAttribute value attr ctx =>
      value' ← visit value;
      assign node (OAttribute value' attr ctx);;
      mret node
  | OStarred value ctx =>
      value' ← visit value;
      assign node (OStarred value' ctx);;
      mret node
  | OCall func args keywords starargs kwargs =>
      func' ← visit func;
      args' ← mapM visit args;
      keywords' ← mapM visit keywords;
      starargs' ← optM visit starargs;
      kwargs' ← optM visit kwargs;
      assign node (OCall func' args' keywords' starargs' kwargs');;
      mret node
  | OLambda params body =>
      body' ← visit body;
      assign node (OLambda params body');;
      mret node
  | ONode kind children =>
      children' ← mapM visit children;
      assign node (ONode kind children');;
      mret node
  | OKeyword arg value =>
      value' ← visit value;
      assign node (OKeyword arg value');;
      mret node
  end.

(** [visit(node)], with the depth of recursion that the host allows. *)
Fixpoint visit (depth : nat) (node : loc) : M loc :=
  match depth with
  | O => raise
  | S depth' =>
      o ← load node;
      match o with
      | OCall _ _ _ _ _ => visit_Call (visit depth') node
      | _ => generic_visit (visit depth') node
      end
  end.
End transformer.
End NodeTransformer.

(** The node-construction helpers, on objects. *)
Definition to_name (id : string) : M loc := alloc (OName id Load).

Definition to_attribute (value : loc) (attr : string) : M loc :=
  alloc (OAttribute value attr Load).

Definition to_call (func : loc) (args keywords : list loc)
    (starargs kwargs : option loc) : M loc :=
  alloc (OCall func args keywords starargs kwargs).

(** [class WrapCalls(ast.NodeTransformer)] *)
Module WrapCalls.
Section self.
Variable py35 : bool.
Variable wrapper : loc.

(** What [visit_Call] does after [self.generic_visit(call)]. *)
Definition wrap_call (call : loc) : M loc :=
  o ← load call;
  match o with
  | OCall func args keywords starargs kwargs =>
      let new_args := [func] ++ args in
      if py35 then alloc (OCall wrapper new_args keywords None None)
      else alloc (OCall wrapper new_args keywords starargs kwargs)
  | _ => raise
  end.

Definition visit_Call (visit : loc -> M loc) (call : loc) : M loc :=
  NodeTransformer.generic_visit visit call;;
  wrap_call call.

Definition visit : nat -> loc -> M loc := NodeTransformer.visit visit_Call.
End self.

(** [WrapCalls(wrapper).visit(tree)] *)
Definition run (py35 : bool) (wrapper : string) (depth : nat) (tree : loc)
  : M loc :=
  w ← to_name wrapper;
  visit py35 w depth tree.
End WrapCalls.

(** [class TraceFunctionCalls(ast.NodeTransformer)] *)
Module TraceFunctionCalls.
Section self.
Variable has_starred : bool.
Variable tracer : loc.

Definition trace_method (method : string) : M loc :=
  to_attribute tracer method.

Definition trace_function (func : loc) (nargs : nat) : M loc :=
  m ← trace_method "trace_function";
  n ← alloc (ONum (Z.of_nat nargs));
  to_call m [func; n] [] None None.

Definition trace_argument (arg_value : loc) (arg_name : option string)
    (nstars : nat) : M loc :=
  o ← load arg_value;
  let starred :=
    has_starred && (if o is OStarred _ _ then true else false) in
  let arg_value :=
    match o with
    | OStarred value _ => if starred then value else arg_value
    | _ => arg_value
    end in
  let nstars := if starred then 1 else nstars in
  name_args ←
    match truthy_name arg_name with
    | Some name => s ← alloc (OStr name); mret [s]
    | None => mret []
    end;
  keywords ←
    match nstars with
    | O => mret []
    | _ =>
        n ← alloc (ONum (Z.of_nat nstars));
        k ← alloc (OKeyword (Some "nstars") n);
        mret [k]
    end;
  m ← trace_method "trace_argument";
  call ← to_call m ([arg_value] ++ name_args) keywords None None;
  if starred then alloc (OStarred call Load) else mret call.

Definition trace_return (return_value : loc) : M loc :=
  m ← trace_method "trace_return";
  to_call m [return_value] [] None None.

Definition trace_keyword (kw : loc) : M loc :=
  o ← load kw;
  match o with
  | OKeyword arg value =>
      v ← trace_argument value arg (if arg is None then 2 else 0);
      alloc (OKeyword arg v)
  | _ => raise
  end.

(** What [visit_Call] does after [self.generic_visit(call)]. *)
Definition trace_call (call : loc) : M loc :=
  o ← load call;
  match o with
  | OCall func call_args call_keywords call_starargs call_kwargs =>
      args ← mapM (fun arg => trace_argument arg None 0) call_args;
      keywords ← mapM trace_keyword call_keywords;
      let nargs := length args + length keywords in
      starargs ←
        (if has_starred then mret None
         else optM (fun s => trace_argument s None 1) call_starargs);
      let nargs := nargs + (if starargs is Some _ then 1 else 0) in
      kwargs ←
        (if has_starred then mret None
         else optM (fun k => trace_argument k None 2) call_kwargs);
      let nargs := nargs + (if kwargs is Some _ then 1 else 0) in
      f ← trace_function func nargs;
      c ← to_call f args keywords starargs kwargs;
      trace_return c
  | _ => raise
  end.

Definition visit_Call (visit : loc -> M loc) (call : loc) : M loc :=
  NodeTransformer.generic_visit visit call;;
  trace_call call.

Definition visit : nat -> loc -> M loc := NodeTransformer.visit visit_Call.
End self.

(** [TraceFunctionCalls(tracer).visit(tree)] on the interpreter [v]. *)
Definition run (v : version_info) (tracer : string) (depth : nat)
    (tree : loc) : M loc :=
  t ← to_name tracer;
  visit (ast_has_starred v) t depth tree.
End TraceFunctionCalls.

(** *** Trees in the store *)

(** [shape h l e fp]: in the store [h] the node at [l] stands for the tree
    [e], and [fp] lists the addresses of the nodes of [e], each as often as
    it is reached.  The nodes form a tree, with no node shared, when no
    address is listed twice. *)
Inductive shape (h : heap) : loc -> expr -> list loc -> Prop :=
| shape_Name l id ctx :
    h !! l = Some (OName id ctx) -> shape h l (Name id ctx) [l]
| shape_Num l n :
    h !! l = Some (ONum n) -> shape h l (Num n) [l]
| shape_Str l s :
    h !! l = Some (OStr s) -> shape h l (Str s) [l]
| shape_Attribute l v a ctx e fp :
    h !! l = Some (OAttribute v a ctx) -> shape h v e fp ->
    shape h l (Attribute e a ctx) (l :: fp)
| shape_Starred l v ctx e fp :
    h !! l = Some (OStarred v ctx) -> shape h v e fp ->
    shape h l (Starred e ctx) (l :: fp)
| shape_Call l f args kws sa ka ef eargs ekws esa eka fpf fpa fpk fps fpd :
    h !! l = Some (OCall f args kws sa ka) ->
    shape h f ef fpf -> shapes h args eargs fpa ->
    shape_keywords h kws ekws fpk ->
    shape_option h sa esa fps -> shape_option h ka eka fpd ->
    shape h l (Call ef eargs ekws esa eka)
          (l :: fpf ++ fpa ++ fpk ++ fps ++ fpd)
| shape_Lambda l ps b e fp :
    h !! l = Some (OLambda ps b) -> shape h b e fp ->
    shape h l (Lambda ps e) (l :: fp)
| shape_Node l k cs es fp :
    h !! l = Some (ONode k cs) -> shapes h cs es fp ->
    shape h l (Node k es) (l :: fp)
with shapes (h : heap) : list loc -> list expr -> list loc -> Prop :=
| shapes_nil : shapes h [] [] []
| shapes_cons l ls e es fp fps :
    shape h l e fp -> shapes h ls es fps ->
    shapes h (l :: ls) (e :: es) (fp ++ fps)
with shape_keywords (h : heap)
  : list loc -> list keyword -> list loc -> Prop :=
| shape_keywords_nil : shape_keywords h [] [] []
| shape_keywords_cons l ls a v e kws fp fps :
    h !! l = Some (OKeyword a v) -> shape h v e fp ->
    shape_keywords h ls kws fps ->
    shape_keywords h (l :: ls) (Keyword a e :: kws) (l :: fp ++ fps)
with shape_option (h : heap)
  : option loc -> option expr -> list loc -> Prop :=
| shape_option_None : shape_option h None None []
| shape_option_Some l e fp :
    shape h l e fp -> shape_option h (Some l) (Some e) fp.

Scheme shape_mut := Minimality for shape Sort Prop
  with shapes_mut := Minimality for shapes Sort Prop
  with shape_keywords_mut := Minimality for shape_keywords Sort Prop
  with shape_option_mut := Minimality for shape_option Sort Prop.

(** The node at [l] stands for the tree [e]. *)
Definition denotes (h : heap) (l : loc) (e : expr) : Prop :=
  exists fp, shape h l e fp.

(** The node at [l] is the root of a tree of nodes that stands for [e]. *)
Definition tree (h : heap) (l : loc) (e : expr) : Prop :=
  exists fp, shape h l e fp /\ NoDup fp.

Combined Scheme shape_mutind
  from shape_mut, shapes_mut, shape_keywords_mut, shape_option_mut.

(** *** What a step of the traversal does to the store

    A step runs on the nodes [fp] of its input tree, in a store that
    agrees on them with the store [h0] in which the tree is described;
    [handle] is the node that the transformer holds ([self.tracer],
    [self.wrapper]). *)

(** A step assigns only to the nodes of [fp]. *)
Definition frame_ok (fp : list loc) (h h' : heap) : Prop :=
  length h <= length h'
  /\ forall x, x < length h -> x ∉ fp -> h' !! x = h !! x.

(** The nodes of a result: those of [fp], new ones, or the handle. *)
Definition within (handle : loc) (fp : list loc) (h : heap)
    (fp' : list loc) : Prop :=
  forall x, x ∈ fp' -> x ∈ fp \/ length h <= x \/ x = handle.

(** What a step [c] at depth [d] does on the nodes [fp]. *)
Definition spec (h0 : heap) (handle : loc) (handle_id : string)
    {A : Type} (c : nat -> M A) (fp : list loc)
    (R : A -> heap -> list loc -> Prop) : Prop :=
  exists d0, forall h d,
    (forall x, x ∈ fp -> h !! x = h0 !! x) ->
    NoDup fp -> handle ∉ fp ->
    h !! handle = Some (OName handle_id Load) ->
    d0 <= d ->
    exists a h' fp',
      c d h = Some (a, h') /\ R a h' fp'
      /\ frame_ok fp h h' /\ within handle fp h fp'.

Definition stable {A : Type} (R : A -> heap -> list loc -> Prop) : Prop :=
  (forall a h h' fp',
     R a h fp' -> (forall x, x ∈ fp' -> h' !! x = h !! x) -> R a h' fp')
  /\ (forall a h fp' x, R a h fp' -> x ∈ fp' -> x < length h).

(** The results of two steps. *)
Definition pairR {A B : Type} (R1 : A -> heap -> list loc -> Prop)
    (R2 : B -> heap -> list loc -> Prop)
  : A * B -> heap -> list loc -> Prop :=
  fun ab h fp => exists f1 f2,
    fp = f1 ++ f2 /\ R1 (fst ab) h f1 /\ R2 (snd ab) h f2.

(** The form of both [visit_Call] methods: [generic_visit], then the
    rewrite [hookH] of the call site. *)
Definition method (hookH : loc -> M loc) (visit : loc -> M loc)
    (call : loc) : M loc :=
  NodeTransformer.generic_visit visit call;; hookH call.

Definition is_call (o : object) : bool :=
  if o is OCall _ _ _ _ _ then true else false.

(** The children of a call site, one after the other. *)
Definition visit_children (vis : loc -> M loc) (f : loc)
    (args kws : list loc) (sa ka : option loc)
  : M (loc * (list loc * (list loc * (option loc * option loc)))) :=
  a ← vis f;
  b ← (a ← mapM vis args;
       b ← (a ← mapM vis kws;
            b ← (a ← optM vis sa; b ← optM vis ka; mret (a, b));
            mret (a, b));
       mret (a, b));
  mret (a, b).

Definition rebuild_call
    (x : loc * (list loc * (list loc * (option loc * option loc))))
  : object :=
  OCall (fst x) (fst (snd x)) (fst (snd (snd x)))
        (fst (snd (snd (snd x)))) (snd (snd (snd (snd x)))).

(** *** Code that only makes new nodes *)

Definition extends (h h' : heap) : Prop := exists new, h' = h ++ new.

(** [c] succeeds from [h], only adds nodes, and ends with [Q]. *)
Definition grows {A : Type} (c : M A) (h : heap)
    (Q : A -> heap -> Prop) : Prop :=
  exists a h', c h = Some (a, h') /\ extends h h' /\ Q a h'.

End store.

(** ** The host's evaluation of program units

    The part of Python's evaluation that a rewritten call site runs
    through: names, literals, [lambda], attribute references and calls
    with positional, keyword and spread arguments, evaluated left to
    right in a local namespace and a global one.  The rest of the host
    is a parameter of the evaluation: native callables, the attributes of
    objects and the other node classes.  Every call takes one unit of
    depth for as long as it runs, so that the depth bounds the nesting of
    calls; the wrapper that the tracer returns is one more call around
    the call of the callee. *)

Module host.
Import ast_transform ast_trace.

(** A raised exception: its class and its argument.  The [TypeError]
    that the host raises at a call site, while it unpacks the arguments
    for the called object, names that object in its text: [CallSite] has
    the description of the called object and the rest of the text. *)
Inductive exn :=
| Exn (class arg : string)
| CallSite (callee msg : string).

(** How an evaluation ends: with a value, with an exception, or out of
    depth (the host's limit on the nesting of calls). *)
Inductive outcome (A : Type) :=
| Return (a : A)
| Raise (x : exn)
| Exhausted.
Arguments Return {A} a.
Arguments Raise {A} x.
Arguments Exhausted {A}.

Scheme All for prod.

(** Values: numbers, strings, lists, dictionaries with string keys,
    functions made by [lambda] (with the local namespace they close
    over), the other objects of the host by name (natively implemented
    callables, modules, classes, instances, bound methods), and the
    tracer with its three methods and the wrappers that [trace_function]
    returns. *)
Inductive value :=
| VInt (n : Z)
| VStr (s : string)
| VList (items : list value)
| VDict (items : list (string * value))
| VFunction (closure : list (string * value)) (params : list string)
            (body : expr)
| VNative (name : string)
| VTracer
| VTracerMethod (name : string)
| VTraced (func : value).

Abbreviation namespace := (list (string * value)) (only parsing).

(** A computation of the host: it runs in the global namespace of the
    program unit, which it may change, and ends in an [outcome]. *)
Definition M (A : Type) : Type :=
  list (string * value) -> outcome A * list (string * value).

#[global] Instance M_ret : MRet M := fun A a w => (Return a, w).
#[global] Instance M_bind : MBind M := fun A B k c w =>
  match c w with
  | (Return a, w1) => k a w1
  | (Raise x, w1) => (Raise x, w1)
  | (Exhausted, w1) => (Exhausted, w1)
  end.

Definition raise {A : Type} (x : exn) : M A := fun w => (Raise x, w).
Definition exhausted {A : Type} : M A := fun w => (Exhausted, w).

(** The assignment of a value to a global name. *)
Definition assign (id : string) (v : value) : M value :=
  fun w => (Return v, setitem id v w).

(** The calls that a computation makes go through a function of this
    type: callee, positional arguments, keyword arguments. *)
Abbreviation caller :=
  (value -> list value -> list (string * value) -> M value) (only parsing).

(** The meaning of a sub-expression: its evaluation in a local
    namespace. *)
Abbreviation meaning := (list (string * value) -> M value) (only parsing).

(** The host outside of the call rewriter's reach, which the evaluation
    is relative to: the natively implemented callables by name (which may
    call back), the attributes of objects, the node classes other than
    names, literals, attribute references, calls and [lambda]
    (operators, displays, statements, ...), which get their children as
    syntax and as meanings, and the description of a wrapper of the
    tracer in the text of an exception. *)
Record host := {
  native : caller -> string -> list value -> list (string * value)
           -> M value;
  attribute : value -> string -> M value;
  node : caller -> string -> list (expr * meaning)
         -> list (string * value) -> M value;
  wrapper_name : value -> string;
}.

(** The called object as the text of a [TypeError] names it. *)
Definition describe (H : host) (f : value) : string :=
  match f with
  | VFunction _ _ _ => "<lambda>"
  | VNative name => name
  | VTracerMethod name => name
  | VTraced func => wrapper_name H func
  | _ => "object"
  end.

(** The class of a value as the text of a [TypeError] names it. *)
Definition type_name (v : value) : string :=
  match v with
  | VInt _ => "int"
  | VStr _ => "str"
  | VList _ => "list"
  | VDict _ => "dict"
  | VFunction _ _ _ | VTraced _ => "function"
  | VNative name => name
  | VTracer => "Tracer"
  | VTracerMethod _ => "method"
  end.

(** [iter(v)], for the spread of positional arguments in a call of
    [callee]. *)
Definition iterate (callee : string) (v : value) : M (list value) :=
  match v with
  | VList items => mret items
  | VDict items => mret (map (fun kv => VStr kv.1) items)
  | VStr s =>
      mret (map (fun c => VStr (String c EmptyString))
                (String.list_ascii_of_string s))
  | _ => raise (CallSite callee "argument after * must be an iterable")
  end.

(** The items of a mapping, for the spread of keyword arguments. *)
Definition mapping (callee : string) (v : value)
  : M (list (string * value)) :=
  match v with
  | VDict items => mret items
  | _ => raise (CallSite callee "argument after ** must be a mapping")
  end.

(** The parameters of a [lambda] bound to the arguments of a call:
    positional arguments from the left, the other parameters by keyword;
    [None] stands for the [TypeError] of a call that does not fit. *)
Fixpoint bind_params (params : list string) (args : list value)
    (kwargs : list (string * value)) : option (list (string * value)) :=
  match params, args with
  | p :: params', a :: args' =>
      if contains p kwargs then None
      else r ← bind_params params' args' kwargs; Some ((p, a) :: r)
  | [], _ :: _ => None
  | _, [] =>
      if forallb (fun k => bool_decide (k ∈ params)) kwargs.*1
      then mapM (fun p => v ← getitem p kwargs; Some (p, v)) params
      else None
  end.

Definition tracer_methods : list string :=
  ["trace_function"; "trace_argument"; "trace_return"].

(** Modelled from the spec: the tracer's methods, which are not among the
    sources.  [trace_function(callee, arity)] returns a call-compatible
    wrapper, [trace_argument(value, name=None, nstars=0)] and
    [trace_return(value)] return their value unchanged. *)
Definition tracer_call (method : string) (args : list value)
    (kwargs : list (string * value)) : M value :=
  if decide (method = "trace_function") then
    match args, kwargs with
    | [func; VInt _], [] => mret (VTraced func)
    | _, _ => raise (Exn "TypeError" "trace_function")
    end
  else if decide (method = "trace_argument") then
    match args with
    | v :: rest =>
        if (length rest + length kwargs <=? 2)%nat
           && forallb (fun k => bool_decide (k ∈ ["name"; "nstars"]))
                      kwargs.*1
        then mret v else raise (Exn "TypeError" "trace_argument")
    | [] => raise (Exn "TypeError" "trace_argument")
    end
  else if decide (method = "trace_return") then
    match args, kwargs with
    | [v], [] => mret v
    | _, _ => raise (Exn "TypeError" "trace_return")
    end
  else raise (Exn "AttributeError" method).

(** A name: the local namespace first, then the global one. *)
Definition lookup (id : string) (ns : list (string * value)) : M value :=
  fun w =>
    match getitem id ns with
    | Some v => (Return v, w)
    | None =>
        match getitem id w with
        | Some v => (Return v, w)
        | None => (Raise (Exn "NameError" id), w)
        end
    end.

Section evaluation.
Variable H : host.
(** The calls of the evaluation, at the depth that is left. *)
Variable call : value -> list value -> list (string * value) -> M value.

(** [getattr(v, attr)]: the tracer has its three methods (modelled from
    the spec), the attributes of the other objects are the host's. *)
Definition getattr (v : value) (attr : string) : M value :=
  match v with
  | VTracer =>
      if bool_decide (attr ∈ tracer_methods)
      then mret (VTracerMethod attr)
      else raise (Exn "AttributeError" attr)
  | VTracerMethod _ | VTraced _ => raise (Exn "AttributeError" attr)
  | _ => attribute H v attr
  end.

Section arguments.
(** The evaluation of the sub-expressions of a call. *)
Variable ev : expr -> M value.
(** The called object, as an exception names it. *)
Variable callee : string.

(** One entry of [args]: a [Starred] entry is spread. *)
Definition eval_arg (arg : expr) : M (list value) :=
  match arg with
  | Starred x _ => v ← ev x; iterate callee v
  | _ => v ← ev arg; mret [v]
  end.

Fixpoint eval_args (args : list expr) : M (list value) :=
  match args with
  | [] => mret []
  | arg :: rest =>
      xs ← eval_arg arg; ys ← eval_args rest; mret (xs ++ ys)
  end.

(** One entry of [keywords]: a keyword without a name is spread. *)
Definition eval_keyword (kw : keyword) : M (list (string * value)) :=
  match kw with
  | Keyword (Some name) x => v ← ev x; mret [(name, v)]
  | Keyword None x => v ← ev x; mapping callee v
  end.

Fixpoint eval_keywords (kws : list keyword)
  : M (list (string * value)) :=
  match kws with
  | [] => mret []
  | kw :: rest =>
      xs ← eval_keyword kw; ys ← eval_keywords rest; mret (xs ++ ys)
  end.

(** The spread slots of Python 3.4 and lower. *)
Definition eval_starargs (starargs : option expr) : M (list value) :=
  match starargs with
  | Some x => v ← ev x; iterate callee v
  | None => mret []
  end.

Definition eval_kwargs (kwargs : option expr)
  : M (list (string * value)) :=
  match kwargs with
  | Some x => v ← ev x; mapping callee v
  | None => mret []
  end.
End arguments.

(** A call: the callee, then the arguments from left to right, then the
    call itself; a keyword given twice is a [TypeError]. *)
Definition eval_Call (ev : expr -> M value) (func : expr)
    (args : list expr) (keywords : list keyword)
    (starargs kwargs : option expr) : M value :=
  f ← ev func;
  pos ← eval_args ev (describe H f) args;
  kws ← eval_keywords ev (describe H f) keywords;
  star ← eval_starargs ev (describe H f) starargs;
  dstar ← eval_kwargs ev (describe H f) kwargs;
  if bool_decide (NoDup (kws ++ dstar).*1)
  then call f (pos ++ star) (kws ++ dstar)
  else raise (CallSite (describe H f)
                "got multiple values for keyword argument").

(** The evaluation of an expression in the local namespace [ns].  A
    node of another class is the host's: it gets its children, each as
    syntax and as the evaluation of the child (of the marked expression,
    for a [Starred] child). *)
Fixpoint eval_expr (ns : list (string * value)) (e : expr) : M value :=
  match e with
  | Name id _ => lookup id ns
  | Num n => mret (VInt n)
  | Str s => mret (VStr s)
  | Attribute x attr _ => v ← eval_expr ns x; getattr v attr
  | Starred _ _ =>
      raise (Exn "SyntaxError" "can't use starred expression here")
  | Call func args keywords starargs kwargs =>
      eval_Call (eval_expr ns) func args keywords starargs kwargs
  | Lambda params body => mret (VFunction ns params body)
  | Node kind children =>
      node H call kind
        (map (fun c =>
                (c, fun ns' =>
                      match c with
                      | Starred x _ => eval_expr ns' x
                      | _ => eval_expr ns' c
                      end))
             children)
        ns
  end.

(** One call, with [call] for the calls that it makes in turn.  The
    wrapper that [trace_function] returns performs the real call
    (modelled from the spec). *)
Definition call_step (f : value) (args : list value)
    (kwargs : list (string * value)) : M value :=
  match f with
  | VFunction closure params body =>
      match bind_params params args kwargs with
      | Some bound => eval_expr (bound ++ closure) body
      | None =>
          raise (Exn "TypeError"
                   "<lambda>() arguments do not fit the parameters")
      end
  | VNative name => native H call name args kwargs
  | VTracerMethod method => tracer_call method args kwargs
  | VTraced func => call func args kwargs
  | _ =>
      raise (Exn "TypeError"
               (String.append (type_name f) " object is not callable"))
  end.
End evaluation.

(** A call with at most [depth] calls nested in one another, this one
    included: a call of a function, of a native callable, of a method of
    the tracer, and of a wrapper of the tracer around the call that it
    performs. *)
Fixpoint call (H : host) (depth : nat) (f : value) (args : list value)
    (kwargs : list (string * value)) : M value :=
  match depth with
  | O => exhausted
  | S depth' => call_step H (call H depth') f args kwargs
  end.

(** The evaluation of a program unit with calls nested at most [depth]
    deep. *)
Definition eval (H : host) (depth : nat) (ns : list (string * value))
    (e : expr) : M value :=
  eval_expr H (call H depth) ns e.

(** *** Programs and what the rewrite keeps of their evaluation *)

(** The identifiers of a program: variables and parameters. *)
Fixpoint names (e : expr) : list string :=
  match e with
  | Name id _ => [id]
  | Num _ | Str _ => []
  | Attribute x _ _ | Starred x _ => names x
  | Call func args keywords starargs kwargs =>
      names func ++ concat (map names args)
      ++ concat (map (fun kw => names (kw_value kw)) keywords)
      ++ from_option names [] starargs ++ from_option names [] kwargs
  | Lambda params body => params ++ names body
  | Node _ children => concat (map names children)
  end.

(** The trees of the interpreter's dialect: a [Starred] node stands
    among the arguments of a call, from Python 3.5 on, or among the
    children of a node of another class (a display, a target); a call
    has the two spread slots before Python 3.5 only. *)
Fixpoint well_formed (has_starred : bool) (e : expr) : bool :=
  match e with
  | Name _ _ | Num _ | Str _ => true
  | Attribute x _ _ => well_formed has_starred x
  | Starred _ _ => false
  | Call func args keywords starargs kwargs =>
      well_formed has_starred func
      && forallb (fun arg =>
                    match arg with
                    | Starred x _ => has_starred && well_formed has_starred x
                    | _ => well_formed has_starred arg
                    end) args
      && forallb (fun kw => well_formed has_starred (kw_value kw)) keywords
      && from_option (fun x => negb has_starred && well_formed has_starred x)
                     true starargs
      && from_option (fun x => negb has_starred && well_formed has_starred x)
                     true kwargs
  | Lambda _ body => well_formed has_starred body
  | Node _ children =>
      forallb (fun c =>
                 match c with
                 | Starred x _ => well_formed has_starred x
                 | _ => well_formed has_starred c
                 end) children
  end.

(** Values without functions in them. *)
Fixpoint plain (v : value) : bool :=
  match v with
  | VInt _ | VStr _ => true
  | VList items => forallb plain items
  | VDict items => forallb (fun kv => plain kv.2) items
  | _ => false
  end.

Section relation.
Variable has_starred : bool.
(** The name of the tracer in the rewritten program. *)
Variable tracer : string.

Local Abbreviation rewrite :=
  (TraceFunctionCalls.visit has_starred (Name tracer Load)).

(** The values of the program and of the rewritten program: the same,
    but for the bodies of functions, which are rewritten. *)
Inductive same_value : value -> value -> Prop :=
| same_Int n : same_value (VInt n) (VInt n)
| same_Str s : same_value (VStr s) (VStr s)
| same_List xs ys :
    Forall2 same_value xs ys -> same_value (VList xs) (VList ys)
| same_Dict xs ys :
    Forall2 (fun x y => x.1 = y.1 /\ same_value x.2 y.2) xs ys ->
    same_value (VDict xs) (VDict ys)
| same_Native name : same_value (VNative name) (VNative name)
| same_Function ns ns' params body :
    getitem tracer ns' = None ->
    (forall id, id <> tracer ->
       option_Forall2 same_value (getitem id ns) (getitem id ns')) ->
    tracer ∉ params ++ names body ->
    well_formed has_starred body = true ->
    same_value (VFunction ns params body)
               (VFunction ns' params (rewrite body)).

Definition same_items (xs ys : list (string * value)) : Prop :=
  Forall2 (fun x y => x.1 = y.1 /\ same_value x.2 y.2) xs ys.

(** The local namespaces of the program and of the rewritten program:
    neither binds the name of the tracer in the rewritten program. *)
Definition same_locals (ns ns' : list (string * value)) : Prop :=
  getitem tracer ns' = None
  /\ forall id, id <> tracer ->
       option_Forall2 same_value (getitem id ns) (getitem id ns').

(** The global namespaces: that of the rewritten program has the
    tracer under its name. *)
Definition same_globals (w w' : list (string * value)) : Prop :=
  getitem tracer w' = Some VTracer
  /\ forall id, id <> tracer ->
       option_Forall2 same_value (getitem id w) (getitem id w').

(** The same exception: equal, but for the called object that a
    [TypeError] of a call site names. *)
Definition same_exn (x x' : exn) : Prop :=
  match x, x' with
  | Exn class arg, Exn class' arg' => class = class' /\ arg = arg'
  | CallSite _ msg, CallSite _ msg' => msg = msg'
  | _, _ => False
  end.

(** The same outcome: the same kind of end, with values that are the
    same and exceptions that are the same. *)
Definition same_outcome {A : Type} (R : A -> A -> Prop)
    (o o' : outcome A) : Prop :=
  match o, o' with
  | Return a, Return a' => R a a'
  | Raise x, Raise x' => same_exn x x'
  | Exhausted, Exhausted => True
  | _, _ => False
  end.

(** An evaluation ends when the depth suffices for it. *)
Definition ends {A : Type} (r : outcome A * list (string * value))
  : Prop :=
  r.1 <> Exhausted.

(** The same end: the same outcome, in global namespaces that are the
    same. *)
Definition same_end {A : Type} (R : A -> A -> Prop)
    (r r' : outcome A * list (string * value)) : Prop :=
  same_outcome R r.1 r'.1 /\ same_globals r.2 r'.2.

(** Two computations, of the program and of the rewritten program, that
    end the same wherever the leading one ends: that of the program
    ([lead = true]) or that of the rewritten program. *)
Definition alike {A : Type} (lead : bool) (R : A -> A -> Prop)
    (c c' : M A) : Prop :=
  forall w w', same_globals w w' ->
    ends (if lead then c w else c' w') -> same_end R (c w) (c' w').

(** Callers that end the same on the same callee and arguments. *)
Definition callers_alike (lead : bool)
    (call call' : value -> list value -> list (string * value) -> M value)
  : Prop :=
  forall f f' args args' kwargs kwargs',
    same_value f f' -> Forall2 same_value args args' ->
    same_items kwargs kwargs' ->
    alike lead same_value (call f args kwargs) (call' f' args' kwargs').

(** A child of a node in the program and in the rewritten program. *)
Definition children_alike (lead : bool)
    (c c' : expr * (list (string * value) -> M value)) : Prop :=
  fst c' = rewrite (fst c)
  /\ tracer ∉ names (fst c)
  /\ well_formed has_starred
       (match fst c with Starred x _ => x | other => other end) = true
  /\ forall ns ns', same_locals ns ns' ->
       alike lead same_value (snd c ns) (snd c' ns').

(** The host does not tell a function from its rewritten form, nor the
    global namespace with the tracer from the one without: its native
    callables, attributes and other nodes end the same on the same
    arguments. *)
Definition uniform (H : host) : Prop :=
  forall lead : bool,
    (forall call call' name args args' kwargs kwargs',
       callers_alike lead call call' ->
       Forall2 same_value args args' -> same_items kwargs kwargs' ->
       alike lead same_value (native H call name args kwargs)
             (native H call' name args' kwargs'))
    /\ (forall v v' attr,
          same_value v v' ->
          alike lead same_value (attribute H v attr) (attribute H v' attr))
    /\ (forall call call' kind children children' ns ns',
          callers_alike lead call call' ->
          Forall2 (children_alike lead) children children' ->
          same_locals ns ns' ->
          alike lead same_value (node H call kind children ns)
                (node H call' kind children' ns')).

(** A computation of the rewritten program that does what another one
    does, in a global namespace that has the tracer, unless it is out of
    depth. *)
Definition refines {A : Type} (lead : bool) (c1 c2 : M A) : Prop :=
  forall w', getitem tracer w' = Some VTracer ->
    c1 w' = c2 w' \/ (lead = false /\ (c1 w').1 = Exhausted).

(** The caller of the rewritten program has depth left for a method of
    the tracer, unless the rewritten program leads and is out of depth. *)
Definition tracer_ready (lead : bool)
    (call' : value -> list value -> list (string * value) -> M value)
  : Prop :=
  (forall method args kwargs w,
     call' (VTracerMethod method) args kwargs w
     = tracer_call method args kwargs w)
  \/ (lead = false
      /\ forall f args kwargs w, (call' f args kwargs w).1 = Exhausted).

(** A call of the program and the call of the wrapper of the same
    callee in the rewritten program. *)
Definition traced_alike (lead : bool)
    (call call' : value -> list value -> list (string * value) -> M value)
  : Prop :=
  forall f f' args args' kwargs kwargs',
    same_value f f' -> Forall2 same_value args args' ->
    same_items kwargs kwargs' ->
    alike lead same_value (call f args kwargs)
          (call' (VTraced f') args' kwargs').

(** The depths of the program and of the rewritten program that go
    together: a traced call passes through the wrapper, so what the
    program does in depth [n], the rewritten program does in depth
    [2 * n + 1]; and what the rewritten program does in depth [m], the
    program does in any depth from [m] on. *)
Definition depths (lead : bool) (n m : nat) : Prop :=
  if lead then (2 * n + 1 <= m) else (m <= n).
End relation.
End host.

(** ** The call sites of a tree *)

Module occurrences.
Import ast_transform ast_trace.

(** The [Call] nodes of a tree, each before the ones inside it, in field
    order. *)
Fixpoint calls (e : expr) : list expr :=
  match e with
  | Name _ _ | Num _ | Str _ => []
  | Attribute x _ _ | Starred x _ => calls x
  | Call func args keywords starargs kwargs =>
      e :: calls func ++ concat (map calls args)
        ++ concat (map (fun kw => calls (kw_value kw)) keywords)
        ++ from_option calls [] starargs ++ from_option calls [] kwargs
  | Lambda _ body => calls body
  | Node _ children => concat (map calls children)
  end.

(** The callee of a call site. *)
Definition callee (e : expr) : option expr :=
  match e with
  | Call func _ _ _ _ => Some func
  | _ => None
  end.

(** The reference [tracer.attr] that [trace_method] builds. *)
Definition is_trace_method (tracer : string) (attr : string) (e : expr)
  : bool :=
  match e with
  | Attribute (Name id Load) a Load =>
      bool_decide (id = tracer) && bool_decide (a = attr)
  | _ => false
  end.

(** A call that goes through the tracer: a call of one of its three
    methods, or a call of what its [trace_function] returns. *)
Definition traced (tracer : string) (call : expr) : bool :=
  match callee call with
  | Some f =>
      is_trace_method tracer "trace_function" f
      || is_trace_method tracer "trace_argument" f
      || is_trace_method tracer "trace_return" f
      || match f with
         | Call g [_; Num _] [] None None =>
             is_trace_method tracer "trace_function" g
         | _ => false
         end
  | None => false
  end.

(** A call of what [tracer.trace_function(callee, nargs)] returns: the
    form that a call site has after the rewrite. *)
Definition traced_site (tracer : string) (call : expr) : bool :=
  match callee call with
  | Some (Call g [_; Num _] [] None None) =>
      is_trace_method tracer "trace_function" g
  | _ => false
  end.
End occurrences.

(** ** Call sites as the specification counts them *)

Module call_site.
Import ast_trace.

(** The spread slots exist in one dialect only: where [Starred] marks the
    spreads, a [Call] has neither [starargs] nor [kwargs]. *)
Definition dialect_ok (has_starred : bool) (call : expr) : Prop :=
  match call with
  | Call _ _ _ starargs kwargs =>
      has_starred = true -> starargs = None /\ kwargs = None
  | _ => True
  end.

Definition is_named (kw : keyword) : bool :=
  if kw_arg kw is Some _ then true else false.

(** p: the positional arguments that are not spreads. *)
Definition positionals (call : expr) : nat :=
  match call with
  | Call _ args _ _ _ => length (filter (fun a => is_Starred a = false) args)
  | _ => 0
  end.

(** k: the keyword arguments that have a name. *)
Definition named_keywords (call : expr) : nat :=
  match call with
  | Call _ _ keywords _ _ =>
      length (filter (fun kw => is_named kw = true) keywords)
  | _ => 0
  end.

(** The positional spreads: marked entries of [args] and the [starargs]
    slot. *)
Definition positional_spreads (call : expr) : nat :=
  match call with
  | Call _ args _ starargs _ =>
      length (filter (fun a => is_Starred a = true) args)
      + (if starargs is Some _ then 1 else 0)
  | _ => 0
  end.

(** The keyword spreads: keywords without a name and the [kwargs] slot. *)
Definition keyword_spreads (call : expr) : nat :=
  match call with
  | Call _ _ keywords _ kwargs =>
      length (filter (fun kw => is_named kw = false) keywords)
      + (if kwargs is Some _ then 1 else 0)
  | _ => 0
  end.

(** A spread flag: 1 when a spread of that kind is present, else 0. *)
Definition flag (n : nat) : nat := if n is O then 0 else 1.

(** Are the callee and the arguments of a call site free of call sites? *)
Definition plain (call : expr) : bool :=
  match call with
  | Call func args keywords starargs kwargs =>
      call_free func && forallb call_free args
      && forallb (fun kw => call_free (kw_value kw)) keywords
      && from_option call_free true starargs
      && from_option call_free true kwargs
  | _ => false
  end.

(** The arity as the specification computes it, p + k + s1 + s2. *)
Definition claimed_arity (call : expr) : nat :=
  positionals call + named_keywords call
  + flag (positional_spreads call) + flag (keyword_spreads call).

(** The arity that a rewritten call site hands to [trace_function]. *)
Definition reported_arity (e : expr) : option Z :=
  match e with
  | Call (Attribute _ "trace_return" Load)
      [Call (Call (Attribute _ "trace_function" Load) [_; Num n] [] None None)
            _ _ _ _] [] None None => Some n
  | _ => None
  end.

(** The argument slots of the call inside a rewritten call site. *)
Definition wrapped_call (e : expr)
  : option (list expr * list keyword * option expr * option expr) :=
  match e with
  | Call (Attribute _ "trace_return" Load)
      [Call (Call (Attribute _ "trace_function" Load) _ _ _ _)
            args keywords starargs kwargs] [] None None =>
      Some (args, keywords, starargs, kwargs)
  | _ => None
  end.

(** A rewritten call site as the specification writes it, node by node:
    [tracer.trace_return(tracer.trace_function(callee, nargs)(...))]
    around the argument slots of the call. *)
Definition traced_call (tracer callee : expr) (nargs : nat)
    (args : list expr) (keywords : list keyword)
    (starargs kwargs : option expr) : expr :=
  Call (Attribute tracer "trace_return" Load)
       [Call (Call (Attribute tracer "trace_function" Load)
                   [callee; Num (Z.of_nat nargs)] [] None None)
             args keywords starargs kwargs]
       [] None None.

(** A wrapped argument, node by node:
    [tracer.trace_argument(value)], with the name of a keyword as second
    argument when it has one, and the tag [nstars=n] of a spread. *)
Definition traced_argument (tracer value : expr) (name : option string)
    (nstars : nat) : expr :=
  Call (Attribute tracer "trace_argument" Load)
       (value :: match name with
                 | Some n => if decide (n = "") then [] else [Str n]
                 | None => []
                 end)
       (match nstars with
        | O => []
        | S _ => [Keyword (Some "nstars") (Num (Z.of_nat nstars))]
        end)
       None None.

(** The wrapping of the argument in one slot of a call: where [Starred]
    marks the spreads, a marked argument keeps its marker outside the
    wrapper and is tagged 1; any other argument is wrapped whole. *)
Definition wrapped_slot (has_starred : bool) (tracer a : expr)
    (name : option string) (nstars : nat) : expr :=
  match a with
  | Starred v _ =>
      if has_starred then Starred (traced_argument tracer v name 1) Load
      else traced_argument tracer a name nstars
  | _ => traced_argument tracer a name nstars
  end.
End call_site.

(** ** Callables as the specification classifies them *)

Module resolver.
Import inspect.
Section values.
Context {value : Type}.

(** The callable whose signature [ast_trace.bind_arguments] asks for: the
    underlying function of a bound instance method, else the callable. *)
Definition introspected (f : callable value) : callable value :=
  match f with
  | Method self func => if isclass self then f else func
  | Callable _ _ => f
  end.

(** An opaque callable: introspection finds no signature. *)
Definition opaque (f : callable value) : Prop :=
  exists msg, signature (introspected f) = inl (ValueError msg).

(** The receiver of a callable as far as it counts: one that is not a
    module. *)
Definition own_receiver (f : callable value) : list value :=
  match getattr_self f with
  | Some s => if ismodule s then [] else [obj s]
  | None => []
  end.

(** The receivers of an opaque callable, outermost last: that of the
    callable that is introspected, and before it that of a bound instance
    method around it. *)
Definition receivers (f : callable value) : list value :=
  match f with
  | Method self func =>
      if isclass self then own_receiver f
      else own_receiver func ++ [obj self]
  | Callable _ _ => own_receiver f
  end.

(** The entries of the opaque fallback as the specification lists them:
    keys "0", "1", ... for the positional values, then the keywords. *)
Definition positional_entries (vs : list value)
  : OrderedDict (bound value) :=
  imap (fun i v => (pretty i, One v)) vs.

Definition keyword_entries (kwargs : OrderedDict value)
  : OrderedDict (bound value) :=
  map (fun kv => (fst kv, One (snd kv))) kwargs.

(** *** Signatures and what a call supplies to their parameters *)

(** The tail of a signature after the positional parameters and [*args]:
    keyword-only parameters, then at most a [**kwargs] parameter. *)
Fixpoint keyword_tail (ps : Signature value) : bool :=
  match ps with
  | [] => true
  | p :: ps' =>
      match pkind p with
      | KEYWORD_ONLY => keyword_tail ps'
      | VAR_KEYWORD => if ps' is [] then true else false
      | _ => false
      end
  end.

(** The order of the parameter kinds that the host's function definitions
    have: positional parameters, at most one [*args], keyword-only
    parameters, at most one [**kwargs]. *)
Fixpoint ordered (ps : Signature value) : bool :=
  match ps with
  | [] => true
  | p :: ps' =>
      match pkind p with
      | POSITIONAL_ONLY | POSITIONAL_OR_KEYWORD => ordered ps'
      | VAR_POSITIONAL => keyword_tail ps'
      | KEYWORD_ONLY | VAR_KEYWORD => keyword_tail ps
      end
  end.

(** A signature of the host: no two parameters of one name, kinds in
    order. *)
Definition valid (sig : Signature value) : Prop :=
  NoDup (map pname sig) /\ ordered sig = true.

(** A parameter that a keyword argument can name: not a positional-only
    one, nor [*args] or [**kwargs]. *)
Definition keyworded (p : Param value) : bool :=
  match pkind p with
  | POSITIONAL_OR_KEYWORD | KEYWORD_ONLY => true
  | _ => false
  end.

(** The names of these parameters. *)
Definition keyword_names (sig : Signature value) : list string :=
  map pname (filter (fun p => keyworded p = true) sig).

(** The keyword arguments of a call that name none of these parameters;
    among them is a keyword with the name of a positional-only
    parameter. *)
Definition extra_keywords (sig : Signature value)
    (kwargs : OrderedDict value) : OrderedDict value :=
  filter (fun kv => fst kv ∉ keyword_names sig) kwargs.

(** What the call supplies to the parameter [p], the [i]-th of the
    signature: the [i]-th positional argument, or the keyword argument of
    its name, or for [*args] the positional arguments from the [i]-th on
    and for [**kwargs] the extra keywords; nothing ([None]) when the call
    has no such argument. *)
Definition supplied_to (args : list value) (kwargs extra : OrderedDict value)
    (i : nat) (p : Param value) : option (string * bound value) :=
  match pkind p with
  | POSITIONAL_ONLY => (fun v => (pname p, One v)) <$> args !! i
  | POSITIONAL_OR_KEYWORD =>
      (fun v => (pname p, One v)) <$>
        (if args !! i is Some v then Some v else getitem (pname p) kwargs)
  | VAR_POSITIONAL =>
      if drop i args is [] then None
      else Some (pname p, Tuple (drop i args))
  | KEYWORD_ONLY => (fun v => (pname p, One v)) <$> getitem (pname p) kwargs
  | VAR_KEYWORD =>
      if extra is [] then None else Some (pname p, Dict extra)
  end.

(** The [**kwargs] parameter that the keyword phase of the binding has
    met in [qs], after [kp]. *)
Fixpoint remembered (qs : Signature value) (kp : option (Param value))
  : option (Param value) :=
  match qs with
  | [] => kp
  | q :: qs' =>
      remembered qs' (if decide (pkind q = VAR_KEYWORD) then Some q else kp)
  end.

(** The [**kwargs] parameter is the last one, if there is one. *)
Definition kwargs_last (ps : Signature value) (kp : option (Param value))
  : Prop :=
  (Forall (fun q => pkind q <> VAR_KEYWORD) ps /\ remembered ps kp = kp)
  \/ exists init p,
       ps = init ++ [p] /\ pkind p = VAR_KEYWORD
       /\ Forall (fun q => pkind q <> VAR_KEYWORD) init
       /\ remembered ps kp = Some p.

(** The positional arguments that a signature is bound to: the receiver of
    a bound instance method, then the arguments of the call. *)
Definition effective_args (f : callable value) (args : list value)
  : list value :=
  match f with
  | Method self _ => if isclass self then args else obj self :: args
  | Callable _ _ => args
  end.

(** The mapping as the amended specification has it: in declaration order,
    one entry for each parameter that the call supplies an argument to. *)
Definition supplied (sig : Signature value) (args : list value)
    (kwargs : OrderedDict value) : OrderedDict (bound value) :=
  omap id (imap (supplied_to args kwargs (extra_keywords sig kwargs)) sig).
End values.
End resolver.

(** ** Sample inputs *)

Module samples.
(** The call site [f( *a, *b )] of Python 3.5 and later. *)
Definition two_spreads : expr :=
  Call (Name "f" Load)
       [Starred (Name "a" Load) Load; Starred (Name "b" Load) Load]
       [] None None.


(** [g( *xs, **kw )], scenario 3 of the specification, as Python 3.5 and
    later parse it. *)
Definition both_spreads : expr :=
  Call (Name "g" Load) [Starred (Name "xs" Load) Load]
       [Keyword None (Name "kw" Load)] None None.

(** A parameter that is positional or keyword, without default. *)
Definition plain_param (name : string) : inspect.Param nat :=
  {| inspect.pname := name;
     inspect.pkind := inspect.POSITIONAL_OR_KEYWORD;
     inspect.pdefault := None |}.

(** An instance, as the receiver of a method. *)
Definition an_instance : inspect.receiver nat :=
  {| inspect.obj := 77; inspect.isclass := false; inspect.ismodule := false |}.

(** [obj.method] for [def method(self, a)], scenario 2 of the
    specification. *)
Definition a_method : inspect.callable nat :=
  inspect.Method an_instance
    (inspect.Callable None (Some [plain_param "self"; plain_param "a"])).

(** [def f(x, y=2)] *)
Definition with_default_sig : inspect.Signature nat :=
  [plain_param "x";
   {| inspect.pname := "y";
      inspect.pkind := inspect.POSITIONAL_OR_KEYWORD;
      inspect.pdefault := Some 2 |}].

Definition with_default : inspect.callable nat :=
  inspect.Callable None (Some with_default_sig).

(** [def f(a, /, **kw)] *)
Definition positional_only_sig : inspect.Signature nat :=
  [ {| inspect.pname := "a";
       inspect.pkind := inspect.POSITIONAL_ONLY;
       inspect.pdefault := None |};
    {| inspect.pname := "kw";
       inspect.pkind := inspect.VAR_KEYWORD;
       inspect.pdefault := None |} ].

Definition positional_only : inspect.callable nat :=
  inspect.Callable None (Some positional_only_sig).

(** A method implemented in C, bound to an instance, without signature. *)
Definition a_builtin_method : inspect.callable nat :=
  inspect.Callable (Some an_instance) None.

(** A function implemented in C, without signature and without receiver. *)
Definition a_builtin : inspect.callable nat :=
  inspect.Callable None None.

(** A callee that writes to a journal and raises the exception object 13,
    and two hooks that write to the journal. *)
Definition raising_callee (f : inspect.callable nat) (args : list nat)
    (kwargs : OrderedDict nat) (w : list string)
  : ast_transform.outcome (value := nat) nat * list string :=
  (ast_transform.Raised (ast_transform.Object 13), w ++ ["callee"]).

Definition journal_on_call (f : inspect.callable nat)
    (arguments : OrderedDict (inspect.bound nat)) (w : list string)
  : ast_transform.outcome (value := nat) unit * list string :=
  (ast_transform.Returned tt, w ++ ["on_call"]).

Definition journal_on_return (f : inspect.callable nat)
    (arguments : OrderedDict (inspect.bound nat)) (return_value : nat)
    (w : list string)
  : ast_transform.outcome (value := nat) unit * list string :=
  (ast_transform.Returned tt, w ++ ["on_return"]).

(** [f(g(x))] in the store, at two different places. *)
Definition nested_call : expr :=
  Call (Name "f" Load)
       [Call (Name "g" Load) [Name "x" Load] [] None None] [] None None.

Definition nested_heap : list store.object :=
  [store.OName "f" Load; store.OName "g" Load; store.OName "x" Load;
   store.OCall 1 [2] [] None None; store.OCall 0 [3] [] None None].

Definition nested_heap' : list store.object :=
  [store.OCall 4 [3] [] None None; store.OName "x" Load;
   store.OName "g" Load; store.OCall 2 [1] [] None None;
   store.OName "f" Load].

(** A host for the examples.  Its native callables: [add(a, b)] on
    numbers, [apply(f, x)], which calls [f] back, and the class [Foo]. *)
Definition sample_native
    (call : host.value -> list host.value -> list (string * host.value)
            -> host.M host.value)
    (name : string) (args : list host.value)
    (kwargs : list (string * host.value)) : host.M host.value :=
  if decide (name = "add") then
    match args, kwargs with
    | [host.VInt a; host.VInt b], [] => mret (host.VInt (a + b)%Z)
    | _, _ => host.raise (host.Exn "TypeError" "add")
    end
  else if decide (name = "apply") then
    match args, kwargs with
    | [f; x], [] => call f [x] []
    | _, _ => host.raise (host.Exn "TypeError" "apply")
    end
  else if decide (name = "Foo") then
    match args, kwargs with
    | [], [] => mret (host.VNative "foo")
    | _, _ => host.raise (host.Exn "TypeError" "Foo")
    end
  else host.raise (host.Exn "TypeError" "object is not callable").

(** Its attributes: the module [objects] has the class [Foo]. *)
Definition sample_attribute (v : host.value) (attr : string)
  : host.M host.value :=
  match v with
  | host.VNative name =>
      if bool_decide (name = "objects" /\ attr = "Foo")
      then mret (host.VNative "Foo")
      else host.raise (host.Exn "AttributeError" attr)
  | _ => host.raise (host.Exn "AttributeError" attr)
  end.

(** Its other nodes: the assignment [id = value] to a global name, with
    the target and the value as children. *)
Definition sample_node
    (call : host.value -> list host.value -> list (string * host.value)
            -> host.M host.value)
    (kind : string)
    (children : list (expr * (list (string * host.value)
                              -> host.M host.value)))
    (ns : list (string * host.value)) : host.M host.value :=
  if decide (kind = "Assign") then
    match children with
    | [(Name id _, _); (_, value)] =>
        v ← value ns; host.assign id v
    | _ => host.raise (host.Exn "SyntaxError" kind)
    end
  else host.raise (host.Exn "SyntaxError" kind).

Definition sample_host : host.host :=
  {| host.native := sample_native;
     host.attribute := sample_attribute;
     host.node := sample_node;
     host.wrapper_name := fun _ => "wrapper" |}.

(** A host with a native callable that looks into a function:
    [co_names(f)], the names in the body of [f]. *)
Definition introspecting_host : host.host :=
  {| host.native := fun call name args kwargs =>
       if decide (name = "co_names") then
         match args, kwargs with
         | [host.VFunction _ _ body], [] =>
             mret (host.VList (map host.VStr (host.names body)))
         | _, _ => host.raise (host.Exn "TypeError" "co_names")
         end
       else sample_native call name args kwargs;
     host.attribute := sample_attribute;
     host.node := sample_node;
     host.wrapper_name := fun _ => "wrapper" |}.

Definition sample_globals : list (string * host.value) :=
  [("add", host.VNative "add"); ("apply", host.VNative "apply");
   ("objects", host.VNative "objects");
   ("co_names", host.VNative "co_names")].

(** The global namespace in which a rewritten program runs: the tracer
    under its name. *)
Definition traced_globals : list (string * host.value) :=
  ("tracer", host.VTracer) :: sample_globals.

(** [z = apply(lambda x: add(x, 1), 2)] *)
Definition assignment : expr :=
  Node "Assign"
    [Name "z" Store;
     Call (Name "apply" Load)
          [Lambda ["x"]
             (Call (Name "add" Load) [Name "x" Load; Num 1] [] None None);
           Num 2]
          [] None None].

(** [foo = objects.Foo()], as in the tests. *)
Definition instantiation : expr :=
  Node "Assign"
    [Name "foo" Store;
     Call (Attribute (Name "objects" Load) "Foo" Load) [] [] None None].

(** [(lambda tracer: add(tracer, 1))(0)] *)
Definition shadowing : expr :=
  Call (Lambda ["tracer"]
          (Call (Name "add" Load) [Name "tracer" Load; Num 1] []
                None None))
       [Num 0] [] None None.

(** [add(1, 2)] *)
Definition addition : expr :=
  Call (Name "add" Load) [Num 1; Num 2] [] None None.

(** [co_names(lambda: add(1, 2))] *)
Definition introspection : expr :=
  Call (Name "co_names" Load) [Lambda [] addition] [] None None.

(** [add( *1 )] *)
Definition spread_of_number : expr :=
  Call (Name "add" Load) [Starred (Num 1) Load] [] None None.

(** A callee that writes to the journal and returns 42, and two hooks
    that write to the journal and raise the exception object 7. *)
Definition returning_callee (f : inspect.callable nat) (args : list nat)
    (kwargs : OrderedDict nat) (w : list string)
  : ast_transform.outcome (value := nat) nat * list string :=
  (ast_transform.Returned 42, w ++ ["callee"]).

Definition failing_on_call (f : inspect.callable nat)
    (arguments : OrderedDict (inspect.bound nat)) (w : list string)
  : ast_transform.outcome (value := nat) unit * list string :=
  (ast_transform.Raised (ast_transform.Object 7), w ++ ["on_call"]).

Definition failing_on_return (f : inspect.callable nat)
    (arguments : OrderedDict (inspect.bound nat)) (return_value : nat)
    (w : list string)
  : ast_transform.outcome (value := nat) unit * list string :=
  (ast_transform.Raised (ast_transform.Object 7), w ++ ["on_return"]).
End samples.

(** * Properties *)

(** ** Traversals *)

Lemma list_all_Forall {A : Type} (P : A -> Prop) (l : list A) :
  list_all A P l -> Forall P l.
Proof. induction 1; constructor; assumption. Qed.

Section traversal_facts.
Import ast_transform ast_trace.
Variables (flag : bool) (handle : expr).

(** A transformer built on [generic_visit] that only replaces call sites
    leaves a tree without call sites as it is. *)
Lemma generic_visit_call_free (V : expr -> expr) (e : expr) :
  (forall c, call_free c = true -> V c = c) ->
  call_free e = true -> NodeTransformer.generic_visit V e = e.
Proof.
  intros HV. destruct e; simpl; intros Hfree; try reflexivity;
    try discriminate.
  - now rewrite HV.
  - now rewrite HV.
  - now rewrite HV.
  - f_equal. induction children as [|c cs IH]; simpl; [reflexivity|].
    simpl in Hfree. apply andb_prop in Hfree as [Hc Hcs].
    rewrite HV by exact Hc. f_equal. now apply IH.
Qed.

Lemma WrapCalls_visit_call_free (e : expr) :
  call_free e = true -> WrapCalls.visit flag handle e = e.
Proof.
  induction e using expr_keyword_ind with (P0 := fun _ => True);
    simpl; try exact I; intros Hfree; try reflexivity; try discriminate.
  - now rewrite IHe.
  - now rewrite IHe.
  - now rewrite IHe.
  - f_equal. apply list_all_Forall in H.
    induction H as [|c cs Hc _ IH]; simpl; [reflexivity|].
    simpl in Hfree. apply andb_prop in Hfree as [Hfc Hfcs].
    rewrite Hc by exact Hfc. f_equal. now apply IH.
Qed.

Lemma TraceFunctionCalls_visit_call_free (e : expr) :
  call_free e = true -> TraceFunctionCalls.visit flag handle e = e.
Proof.
  induction e using expr_keyword_ind with (P0 := fun _ => True);
    simpl; try exact I; intros Hfree; try reflexivity; try discriminate.
  - now rewrite IHe.
  - now rewrite IHe.
  - now rewrite IHe.
  - f_equal. apply list_all_Forall in H.
    induction H as [|c cs Hc _ IH]; simpl; [reflexivity|].
    simpl in Hfree. apply andb_prop in Hfree as [Hfc Hfcs].
    rewrite Hc by exact Hfc. f_equal. now apply IH.
Qed.

(** The traversal keeps a spread marker where it is and adds none. *)
Lemma TraceFunctionCalls_visit_is_Starred (e : expr) :
  is_Starred (TraceFunctionCalls.visit flag handle e) = is_Starred e.
Proof. destruct e; reflexivity. Qed.
End traversal_facts.

(** ** The generic wrap-calls transformer *)

Section WrapCalls_facts.
Import ast_transform.

Lemma map_call_free (V : expr -> expr) (l : list expr) :
  (forall c, call_free c = true -> V c = c) ->
  forallb call_free l = true -> map V l = l.
Proof.
  intros HV. induction l as [|a l IH]; simpl; [reflexivity|].
  intros [Ha Hl]%andb_prop. rewrite HV by exact Ha. f_equal. now apply IH.
Qed.

Lemma map_keyword_call_free (V : expr -> expr) (l : list keyword) :
  (forall c, call_free c = true -> V c = c) ->
  forallb (fun kw => call_free (kw_value kw)) l = true ->
  map (NodeTransformer.visit_keyword V) l = l.
Proof.
  intros HV. induction l as [|[a v] l IH]; simpl; [reflexivity|].
  intros [Ha Hl]%andb_prop. rewrite HV by exact Ha. f_equal. now apply IH.
Qed.

Lemma option_map_call_free (V : expr -> expr) (o : option expr) :
  (forall c, call_free c = true -> V c = c) ->
  from_option call_free true o = true -> option_map V o = o.
Proof. intros HV. destruct o; simpl; [|reflexivity]. intros H. now rewrite HV. Qed.

(** C9.  [WrapCalls.visit_Call] turns the call site [F(args...)] into
    [wrapper(F, args...)]: the callee becomes the first positional
    argument, the positional arguments follow in their order, and the
    keywords and spreads are those of the call site.  Nothing is wrapped
    around an argument: each one is the result of the traversal itself,
    which is the argument as it stood when it contains no call site. *)
Theorem WrapCalls_callee_becomes_first_argument
    (py35 : bool) (w f : expr) (args : list expr) (kws : list keyword)
    (sa ka : option expr) :
  call_site.dialect_ok py35 (Call f args kws sa ka) ->
  WrapCalls.visit py35 w (Call f args kws sa ka)
    = Call w (WrapCalls.visit py35 w f :: map (WrapCalls.visit py35 w) args)
        (map (NodeTransformer.visit_keyword (WrapCalls.visit py35 w)) kws)
        (option_map (WrapCalls.visit py35 w) sa)
        (option_map (WrapCalls.visit py35 w) ka)
  /\ (call_site.plain (Call f args kws sa ka) = true ->
      WrapCalls.visit py35 w (Call f args kws sa ka)
        = Call w (f :: args) kws sa ka).
Proof.
  intros Hd.
  assert (Hshape : WrapCalls.visit py35 w (Call f args kws sa ka)
    = Call w (WrapCalls.visit py35 w f :: map (WrapCalls.visit py35 w) args)
        (map (NodeTransformer.visit_keyword (WrapCalls.visit py35 w)) kws)
        (option_map (WrapCalls.visit py35 w) sa)
        (option_map (WrapCalls.visit py35 w) ka)).
  { simpl. unfold WrapCalls.visit_Call. simpl.
    destruct py35; [|reflexivity].
    destruct (Hd eq_refl) as [-> ->]. reflexivity. }
  split; [exact Hshape|].
  intros Hplain. rewrite Hshape. simpl in Hplain.
  apply andb_prop in Hplain as [Hplain Hka].
  apply andb_prop in Hplain as [Hplain Hsa].
  apply andb_prop in Hplain as [Hplain Hkws].
  apply andb_prop in Hplain as [Hf Hargs].
  pose proof (WrapCalls_visit_call_free py35 w) as HV.
  rewrite (HV f Hf), (map_call_free _ _ HV Hargs),
    (map_keyword_call_free _ _ HV Hkws), (option_map_call_free _ _ HV Hsa),
    (option_map_call_free _ _ HV Hka).
  reflexivity.
Qed.

(** [f(x, y, z=1)] becomes [wrapper(f, x, y, z=1)], the example of the
    class's docstring. *)
Lemma WrapCalls_callee_becomes_first_argument_witness :
  call_site.dialect_ok true
    (Call (Name "f" Load) [Name "x" Load; Name "y" Load]
          [Keyword (Some "z") (Num 1)] None None)
  /\ WrapCalls.visit true (Name "wrapper" Load)
       (Call (Name "f" Load) [Name "x" Load; Name "y" Load]
             [Keyword (Some "z") (Num 1)] None None)
     = Call (Name "wrapper" Load)
            [Name "f" Load; Name "x" Load; Name "y" Load]
            [Keyword (Some "z") (Num 1)] None None.
Proof.
  assert (Hd : call_site.dialect_ok true
    (Call (Name "f" Load) [Name "x" Load; Name "y" Load]
          [Keyword (Some "z") (Num 1)] None None)).
  { simpl. intros _. split; reflexivity. }
  split; [exact Hd|].
  apply (WrapCalls_callee_becomes_first_argument true (Name "wrapper" Load)
           (Name "f" Load) [Name "x" Load; Name "y" Load]
           [Keyword (Some "z") (Num 1)] None None Hd).
  reflexivity.
Defined.
End WrapCalls_facts.

(** ** The call rewriter *)

Section TraceFunctionCalls_facts.
Import ast_transform ast_trace call_site samples.

Lemma filter_split_length {A : Type} (p : A -> bool) (l : list A) :
  length (filter (fun a => p a = false) l)
  + length (filter (fun a => p a = true) l) = length l.
Proof.
  induction l as [|a l IH]; simpl; [reflexivity|].
  rewrite !filter_cons. destruct (p a) eqn:Hp; simpl.
  - destruct (decide (true = false)) as [?|_]; [discriminate|].
    destruct (decide (true = true)) as [_|n]; [|now destruct n]. simpl. lia.
  - destruct (decide (false = false)) as [_|n]; [|now destruct n].
    destruct (decide (false = true)) as [?|_]; [discriminate|]. simpl. lia.
Qed.

Lemma filter_map_visit_Starred (hs : bool) (t : expr) (b : bool)
    (l : list expr) :
  length (filter (fun a => is_Starred a = b)
                 (map (TraceFunctionCalls.visit hs t) l))
  = length (filter (fun a => is_Starred a = b) l).
Proof.
  induction l as [|a l IH]; simpl; [reflexivity|].
  rewrite !filter_cons, TraceFunctionCalls_visit_is_Starred.
  destruct (decide (is_Starred a = b)); simpl; now rewrite IH.
Qed.

(** What [visit_Call] returns for a call site, written out. *)
Lemma TraceFunctionCalls_visit_Call_eq (hs : bool) (t : expr)
    (f : expr) (args : list expr) (kws : list keyword) (sa ka : option expr) :
  TraceFunctionCalls.visit hs t (Call f args kws sa ka)
  = let V := TraceFunctionCalls.visit hs t in
    let sa' := if hs then None
               else option_map (fun s => TraceFunctionCalls.trace_argument
                                           hs t s None 1)
                               (option_map V sa) in
    let ka' := if hs then None
               else option_map (fun k => TraceFunctionCalls.trace_argument
                                           hs t k None 2)
                               (option_map V ka) in
    TraceFunctionCalls.trace_return t
      (Call (TraceFunctionCalls.trace_function t (V f)
               (length args + length kws
                + (if sa' is Some _ then 1 else 0)
                + (if ka' is Some _ then 1 else 0)))
            (map (fun a => TraceFunctionCalls.trace_argument hs t (V a) None 0)
                 args)
            (map (fun kw => Keyword (kw_arg kw)
                    (TraceFunctionCalls.trace_argument hs t (V (kw_value kw))
                       (kw_arg kw) (if kw_arg kw is None then 2 else 0)))
                 kws)
            sa' ka').
Proof.
  cbn [TraceFunctionCalls.visit]. unfold TraceFunctionCalls.visit_Call.
  cbn [NodeTransformer.generic_visit]. cbv zeta.
  rewrite !length_map, !map_map. unfold to_call.
  f_equal. f_equal. apply map_ext. now intros [a v].
Qed.

(** C2.  The arity that [visit_Call] hands to [trace_function] counts every
    argument slot of the call site: the p plain positional arguments, the k
    named keywords, and one for each spread, whether it is a marked entry of
    [args], a keyword without a name or one of the two spread slots.  With at
    most one spread of each kind this is p + k + s1 + s2 for the spread
    flags s1 and s2, and a call site without arguments reports 0 and wraps
    no argument. *)
Theorem TraceFunctionCalls_arity_counts_slots
    (hs : bool) (t f : expr) (args : list expr) (kws : list keyword)
    (sa ka : option expr) :
  dialect_ok hs (Call f args kws sa ka) ->
  reported_arity (TraceFunctionCalls.visit hs t (Call f args kws sa ka))
    = Some (Z.of_nat (positionals (Call f args kws sa ka)
                      + named_keywords (Call f args kws sa ka)
                      + positional_spreads (Call f args kws sa ka)
                      + keyword_spreads (Call f args kws sa ka)))
  /\ (positional_spreads (Call f args kws sa ka) <= 1 ->
      keyword_spreads (Call f args kws sa ka) <= 1 ->
      reported_arity (TraceFunctionCalls.visit hs t (Call f args kws sa ka))
        = Some (Z.of_nat (claimed_arity (Call f args kws sa ka))))
  /\ (args = [] -> kws = [] -> sa = None -> ka = None ->
      reported_arity (TraceFunctionCalls.visit hs t (Call f args kws sa ka))
        = Some 0%Z
      /\ wrapped_call (TraceFunctionCalls.visit hs t (Call f args kws sa ka))
        = Some ([], [], None, None)).
Proof.
  intros Hd.
  assert (Hn : reported_arity
                 (TraceFunctionCalls.visit hs t (Call f args kws sa ka))
    = Some (Z.of_nat (positionals (Call f args kws sa ka)
                      + named_keywords (Call f args kws sa ka)
                      + positional_spreads (Call f args kws sa ka)
                      + keyword_spreads (Call f args kws sa ka)))).
  { rewrite TraceFunctionCalls_visit_Call_eq. cbn. f_equal. f_equal.
    pose proof (filter_split_length is_Starred args) as Ha.
    pose proof (filter_split_length is_named kws) as Hk.
    destruct hs.
    - destruct (Hd eq_refl) as [-> ->]. simpl. lia.
    - destruct sa, ka; simpl; lia. }
  split; [exact Hn|]. split.
  - intros H1 H2. rewrite Hn. unfold claimed_arity, flag. do 2 f_equal.
    destruct (positional_spreads _) as [|[|]], (keyword_spreads _) as [|[|]];
      lia.
  - intros -> -> -> ->. rewrite TraceFunctionCalls_visit_Call_eq.
    destruct hs; split; reflexivity.
Qed.

(** [f(1, y=2)], scenario 1 of the specification, reports 2. *)
Lemma TraceFunctionCalls_arity_counts_slots_witness :
  dialect_ok true
    (Call (Name "f" Load) [Num 1] [Keyword (Some "y") (Num 2)] None None)
  /\ reported_arity
       (TraceFunctionCalls.visit true (Name "tracer" Load)
          (Call (Name "f" Load) [Num 1] [Keyword (Some "y") (Num 2)]
                None None))
     = Some 2%Z.
Proof.
  assert (Hd : dialect_ok true
    (Call (Name "f" Load) [Num 1] [Keyword (Some "y") (Num 2)] None None)).
  { simpl. intros _. split; reflexivity. }
  split; [exact Hd|].
  exact (proj1 (TraceFunctionCalls_arity_counts_slots true (Name "tracer" Load)
                  (Name "f" Load) [Num 1] [Keyword (Some "y") (Num 2)]
                  None None Hd)).
Defined.

(** C2 as stated fails: with two positional spreads the spread flag is 1
    and p + k + s1 + s2 = 1, while [visit_Call] reports both slots. *)
Lemma TraceFunctionCalls_arity_two_spreads :
  dialect_ok (ast_has_starred {| major := 3; minor := 5 |}) two_spreads
  /\ claimed_arity two_spreads = 1
  /\ reported_arity
       (TraceFunctionCalls.visit (ast_has_starred {| major := 3; minor := 5 |})
          (Name "tracer" Load) two_spreads) = Some 2%Z
  /\ reported_arity
       (TraceFunctionCalls.visit (ast_has_starred {| major := 3; minor := 5 |})
          (Name "tracer" Load) two_spreads)
     <> Some (Z.of_nat (claimed_arity two_spreads)).
Proof.
  split; [simpl; intros _; split; reflexivity|].
  split; [reflexivity|]. split; [reflexivity|].
  intros H. vm_compute in H. discriminate H.
Qed.

Lemma trace_argument_wrapped_slot (hs : bool) (t a : expr)
    (name : option string) (n : nat) :
  TraceFunctionCalls.trace_argument hs t a name n = wrapped_slot hs t a name n.
Proof.
  unfold TraceFunctionCalls.trace_argument, wrapped_slot, traced_argument.
  destruct name as [[|c s]|], hs, a, n; reflexivity.
Qed.

(** C6.  A call site becomes
    [trace_return(trace_function(callee, nargs)(wrapped arguments...))],
    node by node, with the rewritten callee and the number of argument
    slots of the call site; the wrapped call has as many positional
    arguments and the same keyword names in the same order, and its i-th
    positional argument, i-th keyword value and spread slots are the
    [trace_argument] wrappers of the (rewritten) arguments that stood
    there, a spread marker staying outside the wrapper. *)
Theorem TraceFunctionCalls_preserves_argument_slots
    (hs : bool) (t f : expr) (args : list expr) (kws : list keyword)
    (sa ka : option expr) :
  dialect_ok hs (Call f args kws sa ka) ->
  exists (args' : list expr) (kws' : list keyword) (sa' ka' : option expr),
    TraceFunctionCalls.visit hs t (Call f args kws sa ka)
      = traced_call t (TraceFunctionCalls.visit hs t f)
          (length args + length kws
           + (if sa is Some _ then 1 else 0)
           + (if ka is Some _ then 1 else 0))
          args' kws' sa' ka'
    /\ length args' = length args
    /\ map kw_arg kws' = map kw_arg kws
    /\ (forall (i : nat) (a : expr),
          args !! i = Some a ->
          args' !! i
          = Some (wrapped_slot hs t (TraceFunctionCalls.visit hs t a)
                    None 0))
    /\ (forall (i : nat) (kw : keyword),
          kws !! i = Some kw ->
          kws' !! i
          = Some (Keyword (kw_arg kw)
                    (wrapped_slot hs t
                       (TraceFunctionCalls.visit hs t (kw_value kw))
                       (kw_arg kw) (if kw_arg kw is None then 2 else 0))))
    /\ sa' = option_map
               (fun s => wrapped_slot hs t (TraceFunctionCalls.visit hs t s)
                           None 1) sa
    /\ ka' = option_map
               (fun k => wrapped_slot hs t (TraceFunctionCalls.visit hs t k)
                           None 2) ka.
Proof.
  intros Hd. rewrite TraceFunctionCalls_visit_Call_eq. cbv zeta.
  unfold TraceFunctionCalls.trace_return, TraceFunctionCalls.trace_function,
    TraceFunctionCalls.trace_method, to_call, to_attribute, traced_call.
  assert (Hrest : forall (args' : list expr) (kws' : list keyword),
    args' = map (fun a => TraceFunctionCalls.trace_argument hs t
                            (TraceFunctionCalls.visit hs t a) None 0) args ->
    kws' = map (fun kw => Keyword (kw_arg kw)
                  (TraceFunctionCalls.trace_argument hs t
                     (TraceFunctionCalls.visit hs t (kw_value kw))
                     (kw_arg kw) (if kw_arg kw is None then 2 else 0))) kws ->
    length args' = length args
    /\ map kw_arg kws' = map kw_arg kws
    /\ (forall (i : nat) (a : expr),
          args !! i = Some a ->
          args' !! i
          = Some (wrapped_slot hs t (TraceFunctionCalls.visit hs t a)
                    None 0))
    /\ (forall (i : nat) (kw : keyword),
          kws !! i = Some kw ->
          kws' !! i
          = Some (Keyword (kw_arg kw)
                    (wrapped_slot hs t
                       (TraceFunctionCalls.visit hs t (kw_value kw))
                       (kw_arg kw) (if kw_arg kw is None then 2 else 0))))).
  { intros args' kws' -> ->.
    split; [apply length_map|].
    split; [rewrite map_map; reflexivity|].
    split.
    - intros i a Hi. rewrite list_lookup_fmap, Hi.
      cbn [fmap option_fmap option_map].
      now rewrite trace_argument_wrapped_slot.
    - intros i kw Hi. rewrite list_lookup_fmap, Hi.
      cbn [fmap option_fmap option_map].
      now rewrite trace_argument_wrapped_slot. }
  destruct hs.
  - destruct (Hd eq_refl) as [-> ->]. cbn [option_map].
    eexists _, _, _, _. split; [reflexivity|].
    destruct (Hrest _ _ eq_refl eq_refl) as (H1 & H2 & H3 & H4).
    repeat split; assumption.
  - destruct sa, ka; cbn [option_map];
      (eexists _, _, _, _; split; [reflexivity|]);
      destruct (Hrest _ _ eq_refl eq_refl) as (H1 & H2 & H3 & H4);
      rewrite ?trace_argument_wrapped_slot;
      repeat split; assumption.
Qed.

(** [f(x, y, z=1)], the example of the class's docstring, becomes
    [tracer.trace_return(tracer.trace_function(f, 3)(
       tracer.trace_argument(x), tracer.trace_argument(y),
       z=tracer.trace_argument(1, 'z')))]. *)
Lemma TraceFunctionCalls_preserves_argument_slots_witness :
  dialect_ok true
    (Call (Name "f" Load) [Name "x" Load; Name "y" Load]
          [Keyword (Some "z") (Num 1)] None None)
  /\ TraceFunctionCalls.visit true (Name "tracer" Load)
       (Call (Name "f" Load) [Name "x" Load; Name "y" Load]
             [Keyword (Some "z") (Num 1)] None None)
     = Call (Attribute (Name "tracer" Load) "trace_return" Load)
         [Call (Call (Attribute (Name "tracer" Load) "trace_function" Load)
                     [Name "f" Load; Num 3] [] None None)
               [Call (Attribute (Name "tracer" Load) "trace_argument" Load)
                     [Name "x" Load] [] None None;
                Call (Attribute (Name "tracer" Load) "trace_argument" Load)
                     [Name "y" Load] [] None None]
               [Keyword (Some "z")
                  (Call (Attribute (Name "tracer" Load) "trace_argument"
                           Load)
                        [Num 1; Str "z"] [] None None)]
               None None]
         [] None None.
Proof.
  assert (Hd : dialect_ok true
    (Call (Name "f" Load) [Name "x" Load; Name "y" Load]
          [Keyword (Some "z") (Num 1)] None None)).
  { simpl. intros _. split; reflexivity. }
  split; [exact Hd|].
  destruct (TraceFunctionCalls_preserves_argument_slots true
              (Name "tracer" Load) (Name "f" Load)
              [Name "x" Load; Name "y" Load] [Keyword (Some "z") (Num 1)]
              None None Hd)
    as (args' & kws' & sa' & ka' & H1 & H2 & H3 & H4 & H5 & -> & ->).
  rewrite H1.
  destruct args' as [|a0 [|a1 [|a2 args']]]; try discriminate H2.
  destruct kws' as [|[n0 v0] [|k1 kws']]; try discriminate H3.
  pose proof (H4 0 _ eq_refl) as E0. pose proof (H4 1 _ eq_refl) as E1.
  pose proof (H5 0 _ eq_refl) as E2.
  injection E0 as ->. injection E1 as ->. injection E2 as -> ->.
  reflexivity.
Defined.

(** C7.  Where [Starred] marks the spreads, [trace_argument] takes the
    marked expression out, wraps it in a call of the tracer's
    [trace_argument] tagged [nstars=1] and puts the marker back around that
    call; [visit_Call] does so for each marked positional argument, and it
    tags the value of a keyword without a name with [nstars=2], leaving the
    keyword without a name.  The markers stay outside the wrappers. *)
Theorem TraceFunctionCalls_spread_markers
    (hs : bool) (t f : expr) (args : list expr) (kws : list keyword)
    (sa ka : option expr) :
  (forall (v : expr) (ctx : expr_context) (name : option string) (n : nat),
     TraceFunctionCalls.trace_argument true t (Starred v ctx) name n
     = Starred
         (Call (TraceFunctionCalls.trace_method t "trace_argument")
               (v :: (if truthy_name name is Some s then [Str s] else []))
               [Keyword (Some "nstars") (Num 1)] None None)
         Load)
  /\ exists (nargs : nat) (args' : list expr) (kws' : list keyword)
            (sa' ka' : option expr),
       TraceFunctionCalls.visit hs t (Call f args kws sa ka)
         = TraceFunctionCalls.trace_return t
             (Call (TraceFunctionCalls.trace_function t
                      (TraceFunctionCalls.visit hs t f) nargs)
                   args' kws' sa' ka')
       /\ (forall (i : nat) (v : expr) (ctx : expr_context),
             hs = true ->
             args !! i = Some (Starred v ctx) ->
             args' !! i
             = Some (Starred
                       (Call (TraceFunctionCalls.trace_method t
                                "trace_argument")
                             [TraceFunctionCalls.visit hs t v]
                             [Keyword (Some "nstars") (Num 1)] None None)
                       Load))
       /\ (forall (i : nat) (v : expr),
             kws !! i = Some (Keyword None v) ->
             is_Starred v = false ->
             kws' !! i
             = Some (Keyword None
                       (Call (TraceFunctionCalls.trace_method t
                                "trace_argument")
                             [TraceFunctionCalls.visit hs t v]
                             [Keyword (Some "nstars") (Num 2)] None None))).
Proof.
  split; [reflexivity|].
  rewrite TraceFunctionCalls_visit_Call_eq. cbv zeta.
  eexists _, _, _, _, _. split; [reflexivity|]. split.
  - intros i v ctx -> Hi. rewrite list_lookup_fmap, Hi. reflexivity.
  - intros i v Hi Hv. rewrite list_lookup_fmap, Hi. simpl. do 2 f_equal.
    unfold TraceFunctionCalls.trace_argument.
    rewrite TraceFunctionCalls_visit_is_Starred, Hv, andb_false_r.
    destruct (TraceFunctionCalls.visit hs t v); reflexivity.
Qed.

(** Scenario 3: one [trace_argument] tagged [nstars=1] for [xs], one tagged
    [nstars=2] for [kw], both under their markers, and an arity of 2. *)
Lemma TraceFunctionCalls_spread_markers_witness :
  exists (nargs : nat) (args' : list expr) (kws' : list keyword)
         (sa' ka' : option expr),
    TraceFunctionCalls.visit true (Name "tracer" Load) both_spreads
      = TraceFunctionCalls.trace_return (Name "tracer" Load)
          (Call (TraceFunctionCalls.trace_function (Name "tracer" Load)
                   (Name "g" Load) nargs)
                args' kws' sa' ka')
    /\ args' !! 0
       = Some (Starred
                 (Call (Attribute (Name "tracer" Load) "trace_argument" Load)
                       [Name "xs" Load]
                       [Keyword (Some "nstars") (Num 1)] None None)
                 Load)
    /\ kws' !! 0
       = Some (Keyword None
                 (Call (Attribute (Name "tracer" Load) "trace_argument" Load)
                       [Name "kw" Load]
                       [Keyword (Some "nstars") (Num 2)] None None)).
Proof.
  destruct (TraceFunctionCalls_spread_markers true (Name "tracer" Load)
              (Name "g" Load) [Starred (Name "xs" Load) Load]
              [Keyword None (Name "kw" Load)] None None)
    as (_ & nargs & args' & kws' & sa' & ka' & H1 & H2 & H3).
  exists nargs, args', kws', sa', ka'. split; [exact H1|]. split.
  - exact (H2 0 (Name "xs" Load) Load eq_refl eq_refl).
  - exact (H3 0 (Name "kw" Load) eq_refl eq_refl).
Defined.

Example TraceFunctionCalls_scenario_3 :
  reported_arity
    (TraceFunctionCalls.visit true (Name "tracer" Load) both_spreads)
  = Some 2%Z.
Proof. reflexivity. Qed.
End TraceFunctionCalls_facts.

(** ** The argument binding resolver *)

Section binding_facts.
Import inspect ast_transform ast_trace resolver samples.
Context {value : Type}.

Lemma setitem_fresh {V : Type} (k : string) (v : V) (d : OrderedDict V) :
  k ∉ d.*1 -> setitem k v d = d ++ [(k, v)].
Proof.
  induction d as [|[k' v'] d IH]; simpl; intros Hk; [reflexivity|].
  rewrite not_elem_of_cons in Hk. destruct Hk as [Hne Hk].
  destruct (decide (k' = k)) as [->|_]; [now destruct Hne|].
  now rewrite IH.
Qed.

Lemma positional_entries_keys (vs : list value) (k : string) :
  k ∈ (positional_entries vs).*1 ->
  exists i, i < length vs /\ k = pretty i.
Proof.
  unfold positional_entries. rewrite list_elem_of_fmap.
  intros ([k' b] & -> & Hin). apply list_elem_of_lookup in Hin as [i Hi].
  rewrite list_lookup_imap in Hi.
  destruct (vs !! i) as [v|] eqn:Hv; simpl in Hi; [|discriminate].
  injection Hi as <- _. exists i. split; [|reflexivity].
  now apply lookup_lt_Some in Hv.
Qed.

Lemma fold_positional (vs : list value) :
  fold_left (fun d iv => setitem (pretty (fst iv)) (One (snd iv)) d)
            (enumerate vs) []
  = positional_entries vs.
Proof.
  induction vs as [|v vs IH] using rev_ind; [reflexivity|].
  unfold enumerate, positional_entries in *.
  rewrite !imap_app, fold_left_app, IH. simpl.
  rewrite Nat.add_0_r. apply setitem_fresh.
  intros (i & Hi & Heq)%positional_entries_keys.
  apply (inj pretty) in Heq. lia.
Qed.

Lemma fold_keywords (kwargs : OrderedDict value)
    (d : OrderedDict (bound value)) :
  NoDup kwargs.*1 ->
  (forall k, k ∈ kwargs.*1 -> k ∉ d.*1) ->
  fold_left (fun d kv => setitem (fst kv) (One (snd kv)) d) kwargs d
  = d ++ keyword_entries kwargs.
Proof.
  revert d. induction kwargs as [|[k v] kwargs IH]; simpl; intros d Hnd Hd.
  - now rewrite app_nil_r.
  - apply NoDup_cons in Hnd as [Hk Hnd].
    rewrite setitem_fresh by (apply Hd; now left).
    rewrite IH; [now rewrite <- app_assoc|exact Hnd|].
    intros k' Hk'. rewrite fmap_app, elem_of_app. simpl.
    intros [Hin|Hin%list_elem_of_singleton].
    + revert Hin. apply Hd. now right.
    + now subst.
Qed.

(** The opaque fallback, as a list: positional keys, then keywords. *)
Lemma opaque_arguments_entries (vs : list value)
    (kwargs : OrderedDict value) :
  NoDup kwargs.*1 ->
  (forall i, i < length vs -> pretty i ∉ kwargs.*1) ->
  opaque_arguments vs kwargs
  = positional_entries vs ++ keyword_entries kwargs.
Proof.
  intros Hnd Hfresh. unfold opaque_arguments.
  rewrite fold_positional. apply fold_keywords; [exact Hnd|].
  intros k Hk (i & Hi & ->)%positional_entries_keys.
  now apply (Hfresh i).
Qed.

(** The parameter list [(fun, *args, **kwargs)] takes every call but one
    with a keyword named [fun]. *)
Lemma fun_args_kwargs_inr (kwargs : OrderedDict value) :
  "fun" ∉ kwargs.*1 <-> fun_args_kwargs kwargs = inr tt.
Proof.
  unfold fun_args_kwargs, contains.
  destruct (bool_decide_reflect ("fun" ∈ kwargs.*1)); split;
    try reflexivity; try discriminate; tauto.
Qed.

Lemma fun_args_kwargs_inl (kwargs : OrderedDict value) (e : error) :
  fun_args_kwargs kwargs = inl e ->
  "fun" ∈ kwargs.*1
  /\ e = TypeError "got multiple values for argument 'fun'".
Proof.
  unfold fun_args_kwargs, contains.
  destruct (bool_decide_reflect ("fun" ∈ kwargs.*1)); [|discriminate].
  now intros [= <-].
Qed.

(** What [bind_arguments] accepts, its parameter list accepts. *)
Lemma bind_arguments_accepts (f : callable value) (args : list value)
    (kwargs : OrderedDict value) (arguments : OrderedDict (bound value)) :
  ast_transform.bind_arguments f args kwargs = inr arguments ->
  fun_args_kwargs kwargs = inr tt.
Proof.
  unfold ast_transform.bind_arguments.
  destruct (fun_args_kwargs kwargs) as [e|[]]; [discriminate|reflexivity].
Qed.

Lemma bind_arguments_rejects (f : callable value) (args : list value)
    (kwargs : OrderedDict value) (e : error) :
  fun_args_kwargs kwargs = inl e ->
  ast_transform.bind_arguments f args kwargs = inl e.
Proof. intros H. unfold ast_transform.bind_arguments. now rewrite H. Qed.

Lemma bind_arguments_opaque (f : callable value) (args : list value)
    (kwargs : OrderedDict value) :
  opaque f -> "fun" ∉ kwargs.*1 ->
  ast_trace.bind_arguments f args kwargs
  = inr (opaque_arguments (receivers f ++ args) kwargs).
Proof.
  intros [msg Hsig] Hfun%fun_args_kwargs_inr.
  unfold ast_trace.bind_arguments, receivers, own_receiver. rewrite Hfun.
  destruct f as [self func|self sig]; simpl in Hsig |- *.
  - destruct (isclass self); simpl in Hsig |- *.
    + rewrite Hsig. destruct (ismodule self); reflexivity.
    + rewrite Hsig. destruct (getattr_self func) as [s|]; [|reflexivity].
      destruct (ismodule s); reflexivity.
  - rewrite Hsig. destruct self as [s|]; [|reflexivity].
    destruct (ismodule s); reflexivity.
Qed.

(** C4.  For a callable without signature and keyword arguments none of
    which is named [fun], [bind_arguments] never raises.
    Its mapping has the synthetic keys "0", "1", ... in call order and then
    the keyword names in supplied order (for keyword names that are no such
    synthetic key); the positional values are the receivers of the callable,
    when it has one that is not a module, and then the supplied ones.  So
    without such a receiver there are len(args) + len(kwargs) entries, and
    one more for each receiver. *)
Theorem bind_arguments_opaque_fallback (f : callable value)
    (args : list value) (kwargs : OrderedDict value) :
  opaque f ->
  "fun" ∉ kwargs.*1 ->
  exists arguments : OrderedDict (bound value),
    ast_trace.bind_arguments f args kwargs = inr arguments
    /\ (NoDup kwargs.*1 ->
        (forall i, i < length (receivers f ++ args) ->
                   pretty i ∉ kwargs.*1) ->
        arguments = positional_entries (receivers f ++ args)
                    ++ keyword_entries kwargs
        /\ length arguments
           = length (receivers f) + length args + length kwargs
        /\ (receivers f = [] ->
            arguments = positional_entries args ++ keyword_entries kwargs
            /\ length arguments = length args + length kwargs)).
Proof.
  intros Hop Hfun. eexists. split; [now apply bind_arguments_opaque|].
  intros Hnd Hfresh.
  assert (Hlen : forall vs : list value,
    length (positional_entries vs ++ keyword_entries kwargs)
    = length vs + length kwargs).
  { intros vs. unfold positional_entries, keyword_entries.
    now rewrite length_app, length_imap, length_map. }
  rewrite opaque_arguments_entries by assumption.
  split; [reflexivity|]. split.
  - rewrite Hlen, length_app. lia.
  - intros Hnil. rewrite Hnil. simpl. split; [reflexivity|apply Hlen].
Qed.
End binding_facts.

(** *** Binding against a signature *)

Section dict_facts.
Context {V : Type}.
Implicit Types (d : OrderedDict V) (k : string).

Lemma getitem_None k d : getitem k d = None <-> k ∉ d.*1.
Proof.
  induction d as [|[k' v'] d IH]; cbn [getitem fmap list_fmap fst].
  - split; [intros _; apply not_elem_of_nil|reflexivity].
  - rewrite not_elem_of_cons. destruct (decide (k' = k)) as [->|Hne].
    + split; [discriminate|]. now intros [[] _].
    + rewrite IH. split; [intros H; split; [congruence|exact H]|now intros [_ H]].
Qed.

Lemma contains_false k d : contains k d = false <-> k ∉ d.*1.
Proof. unfold contains. now rewrite bool_decide_eq_false. Qed.

Lemma filter_notin_id (P : string * V -> Prop) `{forall x, Decision (P x)} d :
  (forall kv, kv ∈ d -> P kv) -> filter P d = d.
Proof.
  induction d as [|kv d IH]; intros HP; [reflexivity|].
  rewrite filter_cons_True by (apply HP; now left).
  f_equal. apply IH. intros x Hx. apply HP. now right.
Qed.

Lemma pop_None k d : pop k d = None -> k ∉ d.*1.
Proof.
  induction d as [|[k' v'] d IH]; cbn [pop fmap list_fmap fst];
    [intros _; apply not_elem_of_nil|].
  destruct (decide (k' = k)) as [->|Hne]; [discriminate|].
  destruct (pop k d) as [[v d']|]; [discriminate|].
  intros _. rewrite not_elem_of_cons. split; [congruence|now apply IH].
Qed.

Lemma pop_Some k d d' (v : V) :
  NoDup d.*1 -> pop k d = Some (v, d') ->
  getitem k d = Some v /\ d' = filter (fun kv => fst kv <> k) d.
Proof.
  revert d'. induction d as [|[k' v'] d IH]; intros d' Hnd;
    cbn [pop getitem]; [discriminate|].
  cbn [fmap list_fmap fst] in Hnd. apply NoDup_cons in Hnd as [Hk Hnd].
  destruct (decide (k' = k)) as [->|Hne].
  - intros [= -> ->]. split; [reflexivity|].
    rewrite filter_cons_False by (simpl; intros Hkk; now apply Hkk).
    symmetry. apply filter_notin_id. intros [k1 v1] Hin. simpl.
    intros ->. apply Hk. apply list_elem_of_fmap. now exists (k, v1).
  - destruct (pop k d) as [[v1 d1]|] eqn:Hpop; [|discriminate].
    intros [= -> <-]. destruct (IH d1 Hnd eq_refl) as [Hg ->].
    split; [exact Hg|]. now rewrite filter_cons_True by exact Hne.
Qed.

Lemma NoDup_keys_filter (P : string * V -> Prop)
    `{forall x, Decision (P x)} d :
  NoDup d.*1 -> NoDup (filter P d).*1.
Proof.
  induction d as [|[k v] d IH]; [intros _; constructor|].
  cbn [fmap list_fmap fst]. intros [Hk Hnd]%NoDup_cons.
  rewrite filter_cons. destruct (decide (P (k, v))); [|now apply IH].
  cbn [fmap list_fmap fst]. apply NoDup_cons. split; [|now apply IH].
  intros ([k1 v1] & Heq & [_ Hin]%list_elem_of_filter)%list_elem_of_fmap.
  simpl in Heq. subst k1. apply Hk. apply list_elem_of_fmap.
  now exists (k, v1).
Qed.

Lemma getitem_filter_ne k k' d :
  k <> k' -> getitem k (filter (fun kv => fst kv <> k') d) = getitem k d.
Proof.
  intros Hne. induction d as [|[k1 v1] d IH]; [reflexivity|].
  destruct (decide (k1 = k')) as [->|Hne1].
  - rewrite filter_cons_False by (simpl; intros Hkk; now apply Hkk).
    cbn [getitem]. destruct (decide (k' = k)) as [->|_]; [now destruct Hne|].
    exact IH.
  - rewrite filter_cons_True by exact Hne1. cbn [getitem].
    now rewrite IH.
Qed.
End dict_facts.

Section lookup_facts.
Context {V : Type}.
Implicit Types (d : OrderedDict V) (k : string).

Lemma getitem_setitem k k' (v : V) d :
  getitem k (setitem k' v d)
  = if decide (k' = k) then Some v else getitem k d.
Proof.
  induction d as [|[k1 v1] d IH]; simpl.
  - now destruct (decide (k' = k)).
  - destruct (decide (k1 = k')) as [->|Hne]; simpl.
    + now destruct (decide (k' = k)).
    + destruct (decide (k1 = k)) as [->|Hne1].
      * destruct (decide (k' = k)); [congruence|reflexivity].
      * exact IH.
Qed.

Lemma setitem_cons_ne k k' (x v : V) d :
  k <> k' -> setitem k' v ((k, x) :: d) = (k, x) :: setitem k' v d.
Proof. intros H. simpl. now destruct (decide (k = k')). Qed.
End lookup_facts.

Section bind_facts.
Import inspect ast_transform ast_trace resolver.
Context {value : Type}.
Implicit Types (kw : OrderedDict value) (p q : Param value)
  (ps qs : Signature value) (acc : OrderedDict (bound value)).

Lemma supplied_to_nil kw i p :
  supplied_to [] kw [] i p = supplied_to [] kw [] 0 p.
Proof. unfold supplied_to. destruct (pkind p); simpl; now rewrite ?drop_nil. Qed.

Lemma omap_imap_nil kw qs :
  omap id (imap (supplied_to [] kw []) qs)
  = omap (supplied_to [] kw [] 0) qs.
Proof.
  induction qs as [|q qs IH] using rev_ind; [reflexivity|].
  rewrite imap_app, !omap_app, IH. simpl. now rewrite supplied_to_nil.
Qed.

Lemma omap_ext_in {A B : Type} (f g : A -> option B) (l : list A) :
  (forall x, x ∈ l -> f x = g x) -> omap f l = omap g l.
Proof.
  induction l as [|a l IH]; intros H; [reflexivity|].
  change (omap f (a :: l)) with (from_option (fun y => y :: omap f l) (omap f l) (f a)).
  change (omap g (a :: l)) with (from_option (fun y => y :: omap g l) (omap g l) (g a)).
  rewrite (H a) by now left. rewrite IH; [reflexivity|].
  intros x Hx. apply H. now right.
Qed.

Lemma keyword_names_cons p ps :
  keyword_names (p :: ps)
  = if keyworded p then pname p :: keyword_names ps else keyword_names ps.
Proof.
  unfold keyword_names. rewrite filter_cons.
  destruct (keyworded p); simpl; reflexivity.
Qed.

Lemma filter_fresh_name kw (k : string) (names : list string) :
  k ∉ kw.*1 ->
  filter (fun kv : string * value => fst kv ∉ k :: names) kw
  = filter (fun kv : string * value => fst kv ∉ names) kw.
Proof.
  intros Hk. induction kw as [|[k1 v1] kw IH]; [reflexivity|].
  cbn [fmap list_fmap fst] in Hk. apply not_elem_of_cons in Hk as [Hne Hk].
  rewrite !filter_cons. simpl. rewrite (IH Hk).
  destruct (decide (k1 ∉ k :: names)) as [H1|H1],
           (decide (k1 ∉ names)) as [H2|H2]; try reflexivity.
  - exfalso. apply H2. intros Hin. apply H1. now right.
  - exfalso. apply H1. rewrite not_elem_of_cons. split; [congruence|exact H2].
Qed.

Lemma filter_popped_name kw (k : string) (names : list string) :
  filter (fun kv : string * value => fst kv ∉ names)
         (filter (fun kv : string * value => fst kv <> k) kw)
  = filter (fun kv : string * value => fst kv ∉ k :: names) kw.
Proof.
  rewrite list_filter_filter. apply list_filter_iff. intros [k1 v1]. simpl.
  rewrite not_elem_of_cons. tauto.
Qed.

Lemma omap_cons {A B : Type} (f : A -> option B) (a : A) (l : list A) :
  omap f (a :: l) = from_option (fun y => y :: omap f l) (omap f l) (f a).
Proof. reflexivity. Qed.

(** The keyword phase. *)
Lemma bind_keywords_supplied qs : forall kw acc kp acc' kw' kp',
  NoDup (map pname qs) -> NoDup kw.*1 ->
  (forall q, q ∈ qs -> pname q ∉ acc.*1) ->
  bind_keywords qs kw acc kp = inr (acc', kw', kp') ->
  acc' = acc ++ omap (supplied_to [] kw [] 0) qs
  /\ kw' = filter (fun kv => fst kv ∉ keyword_names qs) kw
  /\ kp' = remembered qs kp.
Proof.
  induction qs as [|q qs IH]; intros kw acc kp acc' kw' kp' Hnames Hkw Hacc;
    cbn [bind_keywords].
  - intros [= <- <- <-]. rewrite app_nil_r. split; [reflexivity|].
    split; [|reflexivity]. symmetry. apply filter_notin_id.
    intros kv _. apply not_elem_of_nil.
  - cbn [map] in Hnames. apply NoDup_cons in Hnames as [Hq Hnames].
    assert (Hacc' : forall q', q' ∈ qs -> pname q' ∉ acc.*1)
      by (intros q' Hq'; apply Hacc; now right).
    assert (Hpopped : forall v kw1,
      pop (pname q) kw = Some (v, kw1) ->
      pkind q = POSITIONAL_OR_KEYWORD \/ pkind q = KEYWORD_ONLY ->
      bind_keywords qs kw1 (setitem (pname q) (One v) acc) kp
        = inr (acc', kw', kp') ->
      acc' = acc ++ (pname q, One v) :: omap (supplied_to [] kw [] 0) qs
      /\ kw' = filter (fun kv => fst kv ∉ pname q :: keyword_names qs) kw
      /\ kp' = remembered qs kp
      /\ getitem (pname q) kw = Some v).
    { intros v kw1 Hpop Hkind. destruct (pop_Some _ _ _ _ Hkw Hpop) as [Hget ->].
      rewrite setitem_fresh by (apply Hacc; now left).
      intros H. apply IH in H as (-> & -> & ->); [|exact Hnames| |].
      - split; [|split; [|split; [reflexivity|exact Hget]]].
        + rewrite <- app_assoc. simpl. do 2 f_equal.
          apply omap_ext_in. intros q' Hq'. unfold supplied_to.
          rewrite getitem_filter_ne; [reflexivity|].
          intros Heq. apply Hq. rewrite <- Heq.
          apply list_elem_of_fmap. now exists q'.
        + apply filter_popped_name.
      - now apply NoDup_keys_filter.
      - intros q' Hq'. rewrite fmap_app, elem_of_app. simpl.
        intros [Hin|Hin%list_elem_of_singleton].
        + now apply (Hacc' q').
        + apply Hq. rewrite <- Hin. apply list_elem_of_fmap. now exists q'. }
    assert (Hskipped :
      pname q ∉ kw.*1 \/ keyworded q = false ->
      supplied_to [] kw [] 0 q = None ->
      bind_keywords qs kw acc
        (if decide (pkind q = VAR_KEYWORD) then Some q else kp)
        = inr (acc', kw', kp') ->
      acc' = acc ++ omap (supplied_to [] kw [] 0) qs
      /\ kw' = filter (fun kv => fst kv ∉ keyword_names (q :: qs)) kw
      /\ kp' = remembered qs
                 (if decide (pkind q = VAR_KEYWORD) then Some q else kp)).
    { intros Hno Hnone H. apply IH in H as (-> & -> & ->);
        [|exact Hnames|exact Hkw|exact Hacc'].
      split; [reflexivity|]. split; [|reflexivity].
      rewrite keyword_names_cons. destruct Hno as [Hno| ->]; [|reflexivity].
      destruct (keyworded q); [|reflexivity].
      symmetry. now apply filter_fresh_name. }
    rewrite omap_cons. cbn [remembered].
    assert (Hsome : forall v,
      (pkind q = POSITIONAL_OR_KEYWORD \/ pkind q = KEYWORD_ONLY) ->
      getitem (pname q) kw = Some v ->
      supplied_to [] kw [] 0 q = Some (pname q, One v)
      /\ keyword_names (q :: qs) = pname q :: keyword_names qs).
    { intros v Hkind Hget. rewrite keyword_names_cons.
      unfold supplied_to, keyworded.
      destruct Hkind as [-> | ->]; simpl; now rewrite Hget. }
    assert (Hnone : pname q ∉ kw.*1 -> supplied_to [] kw [] 0 q = None).
    { intros Hno%getitem_None. unfold supplied_to.
      destruct (pkind q); simpl; now rewrite ?Hno. }
    destruct (pkind q) eqn:Hkind;
      repeat match goal with
             | |- context [decide (?a = ?b)] =>
                 destruct (decide (a = b)) as [?|?]; try discriminate;
                 try congruence
             end;
      try (destruct (pop (pname q) kw) as [[v kw1]|] eqn:Hpop;
           [|apply pop_None in Hpop; destruct (pdefault q);
             [|discriminate]]);
      try discriminate; intros H.
    all: first
      [ destruct (Hpopped _ _ eq_refl ltac:(auto) H) as (-> & -> & -> & Hget);
        destruct (Hsome _ ltac:(auto) Hget) as [-> ->];
        split; [reflexivity|split; reflexivity]
      | apply Hskipped in H;
        [ rewrite Hnone by assumption; exact H
        | left; assumption
        | apply Hnone; assumption ]
      | assert (Hvar : keyworded q = false)
          by (unfold keyworded; now rewrite Hkind);
        assert (Hno : supplied_to [] kw [] 0 q = None)
          by (unfold supplied_to; now rewrite Hkind);
        apply Hskipped in H;
        [ rewrite Hno; exact H | right; exact Hvar | exact Hno ] ].
Qed.

Lemma omap_imap_ext {A B : Type} (f : nat -> A -> option B)
    (g : A -> option B) (l : list A) :
  (forall i x, l !! i = Some x -> f i x = g x) ->
  omap id (imap f l) = omap g l.
Proof.
  revert f. induction l as [|a l IH]; intros f Hf; [reflexivity|].
  rewrite imap_cons, !omap_cons. simpl. rewrite (Hf 0 a eq_refl).
  rewrite (IH (f ∘ S)); [reflexivity|]. intros i x Hi. now apply (Hf (S i)).
Qed.

Lemma supplied_to_cons (a : value) args kw extra i p :
  supplied_to (a :: args) kw extra (S i) p = supplied_to args kw extra i p.
Proof. reflexivity. Qed.

Lemma keyword_tail_kinds ps q :
  keyword_tail ps = true -> q ∈ ps ->
  pkind q = KEYWORD_ONLY \/ pkind q = VAR_KEYWORD.
Proof.
  induction ps as [|p ps IH]; [intros _ Hq; now apply elem_of_nil in Hq|].
  cbn [keyword_tail]. intros Ht [Heq|Hq]%elem_of_cons.
  - subst p. destruct (pkind q); try discriminate; auto.
  - destruct (pkind p); try discriminate; [now apply IH|].
    destruct ps; [now apply elem_of_nil in Hq|discriminate].
Qed.

Lemma keyword_tail_ordered ps : keyword_tail ps = true -> ordered ps = true.
Proof.
  destruct ps as [|[n k d] ps]; [reflexivity|].
  destruct k; simpl; auto; discriminate.
Qed.

(** The positional phase followed by the keyword phase. *)
Lemma bind_positional_supplied kw ps :
  forall args acc acc1 rem acc2 kw2 kp2,
  ordered ps = true -> NoDup (map pname ps) -> NoDup kw.*1 ->
  (forall p, p ∈ ps -> pname p ∉ acc.*1) ->
  bind_positional ps args kw acc = inr (acc1, rem) ->
  bind_keywords rem kw acc1 None = inr (acc2, kw2, kp2) ->
  acc2 = acc ++ omap id (imap (supplied_to args kw []) ps)
  /\ kw2 = filter (fun kv => fst kv ∉ keyword_names ps) kw
  /\ kp2 = remembered ps None.
Proof.
  induction ps as [|p ps IH];
    intros args acc acc1 rem acc2 kw2 kp2 Hord Hnames Hkw Hacc.
  - destruct args; cbn [bind_positional]; [|discriminate].
    intros [= <- <-] H.
    now apply bind_keywords_supplied in H;
      [|constructor|exact Hkw|intros q Hq; now apply elem_of_nil in Hq].
  - assert (Hall : forall acc2 kw2 kp2,
      bind_keywords (p :: ps) kw acc None = inr (acc2, kw2, kp2) ->
      acc2 = acc ++ omap id (imap (supplied_to [] kw []) (p :: ps))
      /\ kw2 = filter (fun kv => fst kv ∉ keyword_names (p :: ps)) kw
      /\ kp2 = remembered (p :: ps) None).
    { intros a2 k2 p2 H.
      apply bind_keywords_supplied in H; [|assumption..].
      rewrite (omap_imap_ext _ (supplied_to [] kw [] 0)); [exact H|].
      intros i x _. apply supplied_to_nil. }
    cbn [map] in Hnames. pose proof Hnames as Hnames0.
    apply NoDup_cons in Hnames as [Hp Hnames].
    assert (Hacc' : forall q, q ∈ ps -> pname q ∉ acc.*1)
      by (intros q Hq; apply Hacc; now right).
    destruct args as [|a args]; cbn [bind_positional].
    + destruct (decide (pkind p = VAR_POSITIONAL)) as [Hv|Hv].
      * intros [= <- <-] H.
        apply bind_keywords_supplied in H as (-> & -> & ->);
          [|assumption..].
        rewrite (omap_imap_ext _ (supplied_to [] kw [] 0))
          by (intros i x _; apply supplied_to_nil).
        assert (Hst : supplied_to [] kw [] 0 p = None)
          by (unfold supplied_to; now rewrite Hv).
        assert (Hva : keyworded p = false)
          by (unfold keyworded; now rewrite Hv).
        rewrite omap_cons, keyword_names_cons, Hst, Hva. cbn [remembered].
        destruct (decide (pkind p = VAR_KEYWORD)); [congruence|].
        split; [reflexivity|]. split; reflexivity.
      * destruct (contains (pname p) kw).
        { destruct (decide (pkind p = POSITIONAL_ONLY)); [discriminate|].
          intros [= <- <-]. apply Hall. }
        destruct (decide (pkind p = VAR_KEYWORD)).
        { intros [= <- <-]. apply Hall. }
        destruct (pdefault p); [|discriminate].
        intros [= <- <-]. apply Hall.
    + destruct (decide (pkind p = VAR_KEYWORD)) as [Hk1|Hk1]; [discriminate|].
      destruct (decide (pkind p = KEYWORD_ONLY)) as [Hk2|Hk2]; [discriminate|].
      destruct (decide (pkind p = VAR_POSITIONAL)) as [Hv|Hv].
      * intros [= <- <-] H. cbn [ordered] in Hord. rewrite Hv in Hord.
        rewrite setitem_fresh in H by (apply Hacc; now left).
        apply bind_keywords_supplied in H as (-> & -> & ->);
          [|exact Hnames|exact Hkw|].
        2:{ intros q Hq. rewrite fmap_app, elem_of_app. simpl.
            intros [Hin|Hin%list_elem_of_singleton].
            - now apply (Hacc' q).
            - apply Hp. rewrite <- Hin. apply list_elem_of_fmap. now exists q. }
        assert (Hst : supplied_to (a :: args) kw [] 0 p
                      = Some (pname p, Tuple (a :: args)))
          by (unfold supplied_to; now rewrite Hv).
        assert (Hva : keyworded p = false)
          by (unfold keyworded; now rewrite Hv).
        rewrite imap_cons, omap_cons, keyword_names_cons, Hva.
        cbn [remembered id]. rewrite Hst.
        destruct (decide (pkind p = VAR_KEYWORD)); [congruence|].
        rewrite <- app_assoc. simpl.
        rewrite (omap_imap_ext _ (supplied_to [] kw [] 0)).
        { split; [reflexivity|]. split; reflexivity. }
        intros i x Hx. apply list_elem_of_lookup_2 in Hx.
        unfold compose, supplied_to.
        destruct (keyword_tail_kinds _ _ Hord Hx) as [-> | ->]; reflexivity.
      * destruct (contains (pname p) kw
                  && bool_decide (pkind p <> POSITIONAL_ONLY)) eqn:Hc;
          [discriminate|].
        apply andb_false_iff in Hc.
        rewrite setitem_fresh by (apply Hacc; now left).
        intros H1 H2.
        assert (Hkind : pkind p = POSITIONAL_ONLY
                        \/ pkind p = POSITIONAL_OR_KEYWORD)
          by (destruct (pkind p); auto; congruence).
        assert (Hord' : ordered ps = true).
        { cbn [ordered] in Hord.
          destruct Hkind as [Hkind|Hkind]; now rewrite Hkind in Hord. }
        assert (Hfresh : forall q, q ∈ ps ->
                  pname q ∉ (acc ++ [(pname p, One a)]).*1).
        { intros q Hq. rewrite fmap_app, elem_of_app. simpl.
          intros [Hin|Hin%list_elem_of_singleton].
          - now apply (Hacc' q).
          - apply Hp. rewrite <- Hin. apply list_elem_of_fmap. now exists q. }
        destruct (IH _ _ _ _ _ _ _ Hord' Hnames Hkw Hfresh H1 H2)
          as (-> & -> & ->).
        assert (Hst : supplied_to (a :: args) kw [] 0 p
                      = Some (pname p, One a))
          by (unfold supplied_to;
              destruct Hkind as [Hkind|Hkind]; now rewrite Hkind).
        rewrite imap_cons, omap_cons, keyword_names_cons.
        cbn [remembered id]. rewrite Hst.
        destruct (decide (pkind p = VAR_KEYWORD)); [congruence|].
        rewrite <- app_assoc.
        split; [reflexivity|]. split; [|reflexivity].
        destruct (keyworded p) eqn:Hkd; [|reflexivity].
        symmetry. apply filter_fresh_name.
        destruct Hc as [Hc%contains_false|Hc%bool_decide_eq_false];
          [exact Hc|].
        exfalso. unfold keyworded in Hkd.
        destruct (pkind p); try discriminate; apply Hc; discriminate.
Qed.

Lemma kwargs_last_cons p ps kp :
  pkind p <> VAR_KEYWORD -> kwargs_last ps kp -> kwargs_last (p :: ps) kp.
Proof.
  intros Hp [[Hall Hrem]|(init & q & -> & Hq & Hall & Hrem)];
    [left|right; exists (p :: init), q];
    cbn [remembered]; destruct (decide (pkind p = VAR_KEYWORD));
    try contradiction; repeat split; auto.
Qed.

Lemma keyword_tail_kwargs_last ps kp :
  keyword_tail ps = true -> kwargs_last ps kp.
Proof.
  induction ps as [|p ps IH]; [intros _; left; split; [constructor|reflexivity]|].
  cbn [keyword_tail]. destruct (pkind p) eqn:Hk; try discriminate.
  - intros H. apply kwargs_last_cons; [congruence|now apply IH].
  - destruct ps; [|discriminate]. intros _. right. exists [], p.
    cbn [remembered]. destruct (decide (pkind p = VAR_KEYWORD)); [|contradiction].
    repeat split; auto.
Qed.

Lemma ordered_kwargs_last ps kp : ordered ps = true -> kwargs_last ps kp.
Proof.
  induction ps as [|p ps IH]; [intros _; left; split; [constructor|reflexivity]|].
  intros Hord. pose proof Hord as Hord0. cbn [ordered] in Hord.
  destruct (pkind p) eqn:Hk.
  - apply kwargs_last_cons; [congruence|now apply IH].
  - apply kwargs_last_cons; [congruence|now apply IH].
  - apply kwargs_last_cons; [congruence|now apply keyword_tail_kwargs_last].
  - now apply keyword_tail_kwargs_last.
  - now apply keyword_tail_kwargs_last.
Qed.

Lemma supplied_to_extra args kw extra i q :
  pkind q <> VAR_KEYWORD ->
  supplied_to args kw extra i q = supplied_to args kw [] i q.
Proof. unfold supplied_to. destruct (pkind q); congruence. Qed.

Lemma supplied_to_key args kw extra i q e :
  supplied_to args kw extra i q = Some e -> fst e = pname q.
Proof.
  unfold supplied_to.
  destruct (pkind q), (args !! i), (getitem (pname q) kw), (drop i args),
    extra; simpl; intros [= <-]; reflexivity.
Qed.

Lemma supplied_keys_sublist (f : nat -> Param value ->
                                 option (string * bound value)) ps :
  (forall i q e, f i q = Some e -> fst e = pname q) ->
  sublist (omap id (imap f ps)).*1 (map pname ps).
Proof.
  revert f. induction ps as [|p ps IH]; intros f Hf; [constructor|].
  rewrite imap_cons, omap_cons. cbn [map id].
  destruct (f 0 p) as [e|] eqn:He; simpl.
  - rewrite (Hf _ _ _ He). apply sublist_skip, IH.
    intros i q. apply (Hf (S i)).
  - apply sublist_cons, IH. intros i q. apply (Hf (S i)).
Qed.

(** [Signature.bind] refines [supplied]. *)
Lemma bind_supplied (sig : Signature value) (args : list value) kw
    (r : OrderedDict (bound value)) :
  valid sig -> NoDup kw.*1 -> bind sig args kw = inr r ->
  r = supplied sig args kw.
Proof.
  intros [Hnames Hord] Hkw. unfold bind, supplied.
  destruct (bind_positional sig args kw []) as [e|[acc1 rem]] eqn:H1;
    [discriminate|].
  destruct (bind_keywords rem kw acc1 None) as [e|[[acc2 kw2] kp2]] eqn:H2;
    [discriminate|].
  destruct (bind_positional_supplied kw sig args [] acc1 rem acc2 kw2 kp2
              Hord Hnames Hkw) as (-> & Hkw2 & ->); [|exact H1|exact H2|].
  { intros p _. apply not_elem_of_nil. }
  fold (extra_keywords sig kw) in Hkw2. rewrite <- Hkw2. simpl.
  destruct kw2 as [|kv kw2]; [now intros [= <-]|].
  destruct (ordered_kwargs_last sig None Hord)
    as [[Hall Hrem]|(init & p & -> & Hp & Hall & Hrem)]; rewrite Hrem;
    [discriminate|].
  intros [= <-]. rewrite !imap_app, !omap_app. simpl.
  assert (Hinit : forall extra,
    omap id (imap (supplied_to args kw extra) init)
    = omap id (imap (supplied_to args kw []) init)).
  { intros extra. f_equal. apply imap_ext. intros i q Hq.
    apply supplied_to_extra. rewrite Forall_forall in Hall. apply Hall.
    now apply list_elem_of_lookup_2 in Hq. }
  rewrite (Hinit (kv :: kw2)).
  unfold supplied_to at 2 4. rewrite Hp. simpl. rewrite app_nil_r.
  apply setitem_fresh.
  intros Hin.
  pose proof (supplied_keys_sublist (supplied_to args kw []) init
                (supplied_to_key args kw [])) as Hsub.
  apply (fun H => elem_of_sublist _ _ _ H Hsub) in Hin.
  rewrite map_app in Hnames. apply NoDup_app in Hnames as (_ & Hdis & _).
  apply (Hdis _ Hin). simpl. now left.
Qed.

Lemma elem_of_omap_imap {A B : Type} (f : nat -> A -> option B)
    (l : list A) (e : B) :
  e ∈ omap id (imap f l) <-> exists i x, l !! i = Some x /\ f i x = Some e.
Proof.
  rewrite list_elem_of_omap. split.
  - intros (o & Ho & Hid). unfold id in Hid. subst o.
    apply list_elem_of_lookup in Ho as [i Hi].
    rewrite list_lookup_imap in Hi.
    destruct (l !! i) as [x|] eqn:Hx; [|discriminate].
    injection Hi as Hi. now exists i, x.
  - intros (i & x & Hx & Hf). exists (Some e). split; [|reflexivity].
    apply list_elem_of_lookup. exists i.
    now rewrite list_lookup_imap, Hx, <- Hf.
Qed.

(** With a signature and no keyword named [fun], [bind_arguments] is
    [Signature.bind] on the arguments with the receiver of a bound
    instance method in front. *)
Lemma bind_arguments_bind (f : callable value) (sig : Signature value)
    (args : list value) kw :
  signature (introspected f) = inr sig ->
  "fun" ∉ kw.*1 ->
  ast_trace.bind_arguments f args kw = bind sig (effective_args f args) kw.
Proof.
  intros Hsig Hfun%fun_args_kwargs_inr.
  unfold ast_trace.bind_arguments. rewrite Hfun.
  destruct f as [self func|self s]; simpl in Hsig |- *.
  - destruct (isclass self); simpl in Hsig |- *; now rewrite Hsig.
  - now rewrite Hsig.
Qed.

(** C3.  For a callable with a signature and arguments that the signature
    accepts, none of them a keyword named [fun], [bind_arguments] returns
    the mapping [supplied]: in the order of the declaration, one entry for
    each formal parameter that the call supplies an argument to,
    positionally or by keyword, with the rest of the positional arguments
    for [*args] and the extra keywords for [**kwargs].  A parameter that
    the call supplies nothing to has no entry, whether or not it has a
    default. *)
Theorem bind_arguments_binds_supplied
    (f : callable value) (sig : Signature value) (args : list value) kw
    (r : OrderedDict (bound value)) :
  signature (introspected f) = inr sig ->
  valid sig ->
  NoDup kw.*1 ->
  "fun" ∉ kw.*1 ->
  bind sig (effective_args f args) kw = inr r ->
  ast_trace.bind_arguments f args kw = inr r
  /\ r = supplied sig (effective_args f args) kw
  /\ sublist r.*1 (map pname sig)
  /\ (forall i p e,
        sig !! i = Some p ->
        supplied_to (effective_args f args) kw (extra_keywords sig kw) i p
          = Some e ->
        e ∈ r)
  /\ (forall i p,
        sig !! i = Some p ->
        supplied_to (effective_args f args) kw (extra_keywords sig kw) i p
          = None ->
        pname p ∉ r.*1).
Proof.
  intros Hsig Hvalid Hkw Hfun Hbind.
  split; [now rewrite (bind_arguments_bind f sig args kw Hsig Hfun)|].
  assert (Hr : r = supplied sig (effective_args f args) kw)
    by now apply bind_supplied.
  split; [exact Hr|]. subst r. unfold supplied. split; [|split].
  - apply supplied_keys_sublist. intros i q. apply supplied_to_key.
  - intros i p e Hp He. apply elem_of_omap_imap. now exists i, p.
  - intros i p Hp Hnone ([k b] & Hk & Hin)%list_elem_of_fmap. simpl in Hk.
    apply elem_of_omap_imap in Hin as (j & q & Hq & He).
    apply supplied_to_key in He as Hkey. simpl in Hkey.
    destruct Hvalid as [Hnames _].
    assert (i = j).
    { apply (NoDup_lookup (map pname sig) i j (pname p)); [exact Hnames| |].
      - now rewrite list_lookup_fmap, Hp.
      - rewrite list_lookup_fmap, Hq. simpl. congruence. }
    subst j. congruence.
Qed.
End bind_facts.

Section binding_samples.
Import inspect ast_transform ast_trace resolver samples.

Lemma a_builtin_opaque : opaque a_builtin.
Proof. exists "no signature found". reflexivity. Qed.

(** Scenario 4 of the specification, for a function without signature:
    one positional argument is bound to the key "0". *)
Lemma bind_arguments_opaque_fallback_witness :
  opaque a_builtin
  /\ "fun" ∉ ([("sep", 9)] : OrderedDict nat).*1
  /\ exists arguments : OrderedDict (bound nat),
       ast_trace.bind_arguments a_builtin [5] [("sep", 9)] = inr arguments
       /\ arguments = [("0", One 5); ("sep", One 9)]
       /\ length arguments = 2.
Proof.
  assert (Hfun : "fun" ∉ ([("sep", 9)] : OrderedDict nat).*1).
  { intros Hin. cbn in Hin. apply list_elem_of_singleton in Hin.
    discriminate Hin. }
  split; [exact a_builtin_opaque|]. split; [exact Hfun|].
  destruct (bind_arguments_opaque_fallback a_builtin [5] [("sep", 9)]
              a_builtin_opaque Hfun) as (arguments & Hbind & Hentries).
  exists arguments. split; [exact Hbind|].
  destruct Hentries as (_ & _ & Hplain).
  - apply NoDup_singleton.
  - intros [|i] Hi; [|simpl in Hi; lia].
    intros Hin%list_elem_of_singleton. vm_compute in Hin. discriminate Hin.
  - destruct (Hplain eq_refl) as [-> _]. split; reflexivity.
Defined.

(** C4 as stated fails: a builtin method bound to an instance has no
    signature, and its mapping starts with the instance under the key "0",
    so one positional argument gives two entries.  And [bind_arguments]
    does raise for a callable without signature: a keyword argument named
    [fun] is a second value for its own first parameter. *)
Lemma bind_arguments_builtin_method_receiver :
  opaque a_builtin_method
  /\ ast_trace.bind_arguments a_builtin_method [5] []
     = inr [("0", One 77); ("1", One 5)]
  /\ (forall arguments : OrderedDict (bound nat),
       ast_trace.bind_arguments a_builtin_method [5] [] = inr arguments ->
       length arguments
       <> length [5] + length ([] : OrderedDict nat))
  /\ opaque a_builtin
  /\ ast_trace.bind_arguments a_builtin [5] [("fun", 9)]
     = inl (TypeError "got multiple values for argument 'fun'").
Proof.
  split; [exists "no signature found"; reflexivity|].
  split; [reflexivity|]. split.
  - intros arguments H. vm_compute in H. injection H as <-. simpl. lia.
  - split; [exact a_builtin_opaque|reflexivity].
Qed.
End binding_samples.

Section receiver_injection.
Import inspect ast_transform ast_trace resolver samples.
Context {value : Type}.

(** C5.  For a bound method of the host language with receiver [r], an
    instance, over a function with the signature [(self, a)],
    [bind_arguments(m, a_val)] is the ordered mapping of [self] to [r] and
    of [a] to [a_val]: the receiver goes in front of the positional
    arguments and the signature is that of the underlying function.  (The
    two parameter names may be any two different names, with or without
    defaults.) *)
Theorem bind_arguments_receiver_injection
    (r : receiver value) (s : option (receiver value))
    (self_name a_name : string) (self_default a_default : option value)
    (a_val : value) :
  isclass r = false ->
  self_name <> a_name ->
  ast_trace.bind_arguments
    (Method r
       (Callable s
          (Some [ {| pname := self_name; pkind := POSITIONAL_OR_KEYWORD;
                     pdefault := self_default |};
                  {| pname := a_name; pkind := POSITIONAL_OR_KEYWORD;
                     pdefault := a_default |} ])))
    [a_val] []
  = inr [(self_name, One (obj r)); (a_name, One a_val)].
Proof.
  intros Hr Hne. unfold ast_trace.bind_arguments. rewrite Hr. simpl.
  unfold bind. simpl.
  destruct (decide (self_name = a_name)) as [Heq|_]; [contradiction|].
  reflexivity.
Qed.
End receiver_injection.

Section receiver_injection_sample.
Import inspect ast_transform ast_trace resolver samples.

(** Scenario 2 of the specification. *)
Lemma bind_arguments_receiver_injection_witness :
  isclass an_instance = false
  /\ "self" <> "a"
  /\ ast_trace.bind_arguments a_method [5] []
     = inr [("self", One 77); ("a", One 5)].
Proof.
  split; [reflexivity|]. split; [discriminate|].
  apply (bind_arguments_receiver_injection an_instance None "self" "a"
           None None 5); [reflexivity|discriminate].
Defined.
End receiver_injection_sample.

(** ** The tracing wrapper *)

Section wrapper_facts.
Import inspect ast_transform.
Context {value world : Type}.
Variable invoke :
  callable value -> list value -> OrderedDict value ->
  world -> outcome (value := value) value * world.

(** C10.  When the wrapped callable raises, the wrapper raises the same
    exception and leaves the world as the callable left it: [on_call], if
    there is one, has run before the call, and [on_return] is not called. *)
Theorem wrapper_propagates_failure
    (on_call : option (callable value -> OrderedDict (bound value) ->
                       world -> outcome (value := value) unit * world))
    (on_return : option (callable value -> OrderedDict (bound value) ->
                         value -> world ->
                         outcome (value := value) unit * world))
    (f : callable value) (args : list value) (kwargs : OrderedDict value)
    (arguments : OrderedDict (bound value))
    (w0 w1 w2 : world) (log : list event) (e : raised) :
  ast_transform.bind_arguments f args kwargs = inr arguments ->
  match on_call with
  | Some h => h f arguments w0 = (Returned tt, w1)
  | None => w1 = w0
  end ->
  invoke f args kwargs w1 = (Raised e, w2) ->
  make_tracing_call_wrapper invoke on_call on_return f args kwargs (w0, log)
  = (Raised e,
     (w2, log ++ (if on_call is Some _ then [on_call_event f arguments]
                  else [])
              ++ [call_event f args kwargs])).
Proof.
  intros Hbind Hcall Hinvoke. unfold make_tracing_call_wrapper.
  unfold mbind, M_bind, lift, perform, mret, M_ret.
  rewrite (bind_arguments_accepts _ _ _ _ Hbind), Hbind.
  destruct on_call as [h|]; simpl.
  - rewrite Hcall. simpl. rewrite Hinvoke. now rewrite <- app_assoc.
  - subst w1. rewrite Hinvoke. reflexivity.
Qed.
End wrapper_facts.

Section wrapper_sample.
Import inspect ast_transform samples.

(** A callee that raises 13: the wrapper raises 13, the journal has the
    lines of [on_call] and of the callee, and the calls made are those of
    [on_call] and of the callee. *)
Lemma wrapper_propagates_failure_witness :
  ast_transform.bind_arguments a_builtin [5] [] = inr [("0", One 5)]
  /\ journal_on_call a_builtin [("0", One 5)] [] = (Returned tt, ["on_call"])
  /\ raising_callee a_builtin [5] [] ["on_call"]
     = (Raised (Object 13), ["on_call"; "callee"])
  /\ make_tracing_call_wrapper raising_callee (Some journal_on_call)
       (Some journal_on_return) a_builtin [5] [] ([], [])
     = (Raised (Object 13),
        (["on_call"; "callee"],
         [on_call_event a_builtin [("0", One 5)];
          call_event a_builtin [5] []])).
Proof.
  split; [reflexivity|]. split; [reflexivity|]. split; [reflexivity|].
  apply (wrapper_propagates_failure raising_callee (Some journal_on_call)
           (Some journal_on_return) a_builtin [5] [] [("0", One 5)]
           [] ["on_call"] ["on_call"; "callee"] [] (Object 13));
    reflexivity.
Defined.
End wrapper_sample.

Section binding_supplied_samples.
Import inspect ast_transform ast_trace resolver samples.

Lemma with_default_sig_valid : valid with_default_sig.
Proof.
  split; [|reflexivity]. cbn. apply NoDup_cons. split; [|apply NoDup_singleton].
  intros Hin%list_elem_of_singleton. discriminate Hin.
Qed.

Lemma positional_only_sig_valid : valid positional_only_sig.
Proof.
  split; [|reflexivity]. cbn. apply NoDup_cons. split; [|apply NoDup_singleton].
  intros Hin%list_elem_of_singleton. discriminate Hin.
Qed.

(** [f(1, y=9)] for [def f(x, y=2)]: a keyword binds the parameter of
    its name. *)
Example bind_arguments_keyword_by_name :
  ast_trace.bind_arguments with_default [1] [("y", 9)]
  = inr [("x", One 1); ("y", One 9)]
  /\ supplied with_default_sig (effective_args with_default [1]) [("y", 9)]
     = [("x", One 1); ("y", One 9)].
Proof. split; reflexivity. Qed.

(** A keyword named [fun] is a second value for the first parameter of
    [bind_arguments] itself, whatever the signature of the callable. *)
Example bind_arguments_keyword_fun :
  ast_trace.bind_arguments positional_only [1] [("fun", 2)]
  = inl (TypeError "got multiple values for argument 'fun'")
  /\ ast_transform.bind_arguments positional_only [1] [("fun", 2)]
     = inl (TypeError "got multiple values for argument 'fun'").
Proof. split; reflexivity. Qed.

(** [f(1, a=2)] for [def f(a, /, **kw)]: the keyword [a] does not name
    the positional-only parameter and goes to [**kw]. *)
Lemma bind_arguments_binds_supplied_witness :
  signature (introspected positional_only) = inr positional_only_sig
  /\ valid positional_only_sig
  /\ NoDup ([("a", 2)] : OrderedDict nat).*1
  /\ "fun" ∉ ([("a", 2)] : OrderedDict nat).*1
  /\ bind positional_only_sig (effective_args positional_only [1])
          [("a", 2)]
     = inr [("a", One 1); ("kw", Dict [("a", 2)])]
  /\ ast_trace.bind_arguments positional_only [1] [("a", 2)]
     = inr [("a", One 1); ("kw", Dict [("a", 2)])]
  /\ [("a", One 1); ("kw", Dict [("a", 2)])]
     = supplied positional_only_sig (effective_args positional_only [1])
                [("a", 2)].
Proof.
  assert (Hnd : NoDup ([("a", 2)] : OrderedDict nat).*1)
    by apply NoDup_singleton.
  assert (Hfun : "fun" ∉ ([("a", 2)] : OrderedDict nat).*1).
  { intros Hin. cbn in Hin. apply list_elem_of_singleton in Hin.
    discriminate Hin. }
  split; [reflexivity|]. split; [exact positional_only_sig_valid|].
  split; [exact Hnd|]. split; [exact Hfun|]. split; [reflexivity|].
  destruct (bind_arguments_binds_supplied positional_only
              positional_only_sig [1] [("a", 2)]
              [("a", One 1); ("kw", Dict [("a", 2)])]
              eq_refl positional_only_sig_valid Hnd Hfun eq_refl)
    as (Hbind & Hsup & _).
  split; [exact Hbind|exact Hsup].
Defined.

(** C3 as stated fails: [f(1)] for [def f(x, y=2)] is accepted, and the
    mapping has the entry of [x] only, none for [y] with its default 2.
    And a combination that the signature accepts is not always bound:
    [def f(a, /, **kw)] accepts [f(1, fun=2)], which [bind_arguments]
    cannot even be called with. *)
Lemma bind_arguments_default_not_filled :
  signature (introspected with_default) = inr with_default_sig
  /\ valid with_default_sig
  /\ ast_trace.bind_arguments with_default [1] [] = inr [("x", One 1)]
  /\ (forall r : OrderedDict (bound nat),
       ast_trace.bind_arguments with_default [1] [] = inr r ->
       ("y" ∉ r.*1) /\ length r <> length with_default_sig)
  /\ signature (introspected positional_only) = inr positional_only_sig
  /\ bind positional_only_sig [1] [("fun", 2)]
     = inr [("a", One 1); ("kw", Dict [("fun", 2)])]
  /\ ast_trace.bind_arguments positional_only [1] [("fun", 2)]
     = inl (TypeError "got multiple values for argument 'fun'").
Proof.
  split; [reflexivity|]. split; [exact with_default_sig_valid|].
  split; [reflexivity|]. split.
  - intros r H. vm_compute in H. injection H as <-. split.
    + intros Hin%list_elem_of_singleton. discriminate Hin.
    + simpl. lia.
  - repeat split; reflexivity.
Qed.
End binding_supplied_samples.

(** ** The rewriters on the host's objects *)

Section store_facts.
Import store.
Implicit Types (h : heap) (l : loc) (fp : list loc) (o : object).

Lemma run_bind {A B : Type} (c : M A) (k : A -> M B) h (a : A) h1 :
  c h = Some (a, h1) -> (c ≫= k) h = k a h1.
Proof. intros H. unfold mbind, M_bind. now rewrite H. Qed.

Lemma load_Some l o h : h !! l = Some o -> load l h = Some (o, h).
Proof. intros H. unfold load. now rewrite H. Qed.

Lemma assign_Some l o h :
  l < length h -> assign l o h = Some (tt, <[l := o]> h).
Proof. intros H. unfold assign. now destruct (decide (l < length h)). Qed.

(** The addresses of a tree are allocated, and the first is its root. *)
Lemma shape_dom h :
  (forall l e fp, shape h l e fp -> forall x, x ∈ fp -> x < length h)
  /\ (forall ls es fp, shapes h ls es fp -> forall x, x ∈ fp -> x < length h)
  /\ (forall ls ks fp,
        shape_keywords h ls ks fp -> forall x, x ∈ fp -> x < length h)
  /\ (forall lo eo fp,
        shape_option h lo eo fp -> forall x, x ∈ fp -> x < length h).
Proof.
  apply shape_mutind; intros;
    repeat match goal with
           | H : _ ∈ [] |- _ => now apply elem_of_nil in H
           | H : _ ∈ _ :: _ |- _ => apply elem_of_cons in H as [->|H]
           | H : _ ∈ _ ++ _ |- _ => apply elem_of_app in H as [H|H]
           | H : h !! ?l = Some _ |- ?l < _ => now apply lookup_lt_Some in H
           end; auto.
Qed.

(** A tree stands as long as its nodes are not assigned to. *)
Lemma shape_frame h h' :
  (forall l e fp, shape h l e fp ->
     (forall x, x ∈ fp -> h' !! x = h !! x) -> shape h' l e fp)
  /\ (forall ls es fp, shapes h ls es fp ->
     (forall x, x ∈ fp -> h' !! x = h !! x) -> shapes h' ls es fp)
  /\ (forall ls ks fp, shape_keywords h ls ks fp ->
     (forall x, x ∈ fp -> h' !! x = h !! x) -> shape_keywords h' ls ks fp)
  /\ (forall lo eo fp, shape_option h lo eo fp ->
     (forall x, x ∈ fp -> h' !! x = h !! x) -> shape_option h' lo eo fp).
Proof.
  apply shape_mutind; intros; econstructor;
    first
      [ match goal with
        | H : forall x, x ∈ _ -> h' !! x = h !! x |- h' !! ?l = _ =>
            rewrite (H l) by (rewrite ?elem_of_cons, ?elem_of_app; auto);
            eassumption
        end
      | match goal with
        | H : forall x, x ∈ _ -> h' !! x = h !! x,
          IH : (forall x, x ∈ ?fp -> h' !! x = h !! x) -> _ |- _ =>
            apply IH; intros; apply H;
            rewrite ?elem_of_cons, ?elem_of_app; auto 10
        end ].
Qed.

Lemma shape_extend h new :
  (forall l e fp, shape h l e fp -> shape (h ++ new) l e fp)
  /\ (forall ls es fp, shapes h ls es fp -> shapes (h ++ new) ls es fp)
  /\ (forall ls ks fp,
        shape_keywords h ls ks fp -> shape_keywords (h ++ new) ls ks fp)
  /\ (forall lo eo fp,
        shape_option h lo eo fp -> shape_option (h ++ new) lo eo fp).
Proof.
  destruct (shape_frame h (h ++ new)) as (F1 & F2 & F3 & F4).
  destruct (shape_dom h) as (D1 & D2 & D3 & D4).
  repeat split; intros;
    [apply F1|apply F2|apply F3|apply F4]; try assumption;
    intros x Hx; apply lookup_app_l; eauto.
Qed.
End store_facts.

(** *** The traversal in the store refines the traversal of trees *)

Section refinement.
Import store.
Implicit Types (h : heap) (l : loc) (fp : list loc) (o : object).

(** The store in which the input tree is described. *)
Variable h0 : heap.
(** The node that the transformer holds: [self.tracer], [self.wrapper]. *)
Variable handle : loc.
Variable handle_id : string.

Local Abbreviation within := (store.within handle).
Local Abbreviation spec := (store.spec h0 handle handle_id).

Lemma spec_weaken {A : Type} (c : nat -> M A) fp
    (R R' : A -> heap -> list loc -> Prop) :
  (forall a h fp', R a h fp' -> R' a h fp') -> spec c fp R -> spec c fp R'.
Proof.
  intros HR [d0 H]. exists d0. intros h d H1 H2 H3 H4 H5.
  destruct (H h d H1 H2 H3 H4 H5) as (a & h' & fp' & Hc & Ha & Hf & Hw).
  exists a, h', fp'. auto.
Qed.

Lemma spec_ext {A : Type} (c c' : nat -> M A) fp
    (R : A -> heap -> list loc -> Prop) :
  (forall d h, c' d h = c d h) -> spec c fp R -> spec c' fp R.
Proof.
  intros Hc [d0 H]. exists d0. intros h d H1 H2 H3 H4 H5.
  rewrite Hc. now apply H.
Qed.

Lemma frame_ok_handle fp h h' :
  frame_ok fp h h' -> handle ∉ fp ->
  h !! handle = Some (OName handle_id Load) ->
  h' !! handle = Some (OName handle_id Load).
Proof.
  intros [_ Hf] Hn Hh. rewrite Hf; [exact Hh| |exact Hn].
  now apply lookup_lt_Some in Hh.
Qed.

(** Two steps on separate nodes, one after the other. *)
Lemma spec_pair {A B : Type} (c1 : nat -> M A) (c2 : nat -> M B) fp1 fp2
    (R1 : A -> heap -> list loc -> Prop)
    (R2 : B -> heap -> list loc -> Prop) :
  spec c1 fp1 R1 -> spec c2 fp2 R2 -> stable R1 ->
  (forall x, x ∈ fp2 -> is_Some (h0 !! x)) ->
  spec (fun d => a ← c1 d; b ← c2 d; mret (a, b)) (fp1 ++ fp2)
       (pairR R1 R2).
Proof.
  intros [d1 H1] [d2 H2] [Hst Hdom] Hdom2. exists (Nat.max d1 d2).
  intros h d Hag Hnd Hh Hhandle Hd.
  apply NoDup_app in Hnd as (Hnd1 & Hdis & Hnd2).
  rewrite not_elem_of_app in Hh. destruct Hh as [Hh1 Hh2].
  assert (Hlt2 : forall x, x ∈ fp2 -> x < length h).
  { intros x Hx. apply lookup_lt_is_Some.
    rewrite Hag by (apply elem_of_app; auto). auto. }
  destruct (H1 h d) as (a & h1 & f1 & Hc1 & Ha & [Hlen1 Hf1] & Hw1);
    [intros x Hx; apply Hag, elem_of_app; auto|assumption..|lia|].
  destruct (H2 h1 d) as (b & h2 & f2 & Hc2 & Hb & [Hlen2 Hf2] & Hw2);
    [|assumption..| |lia|].
  { intros x Hx. rewrite Hf1; [apply Hag, elem_of_app; auto|auto|].
    intros Hx1. exact (Hdis x Hx1 Hx). }
  { apply (frame_ok_handle fp1 h); [split|..]; assumption. }
  exists (a, b), h2, (f1 ++ f2). split; [|split; [|split; [split|]]].
  - rewrite (run_bind _ _ _ _ _ Hc1), (run_bind _ _ _ _ _ Hc2). reflexivity.
  - exists f1, f2. split; [reflexivity|]. split; [|exact Hb]. simpl.
    apply (Hst a h1); [exact Ha|]. intros x Hx. apply Hf2.
    + now apply (Hdom a h1 f1).
    + intros Hx2. destruct (Hw1 x Hx) as [Hx1|[Hge| ->]].
      * exact (Hdis x Hx1 Hx2).
      * apply Hlt2 in Hx2. lia.
      * contradiction.
  - lia.
  - intros x Hx Hn. rewrite not_elem_of_app in Hn. destruct Hn as [Hn1 Hn2].
    rewrite Hf2; [now apply Hf1|lia|exact Hn2].
  - intros x [Hx|Hx]%elem_of_app.
    + destruct (Hw1 x Hx) as [?|[?|?]]; rewrite ?elem_of_app; auto.
    + destruct (Hw2 x Hx) as [?|[?|?]]; rewrite ?elem_of_app; auto.
      right. left. lia.
Qed.

Lemma spec_map {A B : Type} (c : nat -> M A) (g : A -> B) fp
    (R : A -> heap -> list loc -> Prop)
    (R' : B -> heap -> list loc -> Prop) :
  (forall a h fp', R a h fp' -> R' (g a) h fp') ->
  spec c fp R -> spec (fun d => a ← c d; mret (g a)) fp R'.
Proof.
  intros HR [d0 H]. exists d0. intros h d H1 H2 H3 H4 H5.
  destruct (H h d H1 H2 H3 H4 H5) as (a & h' & fp' & Hc & Ha & Hf & Hw).
  exists (g a), h', fp'. rewrite (run_bind _ _ _ _ _ Hc). auto.
Qed.

Lemma spec_ret {A : Type} (a : A) (R : A -> heap -> list loc -> Prop) :
  (forall h, R a h []) -> spec (fun _ => mret a) [] R.
Proof.
  intros HR. exists 0. intros h d _ _ _ _ _. exists a, h, [].
  split; [reflexivity|]. split; [apply HR|]. split; [split; auto|].
  intros x Hx. now apply elem_of_nil in Hx.
Qed.

Lemma stable_pair {A B : Type} (R1 : A -> heap -> list loc -> Prop)
    (R2 : B -> heap -> list loc -> Prop) :
  stable R1 -> stable R2 -> stable (pairR R1 R2).
Proof.
  intros [S1 D1] [S2 D2]. split.
  - intros ab h h' fp' (f1 & f2 & -> & H1 & H2) Hag. exists f1, f2.
    split; [reflexivity|]. split.
    + apply (S1 _ h); [exact H1|]. intros x Hx. apply Hag, elem_of_app; auto.
    + apply (S2 _ h); [exact H2|]. intros x Hx. apply Hag, elem_of_app; auto.
  - intros ab h fp' x (f1 & f2 & -> & H1 & H2) [Hx|Hx]%elem_of_app.
    + now apply (D1 (fst ab) h f1).
    + now apply (D2 (snd ab) h f2).
Qed.

Lemma stable_shape e : stable (fun l h fp => shape h l e fp).
Proof.
  split.
  - intros l h h' fp H Hag. now apply (proj1 (shape_frame h h')).
  - intros l h fp x H. now apply (proj1 (shape_dom h) l e).
Qed.

Lemma stable_shapes es : stable (fun ls h fp => shapes h ls es fp).
Proof.
  split.
  - intros l h h' fp H Hag. now apply (proj1 (proj2 (shape_frame h h'))).
  - intros l h fp x H. now apply (proj1 (proj2 (shape_dom h)) l es).
Qed.

Lemma stable_shape_keywords ks :
  stable (fun ls h fp => shape_keywords h ls ks fp).
Proof.
  split.
  - intros l h h' fp H Hag.
    now apply (proj1 (proj2 (proj2 (shape_frame h h')))).
  - intros l h fp x H. now apply (proj1 (proj2 (proj2 (shape_dom h))) l ks).
Qed.

Lemma stable_shape_option eo :
  stable (fun lo h fp => shape_option h lo eo fp).
Proof.
  split.
  - intros l h h' fp H Hag.
    now apply (proj2 (proj2 (proj2 (shape_frame h h')))).
  - intros l h fp x H. now apply (proj2 (proj2 (proj2 (shape_dom h))) l eo).
Qed.

(** The transformer: what it does at a call site after [generic_visit],
    in the store and on trees. *)
Variable hookH : loc -> M loc.
Variable hookP : expr -> expr.
Variable visitP : expr -> expr.

Local Abbreviation method := (store.method hookH).

(** A node with children: [generic_visit] visits them by [body] and
    assigns the results, rebuilt by [mk]. *)
Lemma spec_generic_visit {A : Type} (body : (loc -> M loc) -> M A)
    (mk : A -> object) l o0 fp (R : A -> heap -> list loc -> Prop) :
  h0 !! l = Some o0 ->
  (forall vis h, h !! l = Some o0 ->
     NodeTransformer.generic_visit vis l h
     = (a ← body vis; assign l (mk a);; mret l) h) ->
  stable R ->
  spec (fun d => body (NodeTransformer.visit method d)) fp R ->
  spec (fun d => NodeTransformer.generic_visit
                   (NodeTransformer.visit method d) l)
       (l :: fp)
       (fun l' h' fp' => l' = l /\ exists a f,
          fp' = l :: f /\ h' !! l = Some (mk a) /\ R a h' f).
Proof.
  intros Hl Hgv [Hst Hdom] [d0 H]. exists d0.
  intros h d Hag Hnd Hh Hhandle Hd.
  apply NoDup_cons in Hnd as [Hlfp Hnd].
  rewrite not_elem_of_cons in Hh. destruct Hh as [Hne Hh].
  assert (Hhl : h !! l = Some o0) by (rewrite Hag; [exact Hl|now left]).
  assert (Hlt : l < length h) by now apply lookup_lt_Some in Hhl.
  destruct (H h d) as (a & h1 & f & Hc & Ha & [Hlen Hf] & Hw);
    [intros x Hx; apply Hag; now right|assumption..|].
  exists l, (<[l := mk a]> h1), (l :: f).
  split; [|split; [|split; [split|]]].
  - rewrite (Hgv _ _ Hhl), (run_bind _ _ _ _ _ Hc).
    rewrite (run_bind _ _ _ tt (<[l := mk a]> h1)); [reflexivity|].
    apply assign_Some. lia.
  - split; [reflexivity|]. exists a, f. split; [reflexivity|].
    split; [apply list_lookup_insert_eq; lia|].
    apply (Hst a h1); [exact Ha|]. intros x Hx.
    apply list_lookup_insert_ne. intros <-.
    destruct (Hw l Hx) as [?|[?|?]]; [contradiction|lia|congruence].
  - rewrite length_insert. exact Hlen.
  - intros x Hx Hn. rewrite not_elem_of_cons in Hn. destruct Hn as [Hxl Hn].
    rewrite list_lookup_insert_ne by congruence. now apply Hf.
  - intros x [->|Hx]%elem_of_cons; [left; now left|].
    destruct (Hw x Hx) as [?|[?|?]]; auto. left. now right.
Qed.

(** A node without children. *)
Lemma spec_generic_visit_leaf l o0 :
  h0 !! l = Some o0 ->
  (forall vis h, h !! l = Some o0 ->
     NodeTransformer.generic_visit vis l h = Some (l, h)) ->
  spec (fun d => NodeTransformer.generic_visit
                   (NodeTransformer.visit method d) l)
       [l] (fun l' h' fp' => l' = l /\ fp' = [l] /\ h' !! l = Some o0).
Proof.
  intros Hl Hgv. exists 0. intros h d Hag _ _ _ _.
  assert (Hhl : h !! l = Some o0) by (rewrite Hag; [exact Hl|now left]).
  exists l, h, [l]. rewrite (Hgv _ _ Hhl).
  split; [reflexivity|]. split; [auto|]. split; [split; auto|].
  intros x Hx. now left.
Qed.

(** [visit] on a node that is no call site is [generic_visit]. *)
Lemma spec_visit_other l o0 fp (R : loc -> heap -> list loc -> Prop) :
  h0 !! l = Some o0 -> is_call o0 = false -> l ∈ fp ->
  spec (fun d => NodeTransformer.generic_visit
                   (NodeTransformer.visit method d) l) fp R ->
  spec (fun d => NodeTransformer.visit method d l) fp R.
Proof.
  intros Hl Hcall Hin [d0 H]. exists (S d0).
  intros h [|d] Hag Hnd Hh Hhandle Hd; [lia|].
  assert (Hhl : h !! l = Some o0) by (rewrite Hag; [exact Hl|exact Hin]).
  destruct (H h d Hag Hnd Hh Hhandle) as (a & h' & fp' & Hc & HR);
    [lia|].
  exists a, h', fp'. split; [|exact HR].
  cbn [NodeTransformer.visit]. rewrite (run_bind _ _ _ _ _ (load_Some _ _ _ Hhl)).
  destruct o0; try discriminate; exact Hc.
Qed.

(** What the transformer does at a call site, in the store, is what it
    does on trees, and it only makes new nodes. *)
Hypothesis hook_ok : forall h l e fp,
  h !! handle = Some (OName handle_id Load) ->
  shape h l e fp ->
  (if e is Call _ _ _ _ _ then True else False) ->
  exists l' new fp',
    hookH l h = Some (l', h ++ new)
    /\ shape (h ++ new) l' (hookP e) fp'
    /\ (forall x, x ∈ fp' -> x ∈ fp \/ length h <= x \/ x = handle).

(** [visit] on a call site is [generic_visit] and then the transformer's
    own step. *)
Lemma spec_visit_call l o0 e fp :
  h0 !! l = Some o0 -> is_call o0 = true -> l ∈ fp ->
  (if e is Call _ _ _ _ _ then True else False) ->
  spec (fun d => NodeTransformer.generic_visit
                   (NodeTransformer.visit method d) l) fp
       (fun l' h' fp' => l' = l /\ shape h' l e fp') ->
  spec (fun d => NodeTransformer.visit method d l) fp
       (fun l' h' fp' => shape h' l' (hookP e) fp'
                         /\ exists fpi, shape h' l e fpi).
Proof.
  intros Hl Hcall Hin He [d0 H]. exists (S d0).
  intros h [|d] Hag Hnd Hh Hhandle Hd; [lia|].
  assert (Hhl : h !! l = Some o0) by (rewrite Hag; [exact Hl|exact Hin]).
  destruct (H h d Hag Hnd Hh Hhandle)
    as (a & h1 & fp1 & Hc & [-> Hshape] & [Hlen Hf] & Hw); [lia|].
  destruct (hook_ok h1 l e fp1) as (l' & new & fp' & Hhook & Hs' & Hw');
    [|exact Hshape|exact He|].
  { apply (frame_ok_handle fp h); [split|..]; assumption. }
  exists l', (h1 ++ new), fp'. split; [|split; [|split; [split|]]].
  - cbn [NodeTransformer.visit].
    rewrite (run_bind _ _ _ _ _ (load_Some _ _ _ Hhl)).
    destruct o0; try discriminate. unfold method.
    rewrite (run_bind _ _ _ _ _ Hc). exact Hhook.
  - split; [exact Hs'|]. exists fp1.
    now apply (proj1 (shape_extend h1 new)).
  - rewrite length_app. lia.
  - intros x Hx Hn. rewrite lookup_app_l by lia. now apply Hf.
  - intros x Hx. destruct (Hw' x Hx) as [Hx1|[Hge| ->]]; [|right; left; lia|auto].
    destruct (Hw x Hx1) as [?|[?|?]]; auto.
Qed.

(** The traversal of trees, as [ast.NodeTransformer.visit] dispatches. *)
Hypothesis visitP_eq : forall e,
  visitP e = match e with
             | Call _ _ _ _ _ =>
                 hookP (ast.NodeTransformer.generic_visit visitP e)
             | _ => ast.NodeTransformer.generic_visit visitP e
             end.

Local Abbreviation visitH := (NodeTransformer.visit method).

Lemma dom0 :
  (forall l e fp, shape h0 l e fp -> forall x, x ∈ fp -> is_Some (h0 !! x))
  /\ (forall ls es fp, shapes h0 ls es fp ->
        forall x, x ∈ fp -> is_Some (h0 !! x))
  /\ (forall ls ks fp, shape_keywords h0 ls ks fp ->
        forall x, x ∈ fp -> is_Some (h0 !! x))
  /\ (forall lo eo fp, shape_option h0 lo eo fp ->
        forall x, x ∈ fp -> is_Some (h0 !! x)).
Proof.
  destruct (shape_dom h0) as (D1 & D2 & D3 & D4).
  repeat split; intros; apply lookup_lt_is_Some; eauto.
Qed.

(** A node with one child. *)
Lemma spec_unary l o0 v e fp (mk : loc -> object) (mkP : expr -> expr) :
  h0 !! l = Some o0 -> is_call o0 = false ->
  (forall vis h, h !! l = Some o0 ->
     NodeTransformer.generic_visit vis l h
     = (a ← vis v; assign l (mk a);; mret l) h) ->
  (forall h' v' e' f, h' !! l = Some (mk v') -> shape h' v' e' f ->
     shape h' l (mkP e') (l :: f)) ->
  spec (fun d => visitH d v) fp
       (fun l' h' fp' => shape h' l' (visitP e) fp'
                         /\ exists fpi, shape h' v (ast.NodeTransformer.generic_visit visitP e) fpi) ->
  spec (fun d => visitH d l) (l :: fp)
       (fun l' h' fp' => shape h' l' (mkP (visitP e)) fp'
                         /\ exists fpi, shape h' l (mkP (visitP e)) fpi).
Proof.
  intros Hl Hcall Hgv Hmk IH.
  apply (spec_visit_other l o0); [exact Hl|exact Hcall|now left|].
  eapply spec_weaken;
    [|apply (spec_generic_visit (fun vis => vis v) mk l o0 fp
               (fun v' h' f => shape h' v' (visitP e) f) Hl Hgv
               (stable_shape _))].
  - intros l' h' fp' (-> & a & f & -> & Hh & Hs).
    split; [|exists (l :: f)]; now apply (Hmk h' a).
  - eapply spec_weaken; [|exact IH]. now intros a h fp' [H _].
Qed.

Lemma generic_visit_call vis l f args kws sa ka h :
  h !! l = Some (OCall f args kws sa ka) ->
  NodeTransformer.generic_visit vis l h
  = (x ← visit_children vis f args kws sa ka;
     assign l (rebuild_call x);; mret l) h.
Proof.
  intros Hl. unfold NodeTransformer.generic_visit, visit_children.
  rewrite (run_bind _ _ _ _ _ (load_Some _ _ _ Hl)).
  unfold mbind, M_bind, mret, M_ret.
  destruct (vis f h) as [[f' h1]|]; [|reflexivity].
  destruct (mapM vis args h1) as [[args' h2]|]; [|reflexivity].
  destruct (mapM vis kws h2) as [[kws' h3]|]; [|reflexivity].
  destruct (optM vis sa h3) as [[sa' h4]|]; [|reflexivity].
  destruct (optM vis ka h4) as [[ka' h5]|]; reflexivity.
Qed.

(** The traversal in the store does to the nodes of a tree what the
    traversal of trees does to the tree. *)
Lemma visit_spec :
  (forall l e fp, shape h0 l e fp ->
     spec (fun d => visitH d l) fp
       (fun l' h' fp' =>
          shape h' l' (visitP e) fp'
          /\ exists fpi,
               shape h' l (ast.NodeTransformer.generic_visit visitP e) fpi))
  /\ (forall ls es fp, shapes h0 ls es fp ->
     spec (fun d => mapM (visitH d) ls) fp
       (fun ls' h' fp' => shapes h' ls' (map visitP es) fp'))
  /\ (forall ls ks fp, shape_keywords h0 ls ks fp ->
     spec (fun d => mapM (visitH d) ls) fp
       (fun ls' h' fp' =>
          shape_keywords h' ls'
            (map (ast.NodeTransformer.visit_keyword visitP) ks) fp'))
  /\ (forall lo eo fp, shape_option h0 lo eo fp ->
     spec (fun d => optM (visitH d) lo) fp
       (fun lo' h' fp' => shape_option h' lo' (option_map visitP eo) fp')).
Proof.
  apply shape_mutind.
  - (* Name *)
    intros l id ctx Hl.
    apply (spec_visit_other l _ _ _ Hl eq_refl); [now left|].
    eapply spec_weaken; [|apply (spec_generic_visit_leaf l _ Hl)].
    + intros l' h' fp' (-> & -> & Hh). rewrite visitP_eq. simpl.
      split; [|exists [l]]; now constructor.
    + intros vis h Hh. unfold NodeTransformer.generic_visit.
      now rewrite (run_bind _ _ _ _ _ (load_Some _ _ _ Hh)).
  - (* Num *)
    intros l n Hl.
    apply (spec_visit_other l _ _ _ Hl eq_refl); [now left|].
    eapply spec_weaken; [|apply (spec_generic_visit_leaf l _ Hl)].
    + intros l' h' fp' (-> & -> & Hh). rewrite visitP_eq. simpl.
      split; [|exists [l]]; now constructor.
    + intros vis h Hh. unfold NodeTransformer.generic_visit.
      now rewrite (run_bind _ _ _ _ _ (load_Some _ _ _ Hh)).
  - (* Str *)
    intros l n Hl.
    apply (spec_visit_other l _ _ _ Hl eq_refl); [now left|].
    eapply spec_weaken; [|apply (spec_generic_visit_leaf l _ Hl)].
    + intros l' h' fp' (-> & -> & Hh). rewrite visitP_eq. simpl.
      split; [|exists [l]]; now constructor.
    + intros vis h Hh. unfold NodeTransformer.generic_visit.
      now rewrite (run_bind _ _ _ _ _ (load_Some _ _ _ Hh)).
  - (* Attribute *)
    intros l v a ctx e fp Hl _ IH.
    eapply spec_weaken;
      [|apply (spec_unary l _ v e fp (fun v' => OAttribute v' a ctx)
                 (fun e' => Attribute e' a ctx) Hl eq_refl)].
    + intros l' h' fp'. rewrite (visitP_eq (Attribute e a ctx)). simpl. auto.
    + intros vis h Hh. unfold NodeTransformer.generic_visit.
      now rewrite (run_bind _ _ _ _ _ (load_Some _ _ _ Hh)).
    + intros h' v' e' f Hh Hs. now apply (shape_Attribute h' l v' a ctx).
    + exact IH.
  - (* Starred *)
    intros l v ctx e fp Hl _ IH.
    eapply spec_weaken;
      [|apply (spec_unary l _ v e fp (fun v' => OStarred v' ctx)
                 (fun e' => Starred e' ctx) Hl eq_refl)].
    + intros l' h' fp'. rewrite (visitP_eq (Starred e ctx)). simpl. auto.
    + intros vis h Hh. unfold NodeTransformer.generic_visit.
      now rewrite (run_bind _ _ _ _ _ (load_Some _ _ _ Hh)).
    + intros h' v' e' f Hh Hs. now apply (shape_Starred h' l v' ctx).
    + exact IH.
  - (* Call *)
    intros l f args kws sa ka ef eargs ekws esa eka fpf fpa fpk fps fpd
      Hl Hf IHf Ha IHa Hk IHk Hs IHs Hd IHd.
    destruct dom0 as (D1 & D2 & D3 & D4).
    rewrite (visitP_eq (Call ef eargs ekws esa eka)).
    apply (spec_visit_call l _ _ _ Hl eq_refl); [now left|exact I|].
    eapply spec_weaken;
      [|apply (spec_generic_visit
                 (fun vis => visit_children vis f args kws sa ka)
                 rebuild_call l _
                 (fpf ++ fpa ++ fpk ++ fps ++ fpd)
                 (pairR (fun l' h' fp' => shape h' l' (visitP ef) fp')
                    (pairR (fun ls' h' fp' =>
                              shapes h' ls' (map visitP eargs) fp')
                       (pairR (fun ls' h' fp' =>
                                 shape_keywords h' ls'
                                   (map (ast.NodeTransformer.visit_keyword
                                           visitP) ekws) fp')
                          (pairR (fun lo' h' fp' =>
                                    shape_option h' lo'
                                      (option_map visitP esa) fp')
                                 (fun lo' h' fp' =>
                                    shape_option h' lo'
                                      (option_map visitP eka) fp')))))
                 Hl)].
    + intros l' h' fp' (-> & [f' [args' [kws' [sa' ka']]]] & fo & -> & Hh & HR).
      split; [reflexivity|]. unfold pairR in HR. simpl in HR.
      destruct HR as (f1 & f2 & -> & H1 & f3 & f4 & -> & H2
                      & f5 & f6 & -> & H3 & f7 & f8 & -> & H4 & H5).
      simpl. now apply (shape_Call h' l f' args' kws' sa' ka').
    + intros vis h Hh. now apply generic_visit_call.
    + apply stable_pair; [apply stable_shape|].
      apply stable_pair; [apply stable_shapes|].
      apply stable_pair; [apply stable_shape_keywords|].
      apply stable_pair; apply stable_shape_option.
    + unfold visit_children.
      apply spec_pair;
        [eapply spec_weaken; [|exact IHf]; now intros a h fp' [H _]
        | |apply stable_shape
        |intros x Hx; rewrite !elem_of_app in Hx;
         destruct Hx as [?|[?|[?|?]]]; eauto].
      apply spec_pair;
        [exact IHa| |apply stable_shapes
        |intros x Hx; rewrite !elem_of_app in Hx;
         destruct Hx as [?|[?|?]]; eauto].
      apply spec_pair;
        [exact IHk| |apply stable_shape_keywords
        |intros x Hx; rewrite !elem_of_app in Hx;
         destruct Hx as [?|?]; eauto].
      apply spec_pair;
        [exact IHs|exact IHd|apply stable_shape_option|eauto].
  - (* Lambda *)
    intros l ps b e fp Hl _ IH.
    eapply spec_weaken;
      [|apply (spec_unary l _ b e fp (fun b' => OLambda ps b')
                 (fun e' => Lambda ps e') Hl eq_refl)].
    + intros l' h' fp'. rewrite (visitP_eq (Lambda ps e)). simpl. auto.
    + intros vis h Hh. unfold NodeTransformer.generic_visit.
      now rewrite (run_bind _ _ _ _ _ (load_Some _ _ _ Hh)).
    + intros h' v' e' f Hh Hs. now apply (shape_Lambda h' l ps v').
    + exact IH.
  - (* Node *)
    intros l k cs es fp Hl _ IH.
    rewrite (visitP_eq (Node k es)).
    apply (spec_visit_other l _ _ _ Hl eq_refl); [now left|].
    eapply spec_weaken;
      [|apply (spec_generic_visit (fun vis => mapM vis cs)
                 (fun cs' => ONode k cs') l _ fp
                 (fun cs' h' f => shapes h' cs' (map visitP es) f) Hl)].
    + intros l' h' fp' (-> & cs' & f & -> & Hh & HR). simpl.
      split; [|exists (l :: f)]; now apply (shape_Node h' l k cs').
    + intros vis h Hh. unfold NodeTransformer.generic_visit.
      now rewrite (run_bind _ _ _ _ _ (load_Some _ _ _ Hh)).
    + apply stable_shapes.
    + exact IH.
  - (* no node *)
    apply (spec_ret []). intros h. constructor.
  - (* a node and more nodes *)
    intros l ls e es fp fps _ IH Hls IHls. destruct dom0 as (D1 & D2 & D3 & D4).
    apply (spec_ext (fun d => x ← (a ← visitH d l;
                                   b ← mapM (visitH d) ls; mret (a, b));
                              mret (fst x :: snd x))).
    { intros d h. cbn [mapM]. unfold mbind, M_bind, mret, M_ret.
      destruct (visitH d l h) as [[a h1]|]; [|reflexivity].
      destruct (mapM (visitH d) ls h1) as [[b h2]|]; reflexivity. }
    eapply spec_map; [|apply (spec_pair _ _ fp fps
      (fun l' h' fp' => shape h' l' (visitP e) fp')
      (fun ls' h' fp' => shapes h' ls' (map visitP es) fp'));
      [eapply spec_weaken; [|exact IH]; now intros a h fp' [H _]
      |exact IHls|apply stable_shape|eauto]].
    intros [a b] h fp' (f1 & f2 & -> & H1 & H2). simpl in *. now constructor.
  - (* no keyword *)
    apply (spec_ret []). intros h. constructor.
  - (* a keyword and more keywords *)
    intros l ls a v e kws fp fps Hl Hv IH Hls IHls.
    destruct dom0 as (D1 & D2 & D3 & D4).
    apply (spec_ext (fun d => x ← (a ← visitH d l;
                                   b ← mapM (visitH d) ls; mret (a, b));
                              mret (fst x :: snd x))).
    { intros d h. cbn [mapM]. unfold mbind, M_bind, mret, M_ret.
      destruct (visitH d l h) as [[a' h1]|]; [|reflexivity].
      destruct (mapM (visitH d) ls h1) as [[b h2]|]; reflexivity. }
    eapply spec_map; [|apply (spec_pair _ _ (l :: fp) fps
      (fun l' h' fp' => l' = l /\ exists v' f,
         fp' = l :: f /\ h' !! l = Some (OKeyword a v')
         /\ shape h' v' (visitP e) f));
      [|exact IHls| |eauto]].
    + intros [a' b] h fp' (f1 & f2 & -> & (Hal & v' & f & -> & Hh & Hs) & H2).
      simpl in *. subst a'.
      now apply (shape_keywords_cons h l b a v').
    + apply (spec_visit_other l _ _ _ Hl eq_refl); [now left|].
      apply (spec_generic_visit (fun vis => vis v)
               (fun v' => OKeyword a v') l _ fp
               (fun v' h' f => shape h' v' (visitP e) f) Hl).
      * intros vis h Hh. unfold NodeTransformer.generic_visit.
        now rewrite (run_bind _ _ _ _ _ (load_Some _ _ _ Hh)).
      * apply stable_shape.
      * eapply spec_weaken; [|exact IH]. now intros a' h fp' [H _].
    + split.
      * intros l' h h' fp' (-> & v' & f & -> & Hh & Hs) Hag.
        split; [reflexivity|]. exists v', f. split; [reflexivity|].
        split; [rewrite Hag; [exact Hh|now left]|].
        apply (proj1 (shape_frame h h')); [exact Hs|].
        intros x Hx. apply Hag. now right.
      * intros l' h fp' x (-> & v' & f & -> & Hh & Hs) [->|Hx]%elem_of_cons.
        -- now apply lookup_lt_Some in Hh.
        -- now apply (proj1 (shape_dom h) v' (visitP e) f).
  - (* no spread *)
    apply (spec_ret None). intros h. constructor.
  - (* a spread *)
    intros l e fp _ IH. cbn [optM option_map].
    eapply spec_map; [|eapply spec_weaken; [|exact IH]].
    + intros a h fp' H. constructor. exact H.
    + now intros a h fp' [H _].
Qed.
End refinement.

(** *** Code that only makes new nodes *)

Section growth.
Import store.
Implicit Types (h : heap) (l : loc) (fp : list loc) (o : object).

Lemma extends_refl h : extends h h.
Proof. exists []. now rewrite app_nil_r. Qed.

Lemma extends_trans h1 h2 h3 : extends h1 h2 -> extends h2 h3 -> extends h1 h3.
Proof. intros [n1 ->] [n2 ->]. exists (n1 ++ n2). now rewrite app_assoc. Qed.

Lemma extends_lookup h h' l o : extends h h' -> h !! l = Some o -> h' !! l = Some o.
Proof. intros [n ->] H. now apply lookup_app_l_Some. Qed.

Lemma extends_length h h' : extends h h' -> length h <= length h'.
Proof. intros [n ->]. rewrite length_app. lia. Qed.

Lemma extends_shape h h' l e fp : extends h h' -> shape h l e fp -> shape h' l e fp.
Proof. intros [n ->]. apply shape_extend. Qed.

Lemma extends_shapes h h' ls es fp :
  extends h h' -> shapes h ls es fp -> shapes h' ls es fp.
Proof. intros [n ->]. apply shape_extend. Qed.

Lemma extends_shape_keywords h h' ls ks fp :
  extends h h' -> shape_keywords h ls ks fp -> shape_keywords h' ls ks fp.
Proof. intros [n ->]. apply shape_extend. Qed.

Lemma extends_shape_option h h' lo eo fp :
  extends h h' -> shape_option h lo eo fp -> shape_option h' lo eo fp.
Proof. intros [n ->]. apply shape_extend. Qed.

Lemma grows_bind {A B : Type} (c : M A) (k : A -> M B) h
    (Q1 : A -> heap -> Prop) (Q : B -> heap -> Prop) :
  grows c h Q1 ->
  (forall a h1, extends h h1 -> Q1 a h1 -> grows (k a) h1 Q) ->
  grows (c ≫= k) h Q.
Proof.
  intros (a & h1 & Hc & He & HQ1) Hk.
  destruct (Hk a h1 He HQ1) as (b & h2 & Hk' & He' & HQ).
  exists b, h2. rewrite (run_bind _ _ _ _ _ Hc).
  split; [exact Hk'|]. split; [|exact HQ]. now apply (extends_trans h h1).
Qed.

Lemma grows_ret {A : Type} (a : A) h (Q : A -> heap -> Prop) :
  Q a h -> grows (mret a) h Q.
Proof. intros HQ. exists a, h. split; [reflexivity|]. split; [apply extends_refl|exact HQ]. Qed.

Lemma grows_alloc o h :
  grows (alloc o) h (fun l h' => h' !! l = Some o /\ length h <= l).
Proof.
  exists (length h), (h ++ [o]). split; [reflexivity|].
  split; [now exists [o]|]. split; [|lia].
  rewrite lookup_app_r by lia. now rewrite Nat.sub_diag.
Qed.

Lemma grows_load l o h :
  h !! l = Some o -> grows (load l) h (fun o' h' => o' = o /\ h' = h).
Proof.
  intros H. exists o, h. rewrite (load_Some _ _ _ H).
  split; [reflexivity|]. split; [apply extends_refl|auto].
Qed.

Lemma grows_weaken {A : Type} (c : M A) h (Q Q' : A -> heap -> Prop) :
  (forall a h', extends h h' -> Q a h' -> Q' a h') -> grows c h Q -> grows c h Q'.
Proof. intros HQ (a & h' & Hc & He & Ha). exists a, h'. auto. Qed.
End growth.

Ltac chain :=
  repeat match goal with
         | E : store.extends ?a ?b, E' : store.extends ?b ?c |- _ =>
             lazymatch goal with
             | _ : store.extends a c |- _ => fail
             | _ => pose proof (extends_trans a b c E E')
             end
         end.

Ltac bounds :=
  repeat match goal with
         | E : store.extends ?a ?b |- _ =>
             lazymatch goal with
             | _ : length a <= length b |- _ => fail
             | _ => pose proof (extends_length a b E)
             end
         end.

Tactic Notation "step_alloc" ident(l) ident(h) ident(E) ident(L) ident(B) :=
  eapply grows_bind; [apply grows_alloc|]; intros l h E [L B].

Ltac lookup_now :=
  solve [ eassumption
        | eapply extends_lookup; [|eassumption]; eassumption
        | eapply extends_lookup; [apply extends_refl|eassumption] ].

Ltac within_now :=
  let x := fresh "x" in let Hx := fresh "Hx" in
  intros x Hx;
  repeat (rewrite ?elem_of_cons, ?elem_of_app, ?elem_of_nil in Hx);
  bounds;
  repeat match goal with
         | H : _ \/ _ |- _ => destruct H
         | H : False |- _ => destruct H
         end;
  subst;
  first [ now (right; right)
        | right; left; lia
        | left; rewrite ?elem_of_cons, ?elem_of_app; now auto 10
        | auto ].

Section trace_facts.
Import store.
Import ast_trace.
Implicit Types (h : heap) (l : loc) (fp : list loc) (o : object).
Variable hs : bool.
Variable handle : loc.
Variable tid : string.

Local Abbreviation new_or_old := (store.within handle).

Local Abbreviation TA :=
  (ast_trace.TraceFunctionCalls.trace_argument hs (Name tid Load)).

Lemma shape_root h l e fp :
  shape h l e fp ->
  exists o, h !! l = Some o
            /\ (if o is OStarred _ _ then true else false) = is_Starred e
            /\ l ∈ fp.
Proof.
  destruct 1; eexists; (split; [eassumption|]); split;
    try reflexivity; now left.
Qed.

Lemma name_args_grows h (name : option string) :
  grows (match name with
         | Some name => s ← alloc (OStr name); mret [s]
         | None => mret []
         end) h
    (fun ls h' =>
       shapes h' ls (if name is Some s then [Str s] else []) ls
       /\ forall x, x ∈ ls -> length h <= x).
Proof.
  destruct name as [s|].
  - step_alloc ls h1 E1 L1 B1. apply grows_ret. split.
    + apply (shapes_cons _ ls [] (Str s) [] [ls] []); now constructor.
    + intros x Hx%list_elem_of_singleton. now subst.
  - apply grows_ret. split; [constructor|].
    intros x Hx. now apply elem_of_nil in Hx.
Qed.

Lemma nstars_grows h (n : nat) :
  grows (match n with
         | O => mret []
         | _ =>
             n' ← alloc (ONum (Z.of_nat n));
             k ← alloc (OKeyword (Some "nstars") n');
             mret [k]
         end) h
    (fun ls h' => exists fp',
       shape_keywords h' ls
         (match n with
          | O => []
          | _ => [Keyword (Some "nstars") (Num (Z.of_nat n))]
          end) fp'
       /\ forall x, x ∈ fp' -> length h <= x).
Proof.
  destruct n as [|n].
  - apply grows_ret. exists []. split; [constructor|].
    intros x Hx. now apply elem_of_nil in Hx.
  - step_alloc ln h1 E1 L1 B1. step_alloc lk h2 E2 L2 B2. apply grows_ret.
    exists (lk :: [ln] ++ []). split.
    + apply (shape_keywords_cons _ lk [] (Some "nstars") ln);
        [exact L2| |constructor].
      constructor. lookup_now.
    + bounds. intros x Hx.
      repeat (rewrite ?elem_of_cons, ?elem_of_app, ?elem_of_nil in Hx).
      destruct Hx as [->|[[->|[]]|[]]]; lia.
Qed.

(** The call of [trace_argument] that is made around an argument. *)
Lemma trace_argument_tail h v ev fpv (name : option string) (n : nat)
    (starred : bool) :
  h !! handle = Some (OName tid Load) -> shape h v ev fpv ->
  grows
    (name_args ← match name with
                 | Some name => s ← alloc (OStr name); mret [s]
                 | None => mret []
                 end;
     keywords ← match n with
                | O => mret []
                | _ =>
                    n' ← alloc (ONum (Z.of_nat n));
                    k ← alloc (OKeyword (Some "nstars") n');
                    mret [k]
                end;
     m ← store.TraceFunctionCalls.trace_method handle "trace_argument";
     call ← to_call m ([v] ++ name_args) keywords None None;
     if starred then alloc (OStarred call Load) else mret call) h
    (fun l' h' => exists fp',
       shape h' l'
         (let call :=
            Call (Attribute (Name tid Load) "trace_argument" Load)
                 ([ev] ++ (if name is Some s then [Str s] else []))
                 (match n with
                  | O => []
                  | _ => [Keyword (Some "nstars") (Num (Z.of_nat n))]
                  end) None None in
          if starred then Starred call Load else call) fp'
       /\ forall x, x ∈ fp' -> x ∈ fpv \/ length h <= x \/ x = handle).
Proof.
  intros Hh Hv.
  eapply grows_bind; [apply name_args_grows|]. intros ns h1 E1 [Hns Bns].
  eapply grows_bind; [apply nstars_grows|]. intros ks h2 E2 (fpk & Hks & Bks).
  unfold store.TraceFunctionCalls.trace_method, to_attribute, to_call.
  step_alloc lm h3 E3 Lm Bm. step_alloc lc h4 E4 Lc Bc. chain.
  assert (Hcall : shape h4 lc
    (Call (Attribute (Name tid Load) "trace_argument" Load)
          ([ev] ++ (if name is Some s then [Str s] else []))
          (match n with
           | O => []
           | _ => [Keyword (Some "nstars") (Num (Z.of_nat n))]
           end) None None)
    (lc :: (lm :: [handle]) ++ (fpv ++ ns) ++ fpk ++ [] ++ [])).
  { eapply shape_Call; [exact Lc| | | |constructor|constructor].
    - eapply shape_Attribute; [lookup_now|]. constructor.
      eapply extends_lookup; [|exact Hh]. eauto using extends_trans.
    - apply shapes_cons.
      + eapply extends_shape; [|exact Hv]. eauto using extends_trans.
      + eapply extends_shapes; [|exact Hns]. eauto using extends_trans.
    - eapply extends_shape_keywords; [|exact Hks]. eauto using extends_trans. }
  assert (Hw : forall x,
    x ∈ lc :: (lm :: [handle]) ++ (fpv ++ ns) ++ fpk ++ [] ++ [] ->
                 x ∈ fpv \/ length h <= x \/ x = handle).
  { bounds. intros x Hx.
    repeat (rewrite ?elem_of_cons, ?elem_of_app, ?elem_of_nil in Hx).
    repeat match goal with
           | H : _ \/ _ |- _ => destruct H
           | H : False |- _ => destruct H
           end; subst; auto; right; left;
      first [ lia
            | match goal with H : _ ∈ ns |- _ => apply Bns in H end; lia
            | match goal with H : _ ∈ fpk |- _ => apply Bks in H end; lia ]. }
  destruct starred.
  - exists (length h4), (h4 ++ [OStarred lc Load]).
    split; [reflexivity|]. split; [now exists [OStarred lc Load]|].
    eexists. split.
    + eapply shape_Starred.
      * rewrite lookup_app_r by lia. now rewrite Nat.sub_diag.
      * eapply extends_shape; [|exact Hcall]. now exists [OStarred lc Load].
    + bounds. intros x [->|Hx]%elem_of_cons; [right; left; lia|now apply Hw].
  - apply grows_ret. eexists. split; [exact Hcall|exact Hw].
Qed.

Lemma trace_argument_grows h a e fp name n :
  h !! handle = Some (OName tid Load) -> shape h a e fp ->
  grows (store.TraceFunctionCalls.trace_argument hs handle a name n) h
    (fun l' h' => exists fp',
       shape h' l' (TA e name n) fp'
       /\ forall x, x ∈ fp' -> x ∈ fp \/ length h <= x \/ x = handle).
Proof.
  intros Hh Hs. destruct (shape_root _ _ _ _ Hs) as (o & Ho & Hcls & Hin).
  unfold store.TraceFunctionCalls.trace_argument.
  eapply grows_bind; [apply (grows_load _ _ _ Ho)|].
  intros o' h1 E1 [-> ->]. rewrite Hcls.
  destruct (hs && is_Starred e) eqn:Hst.
  - (* a marked argument *)
    apply andb_prop in Hst as [-> He]. destruct e; try discriminate.
    inversion Hs; subst.
    match goal with H : h !! a = Some (OStarred _ _) |- _ =>
      rewrite H in Ho; injection Ho as <- end.
    eapply grows_weaken;
      [|apply (trace_argument_tail h v e fp0 (truthy_name name) 1 true Hh);
        assumption].
    intros l' h' _ (fp' & Hs' & Hw). exists fp'. split; [exact Hs'|].
    intros x Hx. destruct (Hw x Hx) as [?|[?|?]]; auto. left. now right.
  - (* any other argument *)
    assert (Hcode : forall (value : loc),
      (if o is OStarred value _ then a else a) = a) by (now destruct o).
    assert (Hpure : TA e name n
      = Call (Attribute (Name tid Load) "trace_argument" Load)
             ([e] ++ (if truthy_name name is Some s then [Str s] else []))
             (match n with
              | O => []
              | _ => [Keyword (Some "nstars") (Num (Z.of_nat n))]
              end) None None).
    { unfold ast_trace.TraceFunctionCalls.trace_argument. rewrite Hst.
      now destruct e. }
    rewrite Hpure.
    replace (match o with
             | OStarred value _ => if false then value else a
             | _ => a
             end) with a by (now destruct o).
    apply (trace_argument_tail h a e fp (truthy_name name) n false Hh Hs).
Qed.

Lemma new_or_old_extends fp h h1 fp' :
  extends h h1 -> new_or_old fp h1 fp' -> new_or_old fp h fp'.
Proof.
  intros E Hw x Hx. apply extends_length in E.
  destruct (Hw x Hx) as [?|[?|?]]; auto. right. left. lia.
Qed.

Lemma new_or_old_app fp1 fp2 h f1 f2 :
  new_or_old fp1 h f1 -> new_or_old fp2 h f2 ->
  new_or_old (fp1 ++ fp2) h (f1 ++ f2).
Proof.
  intros H1 H2 x [Hx|Hx]%elem_of_app.
  - destruct (H1 x Hx) as [?|[?|?]]; rewrite ?elem_of_app; auto.
  - destruct (H2 x Hx) as [?|[?|?]]; rewrite ?elem_of_app; auto.
Qed.

Lemma trace_arguments_grows (n : nat) h ls es fp :
  shapes h ls es fp ->
  forall h1, extends h h1 -> h1 !! handle = Some (OName tid Load) ->
  grows (mapM (fun a => store.TraceFunctionCalls.trace_argument
                          hs handle a None n) ls) h1
    (fun ls' h' => exists fp',
       shapes h' ls' (map (fun e => TA e None n) es) fp'
       /\ new_or_old fp h1 fp').
Proof.
  induction 1 as [|l ls e es fp fps He Hs IH]; intros h1 E1 Hh;
    cbn [mapM map].
  - apply grows_ret. exists []. split; [constructor|].
    intros x Hx. now apply elem_of_nil in Hx.
  - eapply grows_bind;
      [apply (trace_argument_grows h1 l e fp None n Hh);
       now apply (extends_shape h)|].
    intros l' h2 E2 (fp1 & Hs1 & Hw1).
    eapply grows_bind.
    { apply (IH h2); [now apply (extends_trans h h1)|].
      now apply (extends_lookup h1). }
    intros ls' h3 E3 (fp2 & Hs2 & Hw2). apply grows_ret.
    exists (fp1 ++ fp2). split.
    + constructor; [now apply (extends_shape h2)|exact Hs2].
    + apply new_or_old_app; [exact Hw1|].
      now apply (new_or_old_extends _ h1 h2).
Qed.

Lemma trace_keyword_grows h l a v e fp :
  h !! l = Some (OKeyword a v) -> shape h v e fp ->
  h !! handle = Some (OName tid Load) ->
  grows (store.TraceFunctionCalls.trace_keyword hs handle l) h
    (fun l' h' => exists v' fp',
       h' !! l' = Some (OKeyword a v') /\ length h <= l'
       /\ shape h' v' (TA e a (if a is None then 2 else 0)) fp'
       /\ new_or_old fp h fp').
Proof.
  intros Hl He Hh. unfold store.TraceFunctionCalls.trace_keyword.
  eapply grows_bind; [apply (grows_load l (OKeyword a v) h Hl)|].
  intros o h1 _ [-> ->].
  eapply grows_bind;
    [apply (trace_argument_grows h v e fp a
              (if a is None then 2 else 0) Hh He)|].
  intros v' h2 E2 (fp1 & Hs1 & Hw1).
  eapply grows_weaken; [|apply grows_alloc].
  intros lk h3 E3 [Lk Bk]. exists v', fp1.
  split; [exact Lk|]. apply extends_length in E2.
  split; [lia|]. split; [now apply (extends_shape h2)|exact Hw1].
Qed.

Lemma trace_keywords_grows h ls ks fp :
  shape_keywords h ls ks fp ->
  forall h1, extends h h1 -> h1 !! handle = Some (OName tid Load) ->
  grows (mapM (store.TraceFunctionCalls.trace_keyword hs handle) ls) h1
    (fun ls' h' => exists fp',
       shape_keywords h' ls'
         (map (fun kw => Keyword (kw_arg kw)
                 (TA (kw_value kw) (kw_arg kw)
                     (if kw_arg kw is None then 2 else 0))) ks) fp'
       /\ new_or_old fp h1 fp').
Proof.
  induction 1 as [|l ls a v e kws fp fps Hl He Hs IH]; intros h1 E1 Hh;
    cbn [mapM map].
  - apply grows_ret. exists []. split; [constructor|].
    intros x Hx. now apply elem_of_nil in Hx.
  - eapply grows_bind.
    { apply (trace_keyword_grows h1 l a v e fp);
        [now apply (extends_lookup h)|now apply (extends_shape h)|exact Hh]. }
    intros lk h2 E2 (v' & fp1 & Lk & Bk & Hs1 & Hw1).
    eapply grows_bind.
    { apply (IH h2); [now apply (extends_trans h h1)|].
      now apply (extends_lookup h1). }
    intros ls' h3 E3 (fp2 & Hs2 & Hw2). apply grows_ret.
    exists (lk :: fp1 ++ fp2). split.
    + cbn [kw_arg kw_value].
      apply (shape_keywords_cons h3 lk ls' a v');
        [now apply (extends_lookup h2)|now apply (extends_shape h2)
        |exact Hs2].
    + intros x [->|Hx]%elem_of_cons; [right; left; lia|].
      revert x Hx. apply (new_or_old_app (l :: fp) fps).
      * intros x Hx. destruct (Hw1 x Hx) as [?|[?|?]]; auto.
        left. now right.
      * now apply (new_or_old_extends _ h1 h2).
Qed.

Lemma trace_spread_grows (n : nat) h lo eo fp :
  shape_option h lo eo fp ->
  forall h1, extends h h1 -> h1 !! handle = Some (OName tid Load) ->
  grows (optM (fun a => store.TraceFunctionCalls.trace_argument
                          hs handle a None n) lo) h1
    (fun lo' h' => exists fp',
       shape_option h' lo' (option_map (fun e => TA e None n) eo) fp'
       /\ new_or_old fp h1 fp').
Proof.
  intros [|l e fp' He] h1 E1 Hh; cbn [optM option_map].
  - apply grows_ret. exists []. split; [constructor|].
    intros x Hx. now apply elem_of_nil in Hx.
  - eapply grows_bind;
      [apply (trace_argument_grows h1 l e fp' None n Hh);
       now apply (extends_shape h)|].
    intros l' h2 E2 (fp1 & Hs1 & Hw1). apply grows_ret.
    exists fp1. split; [now constructor|exact Hw1].
Qed.

Lemma shapes_length h ls es fp : shapes h ls es fp -> length ls = length es.
Proof. induction 1; simpl; congruence. Qed.

Lemma shape_keywords_length h ls ks fp :
  shape_keywords h ls ks fp -> length ls = length ks.
Proof. induction 1; simpl; congruence. Qed.

Lemma shape_option_is_Some h lo eo fp :
  shape_option h lo eo fp ->
  (if lo is Some _ then 1 else 0) = (if eo is Some _ then 1 else 0).
Proof. now destruct 1. Qed.

Lemma trace_function_grows h f ef fp (nargs : nat) :
  h !! handle = Some (OName tid Load) -> shape h f ef fp ->
  grows (store.TraceFunctionCalls.trace_function handle f nargs) h
    (fun l' h' => exists fp',
       shape h' l'
         (ast_trace.TraceFunctionCalls.trace_function
            (Name tid Load) ef nargs) fp'
       /\ new_or_old fp h fp').
Proof.
  intros Hh Hf.
  unfold store.TraceFunctionCalls.trace_function,
    store.TraceFunctionCalls.trace_method, to_attribute, to_call.
  step_alloc lm h1 E1 Lm Bm. step_alloc ln h2 E2 Ln Bn.
  eapply grows_weaken; [|apply grows_alloc].
  intros lc h3 E3 [Lc Bc]. chain.
  exists (lc :: (lm :: [handle]) ++ (fp ++ [ln] ++ []) ++ [] ++ [] ++ []).
  split.
  - eapply shape_Call; [exact Lc| | |constructor|constructor|constructor].
    + eapply shape_Attribute; [lookup_now|]. constructor.
      eapply extends_lookup; [|exact Hh]. assumption.
    + apply shapes_cons; [eapply extends_shape; [|exact Hf]; assumption|].
      apply shapes_cons; [|constructor]. constructor. lookup_now.
  - bounds. intros x Hx.
    repeat (rewrite ?elem_of_cons, ?elem_of_app, ?elem_of_nil in Hx).
    repeat match goal with
           | H : _ \/ _ |- _ => destruct H
           | H : False |- _ => destruct H
           end; subst; auto; right; left; lia.
Qed.

Lemma trace_return_grows h c ec fp :
  h !! handle = Some (OName tid Load) -> shape h c ec fp ->
  grows (store.TraceFunctionCalls.trace_return handle c) h
    (fun l' h' => exists fp',
       shape h' l'
         (ast_trace.TraceFunctionCalls.trace_return (Name tid Load) ec) fp'
       /\ new_or_old fp h fp').
Proof.
  intros Hh Hc.
  unfold store.TraceFunctionCalls.trace_return,
    store.TraceFunctionCalls.trace_method, to_attribute, to_call.
  step_alloc lm h1 E1 Lm Bm.
  eapply grows_weaken; [|apply grows_alloc].
  intros lc h2 E2 [Lc Bc]. chain.
  exists (lc :: (lm :: [handle]) ++ (fp ++ []) ++ [] ++ [] ++ []).
  split.
  - eapply shape_Call; [exact Lc| | |constructor|constructor|constructor].
    + eapply shape_Attribute; [lookup_now|]. constructor.
      eapply extends_lookup; [|exact Hh]. assumption.
    + apply shapes_cons; [eapply extends_shape; [|exact Hc]; assumption|].
      constructor.
  - bounds. intros x Hx.
    repeat (rewrite ?elem_of_cons, ?elem_of_app, ?elem_of_nil in Hx).
    repeat match goal with
           | H : _ \/ _ |- _ => destruct H
           | H : False |- _ => destruct H
           end; subst; auto; right; left; lia.
Qed.

Lemma map_visit_keyword_id (ks : list keyword) :
  map (ast.NodeTransformer.visit_keyword id) ks = ks.
Proof. induction ks as [|[a v] ks IH]; simpl; congruence. Qed.

Lemma option_map_id {A : Type} (o : option A) : option_map id o = o.
Proof. now destruct o. Qed.

Lemma if_true_eq {A : Type} (b : bool) (x y : A) :
  b = true -> (if b then x else y) = x.
Proof. now intros ->. Qed.

Lemma if_false_eq {A : Type} (b : bool) (x y : A) :
  b = false -> (if b then x else y) = y.
Proof. now intros ->. Qed.

Lemma trace_call_grows h l ef eargs ekws esa eka fp :
  h !! handle = Some (OName tid Load) ->
  shape h l (Call ef eargs ekws esa eka) fp ->
  grows (store.TraceFunctionCalls.trace_call hs handle l) h
    (fun l' h' => exists fp',
       shape h' l'
         (ast_trace.TraceFunctionCalls.visit_Call hs (Name tid Load) id
            (Call ef eargs ekws esa eka)) fp'
       /\ new_or_old fp h fp').
Proof.
  intros Hh Hs. inversion Hs as [| | | | |l0 f args kws sa ka ef0 eargs0 ekws0
    esa0 eka0 fpf fpa fpk fps fpd Hl Hf Ha Hk Hsa Hka| |]; subst.
  assert (Hcase : hs = true \/ hs = false) by (destruct hs; auto).
  unfold store.TraceFunctionCalls.trace_call,
    ast_trace.TraceFunctionCalls.visit_Call.
  cbn [ast.NodeTransformer.generic_visit].
  rewrite map_id, map_visit_keyword_id, !option_map_id. cbv zeta.
  eapply grows_bind; [apply (grows_load l _ h Hl)|].
  intros o h0 _ [-> ->].
  eapply grows_bind;
    [apply (trace_arguments_grows 0 h args eargs fpa Ha h
              (extends_refl h) Hh)|].
  intros args' h1 E1 (fpa' & Ha' & Wa).
  eapply grows_bind.
  { apply (trace_keywords_grows h kws ekws fpk Hk h1 E1).
    now apply (extends_lookup h). }
  intros kws' h2 E2 (fpk' & Hk' & Wk). chain.
  assert (Hh2 : h2 !! handle = Some (OName tid Load))
    by now apply (extends_lookup h).
  eapply (grows_bind _ _ _
    (fun sa' h' => exists fp',
       shape_option h' sa'
         (if hs then None
          else option_map (fun s => TA s None 1) esa) fp'
       /\ new_or_old fps h2 fp')).
  { destruct Hcase as [Hhs|Hhs].
    - rewrite !(if_true_eq hs _ _ Hhs).
      apply grows_ret. exists []. split; [constructor|].
      intros x Hx. now apply elem_of_nil in Hx.
    - rewrite !(if_false_eq hs _ _ Hhs).
      now apply (trace_spread_grows 1 h sa esa fps Hsa h2). }
  intros sa' h3 E3 (fps' & Hsa' & Ws). chain.
  assert (Hh3 : h3 !! handle = Some (OName tid Load))
    by now apply (extends_lookup h).
  eapply (grows_bind _ _ _
    (fun ka' h' => exists fp',
       shape_option h' ka'
         (if hs then None
          else option_map (fun k => TA k None 2) eka) fp'
       /\ new_or_old fpd h3 fp')).
  { destruct Hcase as [Hhs|Hhs].
    - rewrite !(if_true_eq hs _ _ Hhs).
      apply grows_ret. exists []. split; [constructor|].
      intros x Hx. now apply elem_of_nil in Hx.
    - rewrite !(if_false_eq hs _ _ Hhs).
      now apply (trace_spread_grows 2 h ka eka fpd Hka h3). }
  intros ka' h4 E4 (fpd' & Hka' & Wd). chain.
  assert (Hh4 : h4 !! handle = Some (OName tid Load))
    by now apply (extends_lookup h).
  eapply grows_bind.
  { apply (trace_function_grows h4 f ef fpf _ Hh4).
    now apply (extends_shape h). }
  intros lf h5 E5 (fpf' & Hf' & Wf).
  unfold to_call.
  step_alloc lc h6 E6 Lc Bc. chain.
  assert (Hh6 : h6 !! handle = Some (OName tid Load))
    by now apply (extends_lookup h).
  assert (Hc : shape h6 lc
    (Call (ast_trace.TraceFunctionCalls.trace_function (Name tid Load) ef
             (length (map (fun arg => TA arg None 0) eargs)
              + length (map (fun kw => Keyword (kw_arg kw)
                              (TA (kw_value kw) (kw_arg kw)
                                  (if kw_arg kw is None then 2 else 0)))
                            ekws)
              + (if (if hs then None
                     else option_map (fun s => TA s None 1) esa)
                 is Some _ then 1 else 0)
              + (if (if hs then None
                     else option_map (fun k => TA k None 2) eka)
                 is Some _ then 1 else 0)))
          (map (fun arg => TA arg None 0) eargs)
          (map (fun kw => Keyword (kw_arg kw)
                  (TA (kw_value kw) (kw_arg kw)
                      (if kw_arg kw is None then 2 else 0))) ekws)
          (if hs then None else option_map (fun s => TA s None 1) esa)
          (if hs then None else option_map (fun k => TA k None 2) eka))
    (lc :: fpf' ++ fpa' ++ fpk' ++ fps' ++ fpd')).
  { rewrite <- (shapes_length _ _ _ _ Ha'),
      <- (shape_keywords_length _ _ _ _ Hk'),
      <- (shape_option_is_Some _ _ _ _ Hsa'),
      <- (shape_option_is_Some _ _ _ _ Hka').
    eapply shape_Call; [exact Lc| | | | |].
    - now apply (extends_shape h5).
    - now apply (extends_shapes h1).
    - now apply (extends_shape_keywords h2).
    - now apply (extends_shape_option h3).
    - now apply (extends_shape_option h4). }
  assert (Wc : new_or_old (l :: fpf ++ fpa ++ fpk ++ fps ++ fpd) h
                 (lc :: fpf' ++ fpa' ++ fpk' ++ fps' ++ fpd')).
  { bounds. intros x [->|Hx]%elem_of_cons; [right; left; lia|].
    assert (Hx' : x ∈ fpf ++ fpa ++ fpk ++ fps ++ fpd
                  \/ length h <= x \/ x = handle);
      [|destruct Hx' as [?|[?|?]]; auto; left; now right].
    revert x Hx.
    apply new_or_old_app; [now apply (new_or_old_extends _ h h4)|].
    apply new_or_old_app; [exact Wa|].
    apply new_or_old_app; [now apply (new_or_old_extends _ h h1)|].
    apply new_or_old_app; [now apply (new_or_old_extends _ h h2)|].
    now apply (new_or_old_extends _ h h3). }
  eapply grows_weaken; [|apply (trace_return_grows h6 lc _ _ Hh6 Hc)].
  intros l' h7 E7 (fp' & Hs' & W'). exists fp'. split; [exact Hs'|].
  bounds. intros x Hx. destruct (W' x Hx) as [Hx'|[?|?]]; auto.
  right. left. lia.
Qed.

(** What [visit_Call] does after [generic_visit], as the traversal
    needs it. *)
Lemma trace_call_ok h l e fp :
  h !! handle = Some (OName tid Load) ->
  shape h l e fp ->
  (if e is Call _ _ _ _ _ then True else False) ->
  exists l' new fp',
    store.TraceFunctionCalls.trace_call hs handle l h = Some (l', h ++ new)
    /\ shape (h ++ new) l'
         (ast_trace.TraceFunctionCalls.visit_Call hs (Name tid Load) id e)
         fp'
    /\ (forall x, x ∈ fp' -> x ∈ fp \/ length h <= x \/ x = handle).
Proof.
  intros Hh Hs He. destruct e; try contradiction.
  destruct (trace_call_grows h l _ _ _ _ _ fp Hh Hs)
    as (l' & h' & Hc & [new ->] & fp' & Hs' & Hw).
  now exists l', new, fp'.
Qed.
End trace_facts.

Section wrap_facts.
Import store.
Implicit Types (h : heap) (l : loc) (fp : list loc) (o : object).
Variable py35 : bool.
Variable handle : loc.
Variable wid : string.

Lemma wrap_call_ok h l e fp :
  h !! handle = Some (OName wid Load) ->
  shape h l e fp ->
  (if e is Call _ _ _ _ _ then True else False) ->
  exists l' new fp',
    store.WrapCalls.wrap_call py35 handle l h = Some (l', h ++ new)
    /\ shape (h ++ new) l'
         (ast_transform.WrapCalls.visit_Call py35 (Name wid Load) id e) fp'
    /\ (forall x, x ∈ fp' -> x ∈ fp \/ length h <= x \/ x = handle).
Proof.
  intros Hh Hs He. destruct e; try contradiction.
  inversion Hs as [| | | | |l0 f a k sa ka ef0 eargs0 ekws0
    esa0 eka0 fpf fpa fpk fps fpd Hl Hf Ha Hk Hsa Hka| |]; subst.
  unfold store.WrapCalls.wrap_call, ast_transform.WrapCalls.visit_Call.
  cbn [ast.NodeTransformer.generic_visit].
  rewrite map_id, map_visit_keyword_id, !option_map_id.
  rewrite (run_bind _ _ _ _ _ (load_Some _ _ _ Hl)).
  assert (Hlast : forall o, (h ++ [o]) !! length h = Some o).
  { intros o. rewrite lookup_app_r by lia. now rewrite Nat.sub_diag. }
  assert (E : forall o, extends h (h ++ [o])) by (intros o; now exists [o]).
  destruct py35.
  - exists (length h), [OCall handle ([f] ++ a) k None None],
      (length h :: [handle] ++ (fpf ++ fpa) ++ fpk ++ [] ++ []).
    split; [reflexivity|]. split.
    + eapply shape_Call; [apply Hlast| | | |constructor|constructor].
      * constructor. now apply (extends_lookup h).
      * apply shapes_cons; [now apply (extends_shape h)
                           |now apply (extends_shapes h)].
      * now apply (extends_shape_keywords h).
    + intros x Hx.
      repeat (rewrite ?elem_of_cons, ?elem_of_app, ?elem_of_nil in Hx).
      repeat match goal with
             | H : _ \/ _ |- _ => destruct H
             | H : False |- _ => destruct H
             end; subst; auto;
        left; rewrite ?elem_of_cons, ?elem_of_app; auto 10.
  - exists (length h), [OCall handle ([f] ++ a) k sa ka],
      (length h :: [handle] ++ (fpf ++ fpa) ++ fpk ++ fps ++ fpd).
    split; [reflexivity|]. split.
    + eapply shape_Call; [apply Hlast| | | | |].
      * constructor. now apply (extends_lookup h).
      * apply shapes_cons; [now apply (extends_shape h)
                           |now apply (extends_shapes h)].
      * now apply (extends_shape_keywords h).
      * now apply (extends_shape_option h).
      * now apply (extends_shape_option h).
    + intros x Hx.
      repeat (rewrite ?elem_of_cons, ?elem_of_app, ?elem_of_nil in Hx).
      repeat match goal with
             | H : _ \/ _ |- _ => destruct H
             | H : False |- _ => destruct H
             end; subst; auto;
        left; rewrite ?elem_of_cons, ?elem_of_app; auto 10.
Qed.
End wrap_facts.

Section runs.
Import store.
Implicit Types (h : heap) (l : loc) (fp : list loc) (o : object).

Lemma TraceFunctionCalls_visit_dispatch (hs : bool) (t e : expr) :
  ast_trace.TraceFunctionCalls.visit hs t e
  = match e with
    | Call _ _ _ _ _ =>
        ast_trace.TraceFunctionCalls.visit_Call hs t id
          (ast.NodeTransformer.generic_visit
             (ast_trace.TraceFunctionCalls.visit hs t) e)
    | _ => ast.NodeTransformer.generic_visit
             (ast_trace.TraceFunctionCalls.visit hs t) e
    end.
Proof.
  destruct e; try reflexivity.
  cbn [ast_trace.TraceFunctionCalls.visit].
  unfold ast_trace.TraceFunctionCalls.visit_Call.
  cbn [ast.NodeTransformer.generic_visit].
  now rewrite !map_id, map_visit_keyword_id, !option_map_id.
Qed.

Lemma WrapCalls_visit_dispatch (py35 : bool) (w e : expr) :
  ast_transform.WrapCalls.visit py35 w e
  = match e with
    | Call _ _ _ _ _ =>
        ast_transform.WrapCalls.visit_Call py35 w id
          (ast.NodeTransformer.generic_visit
             (ast_transform.WrapCalls.visit py35 w) e)
    | _ => ast.NodeTransformer.generic_visit
             (ast_transform.WrapCalls.visit py35 w) e
    end.
Proof.
  destruct e; try reflexivity.
  cbn [ast_transform.WrapCalls.visit].
  unfold ast_transform.WrapCalls.visit_Call.
  cbn [ast.NodeTransformer.generic_visit].
  now rewrite !map_id, map_visit_keyword_id, !option_map_id.
Qed.

(** A transformer that makes its handle and then visits the tree. *)
Lemma run_refines (hookH : loc -> loc -> M loc) (hookP visitP : expr -> expr)
    (id : string) h l e fp :
  (forall handle h l e fp,
     h !! handle = Some (OName id Load) ->
     shape h l e fp ->
     (if e is Call _ _ _ _ _ then True else False) ->
     exists l' new fp',
       hookH handle l h = Some (l', h ++ new)
       /\ shape (h ++ new) l' (hookP e) fp'
       /\ (forall x, x ∈ fp' -> x ∈ fp \/ length h <= x \/ x = handle)) ->
  (forall e, visitP e
             = match e with
               | Call _ _ _ _ _ =>
                   hookP (ast.NodeTransformer.generic_visit visitP e)
               | _ => ast.NodeTransformer.generic_visit visitP e
               end) ->
  shape h l e fp -> NoDup fp ->
  exists d0, forall d, d0 <= d ->
    exists l' h',
      (w ← to_name id;
       NodeTransformer.visit (method (hookH w)) d l) h = Some (l', h')
      /\ denotes h' l' (visitP e)
      /\ denotes h' l (ast.NodeTransformer.generic_visit visitP e)
      /\ forall x, x < length h -> x ∉ fp -> h' !! x = h !! x.
Proof.
  intros Hhook HvisitP Hs Hnd.
  set (h1 := h ++ [OName id Load]).
  assert (E : extends h h1) by (now exists [OName id Load]).
  assert (Hh1 : h1 !! length h = Some (OName id Load)).
  { unfold h1. rewrite lookup_app_r by lia. now rewrite Nat.sub_diag. }
  assert (Hfp : forall x, x ∈ fp -> x < length h)
    by (intros x; now apply (proj1 (shape_dom h) l e)).
  destruct (proj1 (visit_spec h1 (length h) id (hookH (length h)) hookP visitP
                     (Hhook (length h)) HvisitP) l e fp
              (extends_shape h h1 l e fp E Hs)) as [d0 Hspec].
  exists d0. intros d Hd.
  destruct (Hspec h1 d) as (l' & h' & fp' & Hrun & [Hs' [fpi Hi]]
                            & [Hlen Hframe] & _);
    [reflexivity|exact Hnd| |exact Hh1|exact Hd|].
  { intros Hin. apply Hfp in Hin. lia. }
  exists l', h'. split; [|split; [|split]].
  - unfold to_name. rewrite (run_bind _ _ _ (length h) h1); [exact Hrun|].
    reflexivity.
  - now exists fp'.
  - now exists fpi.
  - intros x Hx Hn. rewrite Hframe; [|unfold h1; rewrite length_app; lia|exact Hn].
    unfold h1. now rewrite lookup_app_l.
Qed.
End runs.

Section determinism.
Import store.
Import ast_trace.
Implicit Types (h : heap) (l : loc) (fp : list loc) (o : object).

Lemma TraceFunctionCalls_run_refines (v : version_info) (name : string)
    h l e :
  tree h l e ->
  exists d0, forall d, d0 <= d ->
    exists l' h',
      store.TraceFunctionCalls.run v name d l h = Some (l', h')
      /\ denotes h' l'
           (ast_trace.TraceFunctionCalls.visit (ast_has_starred v)
              (Name name Load) e)
      /\ denotes h' l
           (ast.NodeTransformer.generic_visit
              (ast_trace.TraceFunctionCalls.visit (ast_has_starred v)
                 (Name name Load)) e).
Proof.
  intros (fp & Hs & Hnd).
  destruct (run_refines
              (fun w => store.TraceFunctionCalls.trace_call
                          (ast_has_starred v) w)
              (ast_trace.TraceFunctionCalls.visit_Call (ast_has_starred v)
                 (Name name Load) id)
              (ast_trace.TraceFunctionCalls.visit (ast_has_starred v)
                 (Name name Load))
              name h l e fp) as [d0 H]; try assumption.
  - intros handle. apply trace_call_ok.
  - apply TraceFunctionCalls_visit_dispatch.
  - exists d0. intros d Hd.
    destruct (H d Hd) as (l' & h' & Hrun & H1 & H2 & _).
    now exists l', h'.
Qed.

Lemma WrapCalls_run_refines (py35 : bool) (name : string) h l e :
  tree h l e ->
  exists d0, forall d, d0 <= d ->
    exists l' h',
      store.WrapCalls.run py35 name d l h = Some (l', h')
      /\ denotes h' l'
           (ast_transform.WrapCalls.visit py35 (Name name Load) e)
      /\ denotes h' l
           (ast.NodeTransformer.generic_visit
              (ast_transform.WrapCalls.visit py35 (Name name Load)) e).
Proof.
  intros (fp & Hs & Hnd).
  destruct (run_refines
              (fun w => store.WrapCalls.wrap_call py35 w)
              (ast_transform.WrapCalls.visit_Call py35 (Name name Load) id)
              (ast_transform.WrapCalls.visit py35 (Name name Load))
              name h l e fp) as [d0 H]; try assumption.
  - intros handle. apply wrap_call_ok.
  - apply WrapCalls_visit_dispatch.
  - exists d0. intros d Hd.
    destruct (H d Hd) as (l' & h' & Hrun & H1 & H2 & _).
    now exists l', h'.
Qed.

(** A node stands for one tree only. *)
Lemma shape_unique h :
  (forall l e fp, shape h l e fp ->
     forall e' fp', shape h l e' fp' -> e = e')
  /\ (forall ls es fp, shapes h ls es fp ->
     forall es' fp', shapes h ls es' fp' -> es = es')
  /\ (forall ls ks fp, shape_keywords h ls ks fp ->
     forall ks' fp', shape_keywords h ls ks' fp' -> ks = ks')
  /\ (forall lo eo fp, shape_option h lo eo fp ->
     forall eo' fp', shape_option h lo eo' fp' -> eo = eo').
Proof.
  apply shape_mutind; intros;
    match goal with
    | H : shape _ _ ?x _ |- _ = ?x => inversion H; subst; clear H
    | H : shapes _ _ ?x _ |- _ = ?x => inversion H; subst; clear H
    | H : shape_keywords _ _ ?x _ |- _ = ?x => inversion H; subst; clear H
    | H : shape_option _ _ ?x _ |- _ = ?x => inversion H; subst; clear H
    end;
    repeat match goal with
           | H1 : h !! ?l = Some _, H2 : h !! ?l = Some _ |- _ =>
               rewrite H1 in H2; inversion H2; subst; clear H2
           end;
    try reflexivity; repeat f_equal; eauto.
Qed.

Lemma denotes_unique h l e e' : denotes h l e -> denotes h l e' -> e = e'.
Proof.
  intros [fp H] [fp' H']. exact (proj1 (shape_unique h) l e fp H e' fp' H').
Qed.
End determinism.

Section rewrite_in_place.
Import store ast_trace samples.

Lemma nested_heap_tree : tree nested_heap 4 nested_call.
Proof.
  exists [4; 0; 3; 1; 2]. split.
  - apply (shape_Call _ 4 0 [3] [] None None _ _ _ _ _ [0] [3; 1; 2] [] [] []);
      try (now constructor).
    apply (shapes_cons _ 3 [] _ [] [3; 1; 2] []); [|constructor].
    apply (shape_Call _ 3 1 [2] [] None None _ _ _ _ _ [1] [2] [] [] []);
      try (now constructor).
    apply (shapes_cons _ 2 [] _ [] [2] []); now constructor.
  - refine (bool_decide_unpack _ _). vm_compute. exact I.
Qed.

Lemma nested_heap'_tree : tree nested_heap' 0 nested_call.
Proof.
  exists [0; 4; 3; 2; 1]. split.
  - apply (shape_Call _ 0 4 [3] [] None None _ _ _ _ _ [4] [3; 2; 1] [] [] []);
      try (now constructor).
    apply (shapes_cons _ 3 [] _ [] [3; 2; 1] []); [|constructor].
    apply (shape_Call _ 3 2 [1] [] None None _ _ _ _ _ [2] [1] [] [] []);
      try (now constructor).
    apply (shapes_cons _ 1 [] _ [] [1] []); now constructor.
  - refine (bool_decide_unpack _ _). vm_compute. exact I.
Qed.

(** C8. The rewrite is deterministic: on two stores that hold the same
    tree, both transformers return, at any depth that is large enough, a
    node that stands for the same rewritten tree, the one that the
    traversal of trees computes from the input and the name of the
    handle.  It is not free of side effects on its input: afterwards the
    input's root stands for the input with its children rewritten, as
    [generic_visit] assigned them. *)
Theorem rewrite_deterministic_in_place (v : version_info) (py35 : bool)
    (name : string) (e : expr) (h1 h2 : heap) (l1 l2 : loc) :
  tree h1 l1 e -> tree h2 l2 e ->
  exists d0, forall d, d0 <= d ->
    (exists l1' h1' l2' h2',
       store.TraceFunctionCalls.run v name d l1 h1 = Some (l1', h1')
       /\ store.TraceFunctionCalls.run v name d l2 h2 = Some (l2', h2')
       /\ denotes h1' l1'
            (ast_trace.TraceFunctionCalls.visit (ast_has_starred v)
               (Name name Load) e)
       /\ denotes h2' l2'
            (ast_trace.TraceFunctionCalls.visit (ast_has_starred v)
               (Name name Load) e)
       /\ denotes h1' l1
            (ast.NodeTransformer.generic_visit
               (ast_trace.TraceFunctionCalls.visit (ast_has_starred v)
                  (Name name Load)) e))
    /\ (exists l1' h1' l2' h2',
       store.WrapCalls.run py35 name d l1 h1 = Some (l1', h1')
       /\ store.WrapCalls.run py35 name d l2 h2 = Some (l2', h2')
       /\ denotes h1' l1'
            (ast_transform.WrapCalls.visit py35 (Name name Load) e)
       /\ denotes h2' l2'
            (ast_transform.WrapCalls.visit py35 (Name name Load) e)
       /\ denotes h1' l1
            (ast.NodeTransformer.generic_visit
               (ast_transform.WrapCalls.visit py35 (Name name Load)) e)).
Proof.
  intros T1 T2.
  destruct (TraceFunctionCalls_run_refines v name h1 l1 e T1) as [d1 H1].
  destruct (TraceFunctionCalls_run_refines v name h2 l2 e T2) as [d2 H2].
  destruct (WrapCalls_run_refines py35 name h1 l1 e T1) as [d3 H3].
  destruct (WrapCalls_run_refines py35 name h2 l2 e T2) as [d4 H4].
  exists (d1 + d2 + d3 + d4). intros d Hd. split.
  - destruct (H1 d) as (l1' & h1' & R1 & D1 & I1); [lia|].
    destruct (H2 d) as (l2' & h2' & R2 & D2 & _); [lia|].
    now exists l1', h1', l2', h2'.
  - destruct (H3 d) as (l1' & h1' & R1 & D1 & I1); [lia|].
    destruct (H4 d) as (l2' & h2' & R2 & D2 & _); [lia|].
    now exists l1', h1', l2', h2'.
Qed.

Lemma rewrite_deterministic_in_place_witness :
  tree nested_heap 4 nested_call /\ tree nested_heap' 0 nested_call
  /\ exists d0, forall d, d0 <= d ->
    (exists l1' h1' l2' h2',
       store.TraceFunctionCalls.run {| major := 3; minor := 8 |} "tracer"
         d 4 nested_heap = Some (l1', h1')
       /\ store.TraceFunctionCalls.run {| major := 3; minor := 8 |} "tracer"
            d 0 nested_heap' = Some (l2', h2')
       /\ denotes h1' l1'
            (ast_trace.TraceFunctionCalls.visit true (Name "tracer" Load)
               nested_call)
       /\ denotes h2' l2'
            (ast_trace.TraceFunctionCalls.visit true (Name "tracer" Load)
               nested_call)
       /\ denotes h1' 4
            (ast.NodeTransformer.generic_visit
               (ast_trace.TraceFunctionCalls.visit true
                  (Name "tracer" Load)) nested_call))
    /\ (exists l1' h1' l2' h2',
       store.WrapCalls.run true "tracer" d 4 nested_heap = Some (l1', h1')
       /\ store.WrapCalls.run true "tracer" d 0 nested_heap'
          = Some (l2', h2')
       /\ denotes h1' l1'
            (ast_transform.WrapCalls.visit true (Name "tracer" Load)
               nested_call)
       /\ denotes h2' l2'
            (ast_transform.WrapCalls.visit true (Name "tracer" Load)
               nested_call)
       /\ denotes h1' 4
            (ast.NodeTransformer.generic_visit
               (ast_transform.WrapCalls.visit true (Name "tracer" Load))
               nested_call)).
Proof.
  split; [exact nested_heap_tree|]. split; [exact nested_heap'_tree|].
  apply (rewrite_deterministic_in_place {| major := 3; minor := 8 |} true
           "tracer" nested_call nested_heap nested_heap' 4 0).
  - exact nested_heap_tree.
  - exact nested_heap'_tree.
Defined.

Ltac refute_shape :=
  repeat (match goal with
          | H : shape _ _ _ _ |- _ => inversion H; clear H; subst
          | H : shapes _ _ _ _ |- _ => inversion H; clear H; subst
          | H : shape_keywords _ _ _ _ |- _ => inversion H; clear H; subst
          | H : shape_option _ _ _ _ |- _ => inversion H; clear H; subst
          | H : Some _ = Some _ |- _ => inversion H; clear H; subst
          | H : _ = Some _ |- _ => progress vm_compute in H
          end); try discriminate.

(** On [f(g(x))] both transformers assign to the root of their input,
    which then no longer stands for [f(g(x))]. *)
Lemma rewrite_assigns_to_input :
  tree nested_heap 4 nested_call
  /\ (exists l' h',
        store.TraceFunctionCalls.run {| major := 3; minor := 8 |} "tracer"
          10 4 nested_heap = Some (l', h')
        /\ h' !! 4 <> nested_heap !! 4
        /\ ~ denotes h' 4 nested_call)
  /\ (exists l' h',
        store.WrapCalls.run true "wrapper" 10 4 nested_heap = Some (l', h')
        /\ h' !! 4 <> nested_heap !! 4
        /\ ~ denotes h' 4 nested_call).
Proof.
  split; [exact nested_heap_tree|]. split.
  - eexists _, _. split; [vm_compute; reflexivity|]. split.
    + vm_compute. discriminate.
    + intros [fp H]. unfold nested_call in H. refute_shape.
  - eexists _, _. split; [vm_compute; reflexivity|]. split.
    + vm_compute. discriminate.
    + intros [fp H]. unfold nested_call in H. refute_shape.
Qed.
End rewrite_in_place.

(** ** Semantic transparency of the call rewriter *)

Section alike_facts.
Import host.
Variable hs : bool.
Variable t : string.

Local Abbreviation sg := (same_globals hs t).

Lemma alike_ret {A : Type} (lead : bool) (R : A -> A -> Prop) (a a' : A) :
  R a a' -> alike hs t lead R (mret a) (mret a').
Proof. intros HR w w' Hw _. split; [exact HR|exact Hw]. Qed.

Lemma alike_raise {A : Type} (lead : bool) (R : A -> A -> Prop)
    (x x' : exn) :
  same_exn x x' -> alike hs t lead R (raise x) (raise x').
Proof. intros Hx w w' Hw _. split; [exact Hx|exact Hw]. Qed.

Lemma alike_bind {A B : Type} (lead : bool) (R : A -> A -> Prop)
    (S : B -> B -> Prop) (c c' : M A) (k k' : A -> M B) :
  alike hs t lead R c c' ->
  (forall a a', R a a' -> alike hs t lead S (k a) (k' a')) ->
  alike hs t lead S (c ≫= k) (c' ≫= k').
Proof.
  intros Hc Hk w w' Hw Hends. specialize (Hc w w' Hw).
  unfold mbind, M_bind, ends, same_end in *.
  destruct (c w) as [[a|x|] w1], (c' w') as [[a'|x'|] w1'];
    destruct lead; cbn [fst snd] in *;
    try (destruct Hc as [Ho Hg]; [discriminate|]);
    try contradiction; try (now destruct Hends);
    try (apply Hk; assumption);
    try (split; assumption).
Qed.

Lemma refines_refl {A : Type} (lead : bool) (c : M A) : refines t lead c c.
Proof. intros w' _. now left. Qed.

Lemma refines_bind {A B : Type} (lead : bool) (c1 c2 : M A)
    (k : A -> M B) :
  refines t lead c1 c2 -> refines t lead (c1 ≫= k) (c2 ≫= k).
Proof.
  intros Hr w' Hw. unfold mbind, M_bind.
  destruct (Hr w' Hw) as [E|[Hl E]].
  - left. now rewrite E.
  - right. split; [exact Hl|].
    destruct (c1 w') as [[a|x|] w1]; try discriminate. reflexivity.
Qed.

Lemma alike_refines {A : Type} (lead : bool) (R : A -> A -> Prop)
    (c c1 c2 : M A) :
  refines t lead c1 c2 -> alike hs t lead R c c2 -> alike hs t lead R c c1.
Proof.
  intros Hr Hc w w' Hw Hends.
  destruct (Hr w' (proj1 Hw)) as [E|[-> E]].
  - rewrite E. apply Hc; [exact Hw|].
    destruct lead; [exact Hends|now rewrite <- E].
  - exfalso. now apply Hends.
Qed.

(** The same computation, written in another way. *)
Lemma alike_ext {A : Type} (lead : bool) (R : A -> A -> Prop)
    (c1 c2 c1' c2' : M A) :
  (forall w, c1 w = c2 w) -> (forall w, c1' w = c2' w) ->
  alike hs t lead R c2 c2' -> alike hs t lead R c1 c1'.
Proof.
  intros E E' Hc w w' Hw Hends. rewrite E, E'. apply Hc; [exact Hw|].
  destruct lead; [now rewrite <- E|now rewrite <- E'].
Qed.

Lemma bind_assoc {A B C : Type} (c : M A) (k1 : A -> M B)
    (k2 : B -> M C) (w : list (string * value)) :
  ((c ≫= k1) ≫= k2) w = (c ≫= (fun a => k1 a ≫= k2)) w.
Proof. unfold mbind, M_bind. now destruct (c w) as [[a|x|] w1]. Qed.
End alike_facts.

Section value_facts.
Import ast_transform ast_trace host.
Variable hs : bool.
Variable t : string.

Local Abbreviation sv := (same_value hs t).
Local Abbreviation si := (same_items hs t).
Local Abbreviation sl := (same_locals hs t).

Lemma same_items_keys kw kw' : si kw kw' -> kw.*1 = kw'.*1.
Proof.
  induction 1 as [|[k v] [k' v'] xs ys [Hk _] _ IH]; [reflexivity|].
  rewrite !fmap_cons. simpl in Hk. now rewrite Hk, IH.
Qed.

Lemma same_items_getitem kw kw' id :
  si kw kw' -> option_Forall2 sv (getitem id kw) (getitem id kw').
Proof.
  induction 1 as [|[k v] [k' v'] xs ys [Hk Hv] _ IH]; [constructor|].
  simpl in *. subst k'. destruct (decide (k = id)); [now constructor|exact IH].
Qed.

Lemma same_items_app a a' b b' : si a a' -> si b b' -> si (a ++ b) (a' ++ b').
Proof. apply Forall2_app. Qed.

Lemma iterate_alike lead d d' v v' :
  sv v v' ->
  alike hs t lead (Forall2 sv) (iterate d v) (iterate d' v').
Proof.
  intros H. destruct H as [n|s|xs ys H|xs ys H|name|]; simpl;
    try (now apply alike_raise); apply alike_ret; auto.
  - induction (String.list_ascii_of_string s); constructor; auto.
    constructor.
  - induction H as [|x y xs ys [Hk _] _ IH]; constructor; auto.
    rewrite Hk. constructor.
Qed.

Lemma mapping_alike lead d d' v v' :
  sv v v' -> alike hs t lead si (mapping d v) (mapping d' v').
Proof.
  intros H. destruct H; simpl; try (now apply alike_raise).
  now apply alike_ret.
Qed.

Lemma getitem_app {V : Type} (id : string) (a b : list (string * V)) :
  getitem id (a ++ b)
  = match getitem id a with Some v => Some v | None => getitem id b end.
Proof.
  induction a as [|[k v] a IH]; [reflexivity|]. simpl.
  now destruct (decide (k = id)).
Qed.

Lemma lookup_all_keys (kw : list (string * value)) l b :
  mapM (fun p => v ← getitem p kw; Some (p, v)) l = Some b -> b.*1 = l.
Proof.
  revert b. induction l as [|q l IHl]; intros b; simpl.
  - now intros [= <-].
  - destruct (getitem q kw) as [v|]; simpl; [|discriminate].
    destruct (mapM _ l) as [r|]; simpl; [|discriminate].
    intros [= <-]. rewrite fmap_cons. simpl. f_equal. now apply IHl.
Qed.

Lemma bind_params_keys ps args kw b :
  bind_params ps args kw = Some b -> b.*1 = ps.
Proof.
  revert args b. induction ps as [|p ps IH]; intros [|a args] b; simpl.
  - destruct (forallb _ _); [|discriminate]. now intros [= <-].
  - discriminate.
  - destruct (forallb _ _); [|discriminate].
    apply (lookup_all_keys kw (p :: ps)).
  - destruct (contains p kw); [discriminate|].
    destruct (bind_params ps args kw) as [r|] eqn:E; simpl; [|discriminate].
    intros [= <-]. rewrite fmap_cons. simpl. f_equal. now apply (IH args).
Qed.

Lemma bind_params_same ps args args' kw kw' :
  Forall2 sv args args' -> si kw kw' ->
  option_Forall2 si (bind_params ps args kw) (bind_params ps args' kw').
Proof.
  intros Ha Hk. pose proof (same_items_keys _ _ Hk) as Hkeys.
  revert args args' Ha.
  assert (Hrest : forall l,
    option_Forall2 si
      (mapM (fun p => v ← getitem p kw; Some (p, v)) l)
      (mapM (fun p => v ← getitem p kw'; Some (p, v)) l)).
  { induction l as [|q l IHl]; simpl; [repeat constructor|].
    destruct (same_items_getitem _ _ q Hk) as [v v' Hv|]; simpl;
      [|constructor].
    destruct IHl as [r r' Hr|]; simpl; constructor.
    constructor; auto. }
  induction ps as [|p ps IH]; intros args args' Ha;
    destruct Ha as [|a a' args args' Ha Hargs]; simpl.
  - rewrite <- Hkeys. destruct (forallb _ _); [apply (Hrest [])|constructor].
  - constructor.
  - rewrite <- Hkeys.
    destruct (forallb _ _); [apply (Hrest (p :: ps))|constructor].
  - unfold contains. rewrite <- Hkeys.
    destruct (bool_decide (p ∈ kw.*1)); [constructor|].
    destruct (IH _ _ Hargs) as [r r' Hr|]; simpl; constructor.
    constructor; auto.
Qed.

Lemma same_locals_app b b' ns ns' :
  si b b' -> t ∉ b.*1 -> sl ns ns' -> sl (b ++ ns) (b' ++ ns').
Proof.
  intros Hb Ht [Htr Hns]. split.
  - rewrite getitem_app.
    assert (E : getitem t b' = None).
    { apply getitem_None. now rewrite <- (same_items_keys _ _ Hb). }
    now rewrite E.
  - intros id Hid. rewrite !getitem_app.
    destruct (same_items_getitem _ _ id Hb); [now constructor|auto].
Qed.

Lemma lookup_alike lead id ns ns' :
  sl ns ns' -> id <> t ->
  alike hs t lead sv (lookup id ns) (lookup id ns').
Proof.
  intros [_ Hns] Hid w w' Hw _. unfold lookup, same_end.
  destruct (Hns id Hid) as [v v' Hv|]; [now split|].
  destruct (proj2 Hw id Hid) as [v v' Hv|]; now split.
Qed.

Lemma plain_same v :
  forall v', sv v v' -> plain v = true \/ plain v' = true -> v = v'.
Proof.
  induction v as [n|s|items IH|items IH|globals _ params body|name| |name
                 |func _]; intros v' H Hp; inversion H; subst;
    try reflexivity; try apply list_all_Forall in IH.
  - f_equal. cbn [plain] in Hp.
    match goal with H : Forall2 _ items _ |- _ => rename H into HF end.
    clear H. induction HF as [|x y xs ys Hxy _ IHF]; [reflexivity|].
    inversion IH as [|? ? Hx Hxs]; subst. cbn [forallb] in Hp.
    f_equal.
    + apply Hx; [exact Hxy|]. destruct Hp as [Hp|Hp];
        apply andb_prop in Hp as [Hp _]; auto.
    + apply IHF; [exact Hxs|]. destruct Hp as [Hp|Hp];
        apply andb_prop in Hp as [_ Hp]; auto.
  - f_equal. cbn [plain] in Hp.
    match goal with H : Forall2 _ items _ |- _ => rename H into HF end.
    clear H. induction HF as [|[k x] [k' y] xs ys [Hk Hxy] _ IHF];
      [reflexivity|].
    inversion IH as [|? Hx ? Hxs]; subst. cbn [forallb] in Hp.
    inversion Hx as [? _ ? Hx']; subst. simpl in Hk, Hxy. subst k'.
    f_equal.
    + f_equal. apply Hx'; [exact Hxy|]. destruct Hp as [Hp|Hp];
        apply andb_prop in Hp as [Hp _]; auto.
    + apply IHF; [exact Hxs|]. destruct Hp as [Hp|Hp];
        apply andb_prop in Hp as [_ Hp]; auto.
  - cbn [plain] in Hp. now destruct Hp.
Qed.
End value_facts.

Section tracer_facts.
Import ast_transform ast_trace host.
Variable hs : bool.
Variable t : string.
Variable lead : bool.
Variable H : host.
Variable call' : value -> list value -> list (string * value) -> M value.
Variable ns' : list (string * value).
Hypothesis tracer_free : getitem t ns' = None.
Hypothesis ready : tracer_ready lead call'.

Local Abbreviation T := (Name t Load).
Local Abbreviation ev' := (eval_expr H call' ns').

Lemma eval_arg_plain (f : expr -> M value) d x :
  is_Starred x = false -> eval_arg f d x = (v ← f x; mret [v]).
Proof. now destruct x. Qed.

Lemma trace_argument_plain x name nstars :
  is_Starred x = false ->
  TraceFunctionCalls.trace_argument hs T x name nstars
  = Call (TraceFunctionCalls.trace_method T "trace_argument")
         ([x] ++ match truthy_name name with
                 | Some name => [Str name]
                 | None => []
                 end)
         match nstars with
         | O => []
         | _ => [Keyword (Some "nstars") (Num (Z.of_nat nstars))]
         end None None.
Proof.
  intros Hx. unfold TraceFunctionCalls.trace_argument. rewrite Hx.
  rewrite andb_false_r. unfold to_call. now destruct x.
Qed.

Lemma trace_argument_Starred x ctx name nstars :
  is_Starred x = false ->
  TraceFunctionCalls.trace_argument true T (Starred x ctx) name nstars
  = Starred
      (Call (TraceFunctionCalls.trace_method T "trace_argument")
            ([x] ++ match truthy_name name with
                    | Some name => [Str name]
                    | None => []
                    end)
            [Keyword (Some "nstars") (Num 1)] None None) Load.
Proof. reflexivity. Qed.

Lemma eval_trace_method m w' :
  m ∈ tracer_methods -> getitem t w' = Some VTracer ->
  ev' (TraceFunctionCalls.trace_method T m) w' = (Return (VTracerMethod m), w').
Proof.
  intros Hm Hw. unfold TraceFunctionCalls.trace_method, to_attribute.
  cbn [eval_expr]. unfold mbind, M_bind, lookup.
  rewrite tracer_free, Hw. unfold getattr.
  now rewrite bool_decide_true.
Qed.

Lemma tracer_method_trace_argument : "trace_argument" ∈ tracer_methods.
Proof. unfold tracer_methods. rewrite !elem_of_cons. auto. Qed.

Lemma tracer_method_trace_function : "trace_function" ∈ tracer_methods.
Proof. unfold tracer_methods. rewrite !elem_of_cons. auto. Qed.

Lemma tracer_method_trace_return : "trace_return" ∈ tracer_methods.
Proof. unfold tracer_methods. rewrite !elem_of_cons. auto. Qed.

(** [tracer.trace_argument(x, ...)] evaluates to the value of [x]. *)
Lemma eval_trace_argument_call x (extra : list string) (stars : list Z) w' :
  is_Starred x = false ->
  (length extra + length stars <= 2)%nat ->
  (length stars <= 1)%nat ->
  getitem t w' = Some VTracer ->
  ev' (Call (TraceFunctionCalls.trace_method T "trace_argument")
            ([x] ++ map Str extra)
            (map (fun n => Keyword (Some "nstars") (Num n)) stars)
            None None) w'
  = (v ← ev' x;
     call' (VTracerMethod "trace_argument") (v :: map VStr extra)
           (map (fun n => ("nstars", VInt n)) stars)) w'.
Proof.
  intros Hx Hlen Hstars Hw. cbn [eval_expr]. unfold eval_Call.
  unfold mbind at 1. unfold M_bind at 1.
  rewrite (eval_trace_method _ _ tracer_method_trace_argument Hw).
  cbn [app eval_args]. rewrite (eval_arg_plain _ _ _ Hx).
  unfold mbind, M_bind.
  destruct (ev' x w') as [[v|e|] w1]; [|reflexivity..].
  destruct extra as [|e1 [|e2 [|e3 extra]]];
    destruct stars as [|s1 [|s2 stars]]; simpl in Hlen, Hstars; try lia;
    reflexivity.
Qed.

Lemma refines_trace_argument_call x (extra : list string) (stars : list Z) :
  is_Starred x = false ->
  (length extra + length stars <= 2)%nat ->
  (length stars <= 1)%nat ->
  refines t lead
    (ev' (Call (TraceFunctionCalls.trace_method T "trace_argument")
               ([x] ++ map Str extra)
               (map (fun n => Keyword (Some "nstars") (Num n)) stars)
               None None))
    (ev' x).
Proof.
  intros Hx Hlen Hstars w' Hw.
  rewrite (eval_trace_argument_call x extra stars w' Hx Hlen Hstars Hw).
  unfold mbind, M_bind.
  destruct (ev' x w') as [[v|e|] w1]; [|now left..].
  assert (Hv : tracer_call "trace_argument" (v :: map VStr extra)
                 (map (fun n => ("nstars", VInt n)) stars) w1
               = (Return v, w1)).
  { destruct extra as [|e1 [|e2 [|e3 extra]]];
      destruct stars as [|s1 [|s2 stars]]; simpl in Hlen, Hstars; try lia;
      reflexivity. }
  destruct ready as [Hr|[Hl Hr]].
  - left. now rewrite Hr.
  - right. split; [exact Hl|apply Hr].
Qed.

Lemma refines_trace_argument x name nstars :
  is_Starred x = false -> (nstars <= 2)%nat ->
  refines t lead (ev' (TraceFunctionCalls.trace_argument hs T x name nstars))
          (ev' x).
Proof.
  intros Hx Hn. rewrite (trace_argument_plain _ _ _ Hx).
  destruct (truthy_name name) as [s|];
    destruct nstars as [|[|[|n]]]; try lia.
  - exact (refines_trace_argument_call x [s] [] Hx
             ltac:(simpl; lia) ltac:(simpl; lia)).
  - exact (refines_trace_argument_call x [s] [1%Z] Hx
             ltac:(simpl; lia) ltac:(simpl; lia)).
  - exact (refines_trace_argument_call x [s] [2%Z] Hx
             ltac:(simpl; lia) ltac:(simpl; lia)).
  - exact (refines_trace_argument_call x [] [] Hx
             ltac:(simpl; lia) ltac:(simpl; lia)).
  - exact (refines_trace_argument_call x [] [1%Z] Hx
             ltac:(simpl; lia) ltac:(simpl; lia)).
  - exact (refines_trace_argument_call x [] [2%Z] Hx
             ltac:(simpl; lia) ltac:(simpl; lia)).
Qed.

Lemma refines_arg_trace_argument x d :
  is_Starred x = false ->
  refines t lead
    (eval_arg ev' d (TraceFunctionCalls.trace_argument hs T x None 0))
    (eval_arg ev' d x).
Proof.
  intros Hx. rewrite (eval_arg_plain _ _ x Hx).
  rewrite eval_arg_plain
    by (now rewrite (trace_argument_plain _ None 0 Hx)).
  apply refines_bind. apply refines_trace_argument; [exact Hx|lia].
Qed.

Lemma refines_arg_trace_argument_Starred x ctx d :
  is_Starred x = false ->
  refines t lead
    (eval_arg ev' d
       (TraceFunctionCalls.trace_argument true T (Starred x ctx) None 0))
    (eval_arg ev' d (Starred x ctx)).
Proof.
  intros Hx. rewrite (trace_argument_Starred _ _ _ _ Hx).
  cbn [eval_arg]. apply refines_bind.
  exact (refines_trace_argument_call x [] [1%Z] Hx
           ltac:(simpl; lia) ltac:(simpl; lia)).
Qed.

(** [tracer.trace_return(x)] evaluates to the value of [x]. *)
Lemma refines_trace_return x :
  is_Starred x = false ->
  refines t lead (ev' (TraceFunctionCalls.trace_return T x)) (ev' x).
Proof.
  intros Hx w' Hw.
  assert (E : ev' (TraceFunctionCalls.trace_return T x) w'
              = (v ← ev' x; call' (VTracerMethod "trace_return") [v] []) w').
  { unfold TraceFunctionCalls.trace_return, to_call.
    cbn [eval_expr]. unfold eval_Call.
    unfold mbind at 1. unfold M_bind at 1.
    rewrite (eval_trace_method _ _ tracer_method_trace_return Hw).
    cbn [eval_args]. rewrite (eval_arg_plain _ _ _ Hx).
    unfold mbind, M_bind.
    now destruct (ev' x w') as [[v|e|] w1]. }
  rewrite E. unfold mbind, M_bind.
  destruct (ev' x w') as [[v|e|] w1]; [|now left..].
  destruct ready as [Hr|[Hl Hr]].
  - left. now rewrite Hr.
  - right. split; [exact Hl|apply Hr].
Qed.

(** [tracer.trace_function(x, n)] evaluates to a wrapper of the value
    of [x]. *)
Lemma refines_trace_function x n :
  is_Starred x = false ->
  refines t lead (ev' (TraceFunctionCalls.trace_function T x n))
          (f ← ev' x; mret (VTraced f)).
Proof.
  intros Hx w' Hw.
  assert (E : ev' (TraceFunctionCalls.trace_function T x n) w'
              = (v ← ev' x;
                 call' (VTracerMethod "trace_function")
                       [v; VInt (Z.of_nat n)] []) w').
  { unfold TraceFunctionCalls.trace_function, to_call.
    cbn [eval_expr]. unfold eval_Call.
    unfold mbind at 1. unfold M_bind at 1.
    rewrite (eval_trace_method _ _ tracer_method_trace_function Hw).
    cbn [eval_args]. rewrite (eval_arg_plain _ _ _ Hx).
    unfold mbind, M_bind.
    now destruct (ev' x w') as [[v|e|] w1]. }
  rewrite E. unfold mbind, M_bind.
  destruct (ev' x w') as [[v|e|] w1]; [|now left..].
  destruct ready as [Hr|[Hl Hr]].
  - left. now rewrite Hr.
  - right. split; [exact Hl|apply Hr].
Qed.
End tracer_facts.

Section rewrite_facts.
Import ast_transform ast_trace host.
Variable hs : bool.
Variable t : string.
Variable lead : bool.
Variable H : host.
Hypothesis host_uniform : uniform hs t H.
Variables call call' :
  value -> list value -> list (string * value) -> M value.
Hypothesis call_alike : callers_alike hs t lead call call'.
Hypothesis wrapped_alike : traced_alike hs t lead call call'.
Hypothesis ready : tracer_ready lead call'.

Local Abbreviation T := (Name t Load).
Local Abbreviation rw := (TraceFunctionCalls.visit hs T).
Local Abbreviation sv := (same_value hs t).
Local Abbreviation si := (same_items hs t).
Local Abbreviation sl := (same_locals hs t).
Local Abbreviation unstar e :=
  (match e with Starred x _ => x | other => other end).

(** The evaluation of [e] and of its rewritten form end the same. *)
Local Abbreviation Main e :=
  (forall ns ns', sl ns ns' -> t ∉ names e -> well_formed hs e = true ->
     alike hs t lead sv (eval_expr H call ns e)
           (eval_expr H call' ns' (rw e))).

(** The same for [e] as an entry of [args]. *)
Local Abbreviation Arg e :=
  (forall ns ns' d d', sl ns ns' -> t ∉ names e ->
     match e with
     | Starred x _ => hs && well_formed hs x
     | _ => well_formed hs e
     end = true ->
     alike hs t lead (Forall2 sv)
       (eval_arg (eval_expr H call ns) d e)
       (eval_arg (eval_expr H call' ns') d'
          (TraceFunctionCalls.trace_argument hs T (rw e) None 0))).

(** The same for an entry of [keywords]. *)
Local Abbreviation Kw kw :=
  (forall ns ns' d d', sl ns ns' -> t ∉ names (kw_value kw) ->
     well_formed hs (kw_value kw) = true ->
     alike hs t lead si
       (eval_keyword (eval_expr H call ns) d kw)
       (eval_keyword (eval_expr H call' ns') d'
          (Keyword (kw_arg kw)
             (TraceFunctionCalls.trace_argument hs T (rw (kw_value kw))
                (kw_arg kw) (if kw_arg kw is None then 2 else 0))))).

(** The same for [e] as a child of a node of another class. *)
Local Abbreviation Child e :=
  (forall ns ns', sl ns ns' -> t ∉ names e ->
     well_formed hs (unstar e) = true ->
     alike hs t lead sv
       (eval_expr H call ns (unstar e))
       (eval_expr H call' ns' (unstar (rw e)))).

Lemma well_formed_not_Starred e :
  well_formed hs e = true -> is_Starred e = false.
Proof. now destruct e. Qed.

Lemma rewritten_not_Starred e :
  well_formed hs e = true -> is_Starred (rw e) = false.
Proof.
  intros Hwf. rewrite TraceFunctionCalls_visit_is_Starred.
  now apply well_formed_not_Starred.
Qed.

Lemma Main_Arg e : Main e -> is_Starred e = false -> Arg e.
Proof.
  intros HM Hst ns ns' d d' Hns Hfresh Hwf.
  assert (Hwf' : well_formed hs e = true) by (now destruct e).
  apply (alike_refines hs t lead _ _ _
           (eval_arg (eval_expr H call' ns') d' (rw e))).
  { apply refines_arg_trace_argument; [exact (proj1 Hns)|exact ready|].
    now apply rewritten_not_Starred. }
  rewrite (eval_arg_plain _ _ e Hst).
  rewrite (eval_arg_plain _ _ (rw e)) by now apply rewritten_not_Starred.
  apply (alike_bind hs t lead sv); [now apply HM|].
  intros a a' Ha. apply alike_ret. now constructor.
Qed.

Lemma Main_Child e : Main e -> is_Starred e = false -> Child e.
Proof.
  intros HM Hst ns ns' Hns Hfresh Hwf.
  assert (E : unstar e = e) by (now destruct e).
  assert (E' : unstar (rw e) = rw e).
  { pose proof (TraceFunctionCalls_visit_is_Starred hs T e) as Hs.
    rewrite Hst in Hs. now destruct (rw e). }
  rewrite E in Hwf |- *. rewrite E'. now apply HM.
Qed.

Lemma Starred_Arg x ctx : Main x -> Arg (Starred x ctx).
Proof.
  intros HM ns ns' d d' Hns Hfresh Hwf.
  apply andb_prop in Hwf as [Hhs Hwf].
  change (rw (Starred x ctx)) with (Starred (rw x) ctx).
  assert (E : TraceFunctionCalls.trace_argument hs T (Starred (rw x) ctx)
                None 0
              = TraceFunctionCalls.trace_argument true T
                  (Starred (rw x) ctx) None 0) by (now rewrite Hhs).
  rewrite E.
  apply (alike_refines hs t lead _ _ _
           (eval_arg (eval_expr H call' ns') d' (Starred (rw x) ctx))).
  { apply refines_arg_trace_argument_Starred;
      [exact (proj1 Hns)|exact ready|].
    now apply rewritten_not_Starred. }
  cbn [eval_arg]. apply (alike_bind hs t lead sv); [now apply HM|].
  intros a a' Ha. now apply iterate_alike.
Qed.

Lemma Starred_Child x ctx : Main x -> Child (Starred x ctx).
Proof. intros HM ns ns' Hns Hfresh Hwf. now apply HM. Qed.

Lemma Keyword_Kw arg x : Main x -> Kw (Keyword arg x).
Proof.
  intros HM ns ns' d d' Hns Hfresh Hwf. cbn [kw_arg kw_value] in *.
  pose proof (rewritten_not_Starred _ Hwf) as Hst.
  destruct arg as [name|]; cbn [eval_keyword].
  - apply (alike_refines hs t lead _ _ _
             (v ← eval_expr H call' ns' (rw x); mret [(name, v)])).
    { apply refines_bind.
      apply refines_trace_argument;
        [exact (proj1 Hns)|exact ready|exact Hst|lia]. }
    apply (alike_bind hs t lead sv); [now apply HM|].
    intros a a' Ha. apply alike_ret. constructor; [now split|constructor].
  - apply (alike_refines hs t lead _ _ _
             (v ← eval_expr H call' ns' (rw x); mapping d' v)).
    { apply refines_bind.
      apply refines_trace_argument;
        [exact (proj1 Hns)|exact ready|exact Hst|lia]. }
    apply (alike_bind hs t lead sv); [now apply HM|].
    intros a a' Ha. now apply mapping_alike.
Qed.

Lemma eval_args_alike args :
  Forall (fun e => Arg e) args ->
  forall ns ns' d d', sl ns ns' -> t ∉ concat (map names args) ->
  forallb (fun arg => match arg with
                      | Starred x _ => hs && well_formed hs x
                      | _ => well_formed hs arg
                      end) args = true ->
  alike hs t lead (Forall2 sv)
    (eval_args (eval_expr H call ns) d args)
    (eval_args (eval_expr H call' ns') d'
       (map (fun a => TraceFunctionCalls.trace_argument hs T (rw a) None 0)
            args)).
Proof.
  induction 1 as [|a args Ha _ IH]; intros ns ns' d d' Hns Hfresh Hwf.
  - apply alike_ret. constructor.
  - cbn [map concat] in Hfresh. apply not_elem_of_app in Hfresh as [H1 H2].
    cbn [forallb] in Hwf. apply andb_prop in Hwf as [H3 H4].
    cbn [map eval_args].
    apply (alike_bind hs t lead (Forall2 sv)); [now apply Ha|].
    intros xs xs' Hxs.
    apply (alike_bind hs t lead (Forall2 sv)); [now apply IH|].
    intros ys ys' Hys. apply alike_ret. now apply Forall2_app.
Qed.

Lemma eval_keywords_alike kws :
  Forall (fun kw => Kw kw) kws ->
  forall ns ns' d d', sl ns ns' ->
  t ∉ concat (map (fun kw => names (kw_value kw)) kws) ->
  forallb (fun kw => well_formed hs (kw_value kw)) kws = true ->
  alike hs t lead si
    (eval_keywords (eval_expr H call ns) d kws)
    (eval_keywords (eval_expr H call' ns') d'
       (map (fun kw => Keyword (kw_arg kw)
               (TraceFunctionCalls.trace_argument hs T (rw (kw_value kw))
                  (kw_arg kw) (if kw_arg kw is None then 2 else 0)))
            kws)).
Proof.
  induction 1 as [|a kws Ha _ IH]; intros ns ns' d d' Hns Hfresh Hwf.
  - apply alike_ret. constructor.
  - cbn [map concat] in Hfresh. apply not_elem_of_app in Hfresh as [H1 H2].
    cbn [forallb] in Hwf. apply andb_prop in Hwf as [H3 H4].
    cbn [map eval_keywords].
    apply (alike_bind hs t lead si); [now apply Ha|].
    intros xs xs' Hxs.
    apply (alike_bind hs t lead si); [now apply IH|].
    intros ys ys' Hys. apply alike_ret. now apply Forall2_app.
Qed.

Lemma eval_starargs_alike sa :
  (forall x, sa = Some x -> Main x) ->
  forall ns ns' d d', sl ns ns' -> t ∉ from_option names [] sa ->
  from_option (fun x => negb hs && well_formed hs x) true sa = true ->
  alike hs t lead (Forall2 sv)
    (eval_starargs (eval_expr H call ns) d sa)
    (eval_starargs (eval_expr H call' ns') d'
       (if hs then None
        else option_map
               (fun s => TraceFunctionCalls.trace_argument hs T s None 1)
               (option_map rw sa))).
Proof.
  intros HM ns ns' d d' Hns Hfresh Hwf. destruct sa as [x|]; simpl in *.
  - apply andb_prop in Hwf as [Hhs Hwf].
    apply negb_true_iff in Hhs. rewrite (if_false_eq _ _ _ Hhs).
    cbn [eval_starargs].
    apply (alike_refines hs t lead _ _ _
             (v ← eval_expr H call' ns' (rw x); iterate d' v)).
    { apply refines_bind.
      apply refines_trace_argument;
        [exact (proj1 Hns)|exact ready
        |now apply rewritten_not_Starred|lia]. }
    apply (alike_bind hs t lead sv); [now apply (HM x)|].
    intros a a' Ha. now apply iterate_alike.
  - rewrite Tauto.if_same. apply alike_ret. constructor.
Qed.

Lemma eval_kwargs_alike ka :
  (forall x, ka = Some x -> Main x) ->
  forall ns ns' d d', sl ns ns' -> t ∉ from_option names [] ka ->
  from_option (fun x => negb hs && well_formed hs x) true ka = true ->
  alike hs t lead si
    (eval_kwargs (eval_expr H call ns) d ka)
    (eval_kwargs (eval_expr H call' ns') d'
       (if hs then None
        else option_map
               (fun k => TraceFunctionCalls.trace_argument hs T k None 2)
               (option_map rw ka))).
Proof.
  intros HM ns ns' d d' Hns Hfresh Hwf. destruct ka as [x|]; simpl in *.
  - apply andb_prop in Hwf as [Hhs Hwf].
    apply negb_true_iff in Hhs. rewrite (if_false_eq _ _ _ Hhs).
    cbn [eval_kwargs].
    apply (alike_refines hs t lead _ _ _
             (v ← eval_expr H call' ns' (rw x); mapping d' v)).
    { apply refines_bind.
      apply refines_trace_argument;
        [exact (proj1 Hns)|exact ready
        |now apply rewritten_not_Starred|lia]. }
    apply (alike_bind hs t lead sv); [now apply (HM x)|].
    intros a a' Ha. now apply mapping_alike.
  - rewrite Tauto.if_same. apply alike_ret. constructor.
Qed.

Lemma Call_Main f args kws sa ka :
  Main f -> Forall (fun e => Arg e) args -> Forall (fun kw => Kw kw) kws ->
  (forall x, sa = Some x -> Main x) -> (forall x, ka = Some x -> Main x) ->
  Main (Call f args kws sa ka).
Proof.
  intros Hf Hargs Hkws Hsa Hka ns ns' Hns Hfresh Hwf.
  cbn [names] in Hfresh. rewrite !not_elem_of_app in Hfresh.
  destruct Hfresh as (N1 & N2 & N3 & N4 & N5).
  cbn [well_formed] in Hwf.
  apply andb_prop in Hwf as [Hwf S5].
  apply andb_prop in Hwf as [Hwf S4].
  apply andb_prop in Hwf as [Hwf S3].
  apply andb_prop in Hwf as [S1 S2].
  rewrite TraceFunctionCalls_visit_Call_eq. cbv zeta.
  eapply alike_refines.
  { apply refines_trace_return;
      [exact (proj1 Hns)|exact ready|reflexivity]. }
  cbn [eval_expr]. unfold eval_Call.
  eapply alike_refines.
  { apply refines_bind. apply refines_trace_function;
      [exact (proj1 Hns)|exact ready|now apply rewritten_not_Starred]. }
  eapply alike_ext;
    [intros w; reflexivity|intros w; apply bind_assoc|].
  apply (alike_bind hs t lead sv); [now apply Hf|].
  intros fv fv' Hfv.
  eapply alike_ext; [intros w; reflexivity|intros w; reflexivity|].
  apply (alike_bind hs t lead (Forall2 sv)); [now apply eval_args_alike|].
  intros pos pos' Hpos.
  apply (alike_bind hs t lead si); [now apply eval_keywords_alike|].
  intros kw kw' Hkw.
  apply (alike_bind hs t lead (Forall2 sv)); [now apply eval_starargs_alike|].
  intros star star' Hstar.
  apply (alike_bind hs t lead si); [now apply eval_kwargs_alike|].
  intros dstar dstar' Hdstar.
  pose proof (same_items_app _ _ _ _ _ _ Hkw Hdstar) as Hall.
  rewrite <- (same_items_keys _ _ _ _ Hall).
  destruct (bool_decide (NoDup (kw ++ dstar).*1));
    [|now apply alike_raise].
  apply wrapped_alike; [assumption| |assumption].
  now apply Forall2_app.
Qed.

Lemma getattr_alike v v' attr :
  sv v v' -> alike hs t lead sv (getattr H v attr) (getattr H v' attr).
Proof.
  intros Hv. pose proof (proj1 (proj2 (host_uniform lead)) v v' attr Hv) as Ha.
  now destruct Hv.
Qed.

Lemma option_all_Some {A : Type} (P : A -> Prop) (o : option A) :
  option_all A P o -> forall x, o = Some x -> P x.
Proof. intros HP x ->. now inversion HP. Qed.

Lemma Node_Main kind children :
  Forall (fun e => Child e) children -> Main (Node kind children).
Proof.
  intros Hch ns ns' Hns Hfresh Hwf.
  change (rw (Node kind children)) with (Node kind (map rw children)).
  cbn [eval_expr names well_formed] in *.
  apply (proj2 (proj2 (host_uniform lead))); [exact call_alike| |exact Hns].
  rewrite map_map. clear Hns.
  induction Hch as [|c children Hc _ IH]; [constructor|].
  cbn [map concat] in Hfresh. apply not_elem_of_app in Hfresh as [H1 H2].
  cbn [forallb] in Hwf. apply andb_prop in Hwf as [H3 H4].
  cbn [map]. constructor; [|now apply IH].
  split; [reflexivity|]. split; [exact H1|]. split.
  - cbn [fst]. now destruct c.
  - intros ms ms' Hms. cbn [snd].
    assert (E : well_formed hs (unstar c) = true) by (now destruct c).
    pose proof (Hc ms ms' Hms H1 E) as Hc'.
    pose proof (TraceFunctionCalls_visit_is_Starred hs T c) as Hs.
    destruct c; try exact Hc';
      destruct (rw _) eqn:Erw; try discriminate Hs; exact Hc'.
Qed.

Lemma eval_expr_alike e : Main e /\ Arg e /\ Child e.
Proof.
  induction e as [id ctx|n|s|x IH attr ctx|x IH ctx
                 |f IHf args IHargs kws IHkws sa IHsa ka IHka
                 |ps body IH|kind children IH|arg x IH]
    using expr_keyword_ind with (P0 := fun kw => Kw kw).
  - assert (HM : Main (Name id ctx)).
    { intros ns ns' Hns Hfresh _. cbn [names] in Hfresh.
      apply not_elem_of_cons in Hfresh as [Hid _].
      change (rw (Name id ctx)) with (Name id ctx). cbn [eval_expr].
      now apply lookup_alike. }
    split; [exact HM|]. split; [now apply Main_Arg|now apply Main_Child].
  - assert (HM : Main (Num n)) by (intros; apply alike_ret; constructor).
    split; [exact HM|]. split; [now apply Main_Arg|now apply Main_Child].
  - assert (HM : Main (Str s)) by (intros; apply alike_ret; constructor).
    split; [exact HM|]. split; [now apply Main_Arg|now apply Main_Child].
  - assert (HM : Main (Attribute x attr ctx)).
    { intros ns ns' Hns Hfresh Hwf.
      change (rw (Attribute x attr ctx)) with (Attribute (rw x) attr ctx).
      cbn [eval_expr].
      apply (alike_bind hs t lead sv); [now apply (proj1 IH)|].
      intros a a' Ha. now apply getattr_alike. }
    split; [exact HM|]. split; [now apply Main_Arg|now apply Main_Child].
  - split; [intros; discriminate|].
    split; [apply Starred_Arg, IH|apply Starred_Child, IH].
  - assert (HM : Main (Call f args kws sa ka)).
    { apply Call_Main.
      - apply IHf.
      - apply list_all_Forall in IHargs.
        eapply Forall_impl; [exact IHargs|]. now intros e (_ & HA & _).
      - now apply list_all_Forall in IHkws.
      - intros x Hx. now apply (option_all_Some _ _ IHsa x Hx).
      - intros x Hx. now apply (option_all_Some _ _ IHka x Hx). }
    split; [exact HM|]. split; [now apply Main_Arg|now apply Main_Child].
  - assert (HM : Main (Lambda ps body)).
    { intros ns ns' [Ht Hns] Hfresh Hwf.
      change (rw (Lambda ps body)) with (Lambda ps (rw body)).
      cbn [eval_expr]. apply alike_ret. now constructor. }
    split; [exact HM|]. split; [now apply Main_Arg|now apply Main_Child].
  - assert (HM : Main (Node kind children)).
    { apply Node_Main. apply list_all_Forall in IH.
      eapply Forall_impl; [exact IH|]. now intros e (_ & _ & HC). }
    split; [exact HM|]. split; [now apply Main_Arg|now apply Main_Child].
  - apply Keyword_Kw, IH.
Qed.
End rewrite_facts.

Section depth_facts.
Import ast_transform ast_trace host.
Variable hs : bool.
Variable t : string.
Variable H : host.
Hypothesis host_uniform : uniform hs t H.

Local Abbreviation T := (Name t Load).
Local Abbreviation rw := (TraceFunctionCalls.visit hs T).
Local Abbreviation sv := (same_value hs t).
Local Abbreviation si := (same_items hs t).
Local Abbreviation sl := (same_locals hs t).

(** One call with callers that are alike. *)
Lemma call_step_alike lead cl cl' :
  callers_alike hs t lead cl cl' -> traced_alike hs t lead cl cl' ->
  tracer_ready lead cl' ->
  callers_alike hs t lead (call_step H cl) (call_step H cl').
Proof.
  intros Hc Ht Hr f f' args args' kw kw' Hf Ha Hk.
  destruct Hf as [n|s|xs ys Hxs|xs ys Hxs|name
                 |ns ns' ps body Hfree Hns Hfresh Hwf]; cbn [call_step];
    try (now apply alike_raise).
  - now apply (proj1 (host_uniform lead)).
  - pose proof (bind_params_same hs t ps _ _ _ _ Ha Hk) as Hb.
    destruct (bind_params ps args kw) as [b|] eqn:E;
      destruct (bind_params ps args' kw') as [b'|];
      inversion Hb; subst; [|now apply alike_raise].
    apply (eval_expr_alike hs t lead H host_uniform cl cl' Hc Ht Hr body).
    + apply same_locals_app; [assumption| |now split].
      rewrite (bind_params_keys _ _ _ _ E). intros Hin.
      apply Hfresh, elem_of_app. now left.
    + intros Hin. apply Hfresh, elem_of_app. now right.
    + exact Hwf.
Qed.

Lemma call_Traced depth f args kwargs :
  call H (S depth) (VTraced f) args kwargs = call H depth f args kwargs.
Proof. reflexivity. Qed.

Lemma exhausted_alike_true {A : Type} (R : A -> A -> Prop) (c' : M A) :
  alike hs t true R exhausted c'.
Proof. intros w w' _ Hends. now destruct Hends. Qed.

Lemma exhausted_alike_false {A : Type} (R : A -> A -> Prop) (c : M A) :
  alike hs t false R c exhausted.
Proof. intros w w' _ Hends. now destruct Hends. Qed.

(** What the program calls in depth [n], the rewritten program calls in
    depth [2 * n]. *)
Lemma call_alike_program n : forall m,
  2 * n <= m -> callers_alike hs t true (call H n) (call H m).
Proof.
  induction n as [|n IH]; intros m Hm.
  - intros f f' args args' kw kw' _ _ _. apply exhausted_alike_true.
  - destruct m as [|[|m]]; try lia.
    change (callers_alike hs t true (call_step H (call H n))
              (call_step H (call H (S m)))).
    apply call_step_alike.
    + apply IH. lia.
    + intros f f' args args' kw kw' Hf Ha Hk. rewrite call_Traced.
      apply IH; [lia|assumption..].
    + left. reflexivity.
Qed.

(** What the rewritten program calls in depth [m], the program calls in
    any depth from [m] on. *)
Lemma call_alike_rewritten m : forall n,
  m <= n -> callers_alike hs t false (call H n) (call H m).
Proof.
  induction m as [m IH] using lt_wf_ind. intros n Hm.
  destruct m as [|m].
  - intros f f' args args' kw kw' _ _ _. apply exhausted_alike_false.
  - destruct n as [|n]; [lia|].
    change (callers_alike hs t false (call_step H (call H n))
              (call_step H (call H m))).
    apply call_step_alike.
    + apply IH; lia.
    + intros f f' args args' kw kw' Hf Ha Hk. destruct m as [|m].
      * apply exhausted_alike_false.
      * rewrite call_Traced. apply IH; [lia|lia|assumption..].
    + destruct m as [|m].
      * right. split; [reflexivity|]. reflexivity.
      * left. reflexivity.
Qed.

Lemma eval_alike lead n m :
  depths lead n m ->
  forall ns ns' e,
    sl ns ns' -> t ∉ names e -> well_formed hs e = true ->
    alike hs t lead sv (eval H n ns e) (eval H m ns' (rw e)).
Proof.
  intros Hd ns ns' e. unfold eval.
  apply (eval_expr_alike hs t lead H host_uniform).
  - destruct lead; simpl in Hd.
    + apply call_alike_program. lia.
    + now apply call_alike_rewritten.
  - intros f f' args args' kw kw' Hf Ha Hk.
    destruct lead; simpl in Hd.
    + destruct m as [|m]; [lia|]. rewrite call_Traced.
      apply call_alike_program; [lia|assumption..].
    + destruct m as [|m]; [apply exhausted_alike_false|].
      rewrite call_Traced.
      apply call_alike_rewritten; [lia|assumption..].
  - destruct m as [|m].
    + destruct lead; simpl in Hd; [lia|].
      right. split; reflexivity.
    + left. reflexivity.
Qed.
End depth_facts.

Section transparency.
Import ast_transform ast_trace host.

End transparency.

Section transparency_samples.
Import ast_transform ast_trace host samples.

Lemma same_globals_setitem hs t id v v' w w' :
  same_globals hs t w w' -> id <> t -> same_value hs t v v' ->
  same_globals hs t (setitem id v w) (setitem id v' w').
Proof.
  intros [Ht Hw] Hid Hv. split.
  - rewrite getitem_setitem. now destruct (decide (id = t)).
  - intros k Hk. rewrite !getitem_setitem.
    destruct (decide (id = k)); [now constructor|now apply Hw].
Qed.

Lemma sample_native_uniform hs t lead call call' name args args' kw kw' :
  callers_alike hs t lead call call' ->
  Forall2 (same_value hs t) args args' -> same_items hs t kw kw' ->
  alike hs t lead (same_value hs t) (sample_native call name args kw)
        (sample_native call' name args' kw').
Proof.
  intros Hc Ha Hk. unfold sample_native.
  destruct (decide (name = "add")).
  { destruct Ha as [|x x' xs xs' Hx Ha];
      [|destruct Ha as [|y y' ys ys' Hy Ha];
        [|destruct Ha as [|z z' zs zs' Hz Ha]]];
      try destruct Hx; try destruct Hy; destruct Hk;
      try (apply alike_raise; split; reflexivity).
    apply alike_ret. constructor. }
  destruct (decide (name = "apply")).
  { destruct Ha as [|x x' xs xs' Hx Ha];
      [|destruct Ha as [|y y' ys ys' Hy Ha];
        [|destruct Ha as [|z z' zs zs' Hz Ha]]];
      destruct Hk; try (apply alike_raise; split; reflexivity).
    apply Hc; [exact Hx|repeat constructor; exact Hy|constructor]. }
  destruct (decide (name = "Foo")).
  { destruct Ha, Hk; try (apply alike_raise; split; reflexivity).
    apply alike_ret. constructor. }
  apply alike_raise. split; reflexivity.
Qed.

Lemma sample_attribute_uniform hs t lead v v' attr :
  same_value hs t v v' ->
  alike hs t lead (same_value hs t) (sample_attribute v attr)
        (sample_attribute v' attr).
Proof.
  intros Hv. destruct Hv; cbn [sample_attribute];
    try (apply alike_raise; split; reflexivity).
  destruct (bool_decide _); [apply alike_ret; constructor|].
  apply alike_raise. split; reflexivity.
Qed.

Lemma sample_node_uniform hs t lead call call' kind children children'
    ns ns' :
  Forall2 (children_alike hs t lead) children children' ->
  same_locals hs t ns ns' ->
  alike hs t lead (same_value hs t) (sample_node call kind children ns)
        (sample_node call' kind children' ns').
Proof.
  intros Hch Hns. unfold sample_node.
  assert (Hraise : alike hs t lead (same_value hs t)
            (raise (Exn "SyntaxError" kind))
            (raise (Exn "SyntaxError" kind)))
    by (apply alike_raise; split; reflexivity).
  destruct (decide (kind = "Assign")); [|exact Hraise].
  destruct Hch as [|[c1 m1] [c1' m1'] cs cs' H1 Hch]; [exact Hraise|].
  destruct H1 as (E1 & F1 & _ & _). cbn [fst] in E1, F1. subst c1'.
  destruct Hch as [|[c2 m2] [c2' m2'] cs cs' H2 Hch].
  { destruct c1; try exact Hraise;
      try (rewrite TraceFunctionCalls_visit_Call_eq); exact Hraise. }
  destruct H2 as (_ & _ & _ & A2). cbn [snd] in A2.
  destruct Hch as [|c3 c3' cs cs' H3 Hch].
  - destruct c1; try exact Hraise;
      try (rewrite TraceFunctionCalls_visit_Call_eq; exact Hraise).
    cbn [TraceFunctionCalls.visit NodeTransformer.generic_visit].
    apply (alike_bind hs t lead (same_value hs t)); [now apply A2|].
    intros a a' Ha w w' Hw _. split; [exact Ha|].
    apply same_globals_setitem; [exact Hw| |exact Ha].
    intros ->. apply F1. now left.
  - destruct c1; try exact Hraise;
      try (rewrite TraceFunctionCalls_visit_Call_eq); exact Hraise.
Qed.

Lemma sample_host_uniform hs t : uniform hs t sample_host.
Proof.
  intros lead. split; [|split].
  - intros. now apply sample_native_uniform.
  - intros. now apply sample_attribute_uniform.
  - intros call call' kind children children' ns ns' _ Hch Hns.
    now apply sample_node_uniform.
Qed.

Lemma sample_globals_same hs :
  same_globals hs "tracer" sample_globals traced_globals.
Proof.
  split; [reflexivity|]. intros id Hid.
  unfold traced_globals, sample_globals. cbn [getitem].
  destruct (decide ("tracer" = id)); [congruence|].
  repeat (destruct (decide (_ = id));
          [constructor; repeat constructor|]).
  constructor.
Qed.

Lemma no_locals_same hs t : same_locals hs t [] [].
Proof. split; [reflexivity|]. intros id _. constructor. Qed.



(** [foo = objects.Foo()], as in the tests: the program and the
    rewritten program bind [foo] to the same instance. *)
Example instantiation_traced :
  eval sample_host 1 [] instantiation sample_globals
  = (Return (VNative "foo"), sample_globals ++ [("foo", VNative "foo")])
  /\ eval sample_host 3 []
       (TraceFunctionCalls.visit true (Name "tracer" Load) instantiation)
       traced_globals
     = (Return (VNative "foo"), traced_globals ++ [("foo", VNative "foo")]).
Proof. split; vm_compute; reflexivity. Qed.
End transparency_samples.

(** ** The tracing wrapper, path by path *)

Section wrapper_paths.
Import inspect ast_transform.
Context {value world : Type}.
Variable invoke :
  callable value -> list value -> OrderedDict value ->
  world -> outcome (value := value) value * world.

Local Abbreviation hook_on_call :=
  (callable value -> OrderedDict (bound value) ->
   world -> outcome (value := value) unit * world).
Local Abbreviation hook_on_return :=
  (callable value -> OrderedDict (bound value) -> value ->
   world -> outcome (value := value) unit * world).

(** X1.  When the binding, the hooks and the callee all succeed, the
    wrapper returns the callee's return value; [on_call] runs before the
    callee and [on_return] after it, both with the mapping that
    [bind_arguments] made, [on_return] with the return value as well, and
    the world goes from each to the next. *)
Theorem wrapper_returns_callee_value
    (on_call : option hook_on_call) (on_return : option hook_on_return)
    (f : callable value) (args : list value) (kwargs : OrderedDict value)
    (arguments : OrderedDict (bound value))
    (w0 w1 w2 w3 : world) (log : list event) (v : value) :
  ast_transform.bind_arguments f args kwargs = inr arguments ->
  match on_call with
  | Some h => h f arguments w0 = (Returned tt, w1)
  | None => w1 = w0
  end ->
  invoke f args kwargs w1 = (Returned v, w2) ->
  match on_return with
  | Some h => h f arguments v w2 = (Returned tt, w3)
  | None => w3 = w2
  end ->
  make_tracing_call_wrapper invoke on_call on_return f args kwargs (w0, log)
  = (Returned v,
     (w3, log ++ (if on_call is Some _ then [on_call_event f arguments]
                  else [])
              ++ [call_event f args kwargs]
              ++ (if on_return is Some _
                  then [on_return_event f arguments v] else []))).
Proof.
  intros Hbind Hcall Hinvoke Hreturn. unfold make_tracing_call_wrapper.
  unfold mbind, M_bind, lift, perform, mret, M_ret.
  rewrite (bind_arguments_accepts _ _ _ _ Hbind), Hbind.
  destruct on_call as [h|], on_return as [h'|]; simpl.
  - rewrite Hcall. simpl. rewrite Hinvoke. simpl. rewrite Hreturn. simpl.
    now rewrite <- !app_assoc.
  - rewrite Hcall. simpl. rewrite Hinvoke. simpl. subst w3.
    now rewrite <- !app_assoc.
  - subst w1. rewrite Hinvoke. simpl. rewrite Hreturn. simpl.
    now rewrite <- !app_assoc.
  - subst w1 w3. rewrite Hinvoke. reflexivity.
Qed.

(** X2.  When the arguments do not fit the callable, the wrapper raises
    the error of [bind_arguments] and calls nothing: neither a hook nor
    the callable, with or without hooks. *)
Theorem wrapper_binding_failure
    (on_call : option hook_on_call) (on_return : option hook_on_return)
    (f : callable value) (args : list value) (kwargs : OrderedDict value)
    (e : error) (w0 : world) (log : list event) :
  ast_transform.bind_arguments f args kwargs = inl e ->
  make_tracing_call_wrapper invoke on_call on_return f args kwargs (w0, log)
  = (Raised (Builtin e), (w0, log)).
Proof.
  intros Hbind. unfold make_tracing_call_wrapper.
  unfold mbind, M_bind, lift.
  destruct (fun_args_kwargs kwargs) as [e'|[]] eqn:Hfun.
  - rewrite (bind_arguments_rejects f args _ _ Hfun) in Hbind.
    now injection Hbind as ->.
  - now rewrite Hbind.
Qed.

(** X3.  When [on_call] raises, the wrapper raises the same exception and
    the callable is not called. *)
Theorem wrapper_on_call_failure
    (h : hook_on_call) (on_return : option hook_on_return)
    (f : callable value) (args : list value) (kwargs : OrderedDict value)
    (arguments : OrderedDict (bound value))
    (w0 w1 : world) (log : list event) (e : raised) :
  ast_transform.bind_arguments f args kwargs = inr arguments ->
  h f arguments w0 = (Raised e, w1) ->
  make_tracing_call_wrapper invoke (Some h) on_return f args kwargs
    (w0, log)
  = (Raised e, (w1, log ++ [on_call_event f arguments])).
Proof.
  intros Hbind Hcall. unfold make_tracing_call_wrapper.
  unfold mbind, M_bind, lift, perform, mret, M_ret.
  rewrite (bind_arguments_accepts _ _ _ _ Hbind), Hbind.
  simpl. now rewrite Hcall.
Qed.

(** X4.  When [on_return] raises, the wrapper raises the same exception
    in place of returning: the callable has been called and its return
    value is lost. *)
Theorem wrapper_on_return_failure
    (on_call : option hook_on_call) (h : hook_on_return)
    (f : callable value) (args : list value) (kwargs : OrderedDict value)
    (arguments : OrderedDict (bound value))
    (w0 w1 w2 w3 : world) (log : list event) (v : value) (e : raised) :
  ast_transform.bind_arguments f args kwargs = inr arguments ->
  match on_call with
  | Some h => h f arguments w0 = (Returned tt, w1)
  | None => w1 = w0
  end ->
  invoke f args kwargs w1 = (Returned v, w2) ->
  h f arguments v w2 = (Raised e, w3) ->
  make_tracing_call_wrapper invoke on_call (Some h) f args kwargs (w0, log)
  = (Raised e,
     (w3, log ++ (if on_call is Some _ then [on_call_event f arguments]
                  else [])
              ++ [call_event f args kwargs;
                  on_return_event f arguments v])).
Proof.
  intros Hbind Hcall Hinvoke Hreturn. unfold make_tracing_call_wrapper.
  unfold mbind, M_bind, lift, perform, mret, M_ret.
  rewrite (bind_arguments_accepts _ _ _ _ Hbind), Hbind.
  destruct on_call as [h0|]; simpl.
  - rewrite Hcall. simpl. rewrite Hinvoke. simpl. rewrite Hreturn.
    now rewrite <- !app_assoc.
  - subst w1. rewrite Hinvoke. simpl. rewrite Hreturn.
    now rewrite <- !app_assoc.
Qed.

End wrapper_paths.

Section wrapper_paths_samples.
Import inspect ast_transform samples.

Lemma wrapper_returns_callee_value_witness :
  ast_transform.bind_arguments a_builtin [5] [] = inr [("0", One 5)]
  /\ journal_on_call a_builtin [("0", One 5)] [] = (Returned tt, ["on_call"])
  /\ returning_callee a_builtin [5] [] ["on_call"]
     = (Returned 42, ["on_call"; "callee"])
  /\ journal_on_return a_builtin [("0", One 5)] 42 ["on_call"; "callee"]
     = (Returned tt, ["on_call"; "callee"; "on_return"])
  /\ make_tracing_call_wrapper returning_callee (Some journal_on_call)
       (Some journal_on_return) a_builtin [5] [] ([], [])
     = (Returned 42,
        (["on_call"; "callee"; "on_return"],
         [on_call_event a_builtin [("0", One 5)];
          call_event a_builtin [5] [];
          on_return_event a_builtin [("0", One 5)] 42])).
Proof.
  split; [reflexivity|]. split; [reflexivity|]. split; [reflexivity|].
  split; [reflexivity|].
  apply (wrapper_returns_callee_value returning_callee
           (Some journal_on_call) (Some journal_on_return) a_builtin [5] []
           [("0", One 5)] [] ["on_call"] ["on_call"; "callee"]
           ["on_call"; "callee"; "on_return"] [] 42);
    reflexivity.
Defined.

Lemma wrapper_binding_failure_witness :
  ast_transform.bind_arguments with_default [1; 2; 3] []
  = inl (TypeError "too many positional arguments")
  /\ make_tracing_call_wrapper returning_callee (Some journal_on_call)
       (Some journal_on_return) with_default [1; 2; 3] [] ([], [])
     = (Raised (Builtin (TypeError "too many positional arguments")),
        ([], [])).
Proof.
  split; [reflexivity|].
  apply (wrapper_binding_failure returning_callee (Some journal_on_call)
           (Some journal_on_return) with_default [1; 2; 3] []
           (TypeError "too many positional arguments") [] []).
  reflexivity.
Defined.

Lemma wrapper_on_call_failure_witness :
  ast_transform.bind_arguments a_builtin [5] [] = inr [("0", One 5)]
  /\ failing_on_call a_builtin [("0", One 5)] []
     = (Raised (Object 7), ["on_call"])
  /\ make_tracing_call_wrapper returning_callee (Some failing_on_call)
       (Some journal_on_return) a_builtin [5] [] ([], [])
     = (Raised (Object 7),
        (["on_call"], [on_call_event a_builtin [("0", One 5)]])).
Proof.
  split; [reflexivity|]. split; [reflexivity|].
  apply (wrapper_on_call_failure returning_callee failing_on_call
           (Some journal_on_return) a_builtin [5] [] [("0", One 5)]
           [] ["on_call"] [] (Object 7)); reflexivity.
Defined.

Lemma wrapper_on_return_failure_witness :
  ast_transform.bind_arguments a_builtin [5] [] = inr [("0", One 5)]
  /\ returning_callee a_builtin [5] [] [] = (Returned 42, ["callee"])
  /\ failing_on_return a_builtin [("0", One 5)] 42 ["callee"]
     = (Raised (Object 7), ["callee"; "on_return"])
  /\ make_tracing_call_wrapper returning_callee None
       (Some failing_on_return) a_builtin [5] [] ([], [])
     = (Raised (Object 7),
        (["callee"; "on_return"],
         [call_event a_builtin [5] [];
          on_return_event a_builtin [("0", One 5)] 42])).
Proof.
  split; [reflexivity|]. split; [reflexivity|]. split; [reflexivity|].
  apply (wrapper_on_return_failure returning_callee None failing_on_return
           a_builtin [5] [] [("0", One 5)] [] [] ["callee"]
           ["callee"; "on_return"] [] 42 (Object 7)); reflexivity.
Defined.

End wrapper_paths_samples.

(** ** The resolvers: lookups, receivers and errors *)

Section opaque_lookup.
Import inspect ast_transform ast_trace resolver.
Context {value : Type}.

Lemma getitem_fold_keywords (kw : OrderedDict value)
    (d : OrderedDict (bound value)) (k : string) :
  NoDup kw.*1 ->
  getitem k (fold_left (fun d kv => setitem (fst kv) (One (snd kv)) d) kw d)
  = match getitem k kw with
    | Some v => Some (One v)
    | None => getitem k d
    end.
Proof.
  revert d. induction kw as [|[k' v'] kw IH]; intros d Hnd; [reflexivity|].
  rewrite fmap_cons in Hnd. apply NoDup_cons in Hnd as [Hk' Hnd].
  cbn [fold_left fst snd getitem]. rewrite (IH _ Hnd), getitem_setitem.
  destruct (decide (k' = k)) as [->|Hne]; [|reflexivity].
  now rewrite (proj2 (getitem_None k kw) Hk').
Qed.

Lemma getitem_positional_from (n i : nat) (vs : list value) :
  getitem (pretty (n + i))
          (imap (fun j v => (pretty (n + j), One v)) vs)
  = One <$> vs !! i.
Proof.
  revert n i. induction vs as [|v vs IH]; intros n i; [reflexivity|].
  rewrite imap_cons. cbn [getitem]. rewrite Nat.add_0_r.
  destruct i as [|i].
  - rewrite Nat.add_0_r. now destruct (decide (pretty n = pretty n)).
  - destruct (decide (pretty n = pretty (n + S i))) as [E|_].
    + apply (inj pretty) in E. lia.
    + change ((v :: vs) !! S i) with (vs !! i).
      rewrite <- (IH (S n) i).
      replace (n + S i) with (S n + i) by lia.
      f_equal. apply imap_ext. intros j x _. simpl.
      now replace (n + S j) with (S (n + j)) by lia.
Qed.

Lemma getitem_positional_entries (i : nat) (vs : list value) :
  getitem (pretty i) (positional_entries vs) = One <$> vs !! i.
Proof. exact (getitem_positional_from 0 i vs). Qed.

(** X6.  For a callable without signature and keyword arguments none of
    which is named [fun], [bind_arguments] of [ast_transform.py] does not
    raise, and a lookup in its mapping finds the value of the keyword of
    that name, if the call has one, and else, under the key [str(i)], the
    [i]-th positional argument; the mapping has no other key.  (A keyword
    named like a positional key takes its place.) *)
Theorem opaque_arguments_lookup (f : callable value) (msg : string)
    (args : list value) (kwargs : OrderedDict value) :
  signature f = inl (ValueError msg) ->
  "fun" ∉ kwargs.*1 ->
  NoDup kwargs.*1 ->
  exists arguments : OrderedDict (bound value),
    ast_transform.bind_arguments f args kwargs = inr arguments
    /\ (forall k v, getitem k kwargs = Some v ->
                    getitem k arguments = Some (One v))
    /\ (forall i v, args !! i = Some v -> pretty i ∉ kwargs.*1 ->
                    getitem (pretty i) arguments = Some (One v))
    /\ (forall k, k ∈ arguments.*1 ->
                  k ∈ kwargs.*1 \/ exists i, i < length args /\ k = pretty i).
Proof.
  intros Hsig Hfun%fun_args_kwargs_inr Hnd.
  exists (opaque_arguments args kwargs).
  unfold ast_transform.bind_arguments. rewrite Hfun, Hsig.
  split; [reflexivity|]. unfold opaque_arguments. cbv zeta.
  rewrite fold_positional.
  split; [|split].
  - intros k v Hk. now rewrite (getitem_fold_keywords _ _ _ Hnd), Hk.
  - intros i v Hi Hfree. rewrite (getitem_fold_keywords _ _ _ Hnd).
    rewrite (proj2 (getitem_None _ kwargs) Hfree).
    now rewrite getitem_positional_entries, Hi.
  - intros k Hk.
    destruct (getitem k kwargs) as [v|] eqn:E.
    + left. apply dec_stable. intros Hn.
      apply getitem_None in Hn. congruence.
    + right. apply positional_entries_keys.
      apply dec_stable. intros Hn. apply getitem_None in Hn.
      assert (Hr : getitem k
                     (fold_left
                        (fun d kv => setitem (fst kv) (One (snd kv)) d)
                        kwargs (positional_entries args)) = None)
        by (now rewrite (getitem_fold_keywords _ _ _ Hnd), E).
      apply getitem_None in Hr. contradiction.
Qed.
End opaque_lookup.

Section receiver_facts.
Import inspect ast_transform ast_trace resolver.
Context {value : Type}.
Implicit Types (kw : OrderedDict value) (p q : Param value)
  (ps qs : Signature value) (acc : OrderedDict (bound value)).

Lemma bind_positional_rest ps : forall args kw acc acc' rem,
  bind_positional ps args kw acc = inr (acc', rem) ->
  forall q, q ∈ rem -> q ∈ ps.
Proof.
  induction ps as [|p ps IH]; intros [|a args] kw acc acc' rem; simpl.
  - now intros [= <- <-].
  - discriminate.
  - repeat case_match; try discriminate; intros [= <- <-] q Hq;
      try exact Hq; now apply elem_of_cons; right.
  - repeat case_match; try discriminate.
    + intros [= <- <-] q Hq. now apply elem_of_cons; right.
    + intros Hb q Hq. apply elem_of_cons; right.
      exact (IH _ _ _ _ _ Hb q Hq).
Qed.

Lemma bind_positional_prefix k (x : bound value) ps :
  forall args kw acc,
  (forall q, q ∈ ps -> pname q <> k) ->
  bind_positional ps args kw ((k, x) :: acc)
  = match bind_positional ps args kw acc with
    | inl e => inl e
    | inr (acc', rem) => inr ((k, x) :: acc', rem)
    end.
Proof.
  induction ps as [|p ps IH]; intros [|a args] kw acc Hne;
    cbn [bind_positional]; try reflexivity.
  - repeat case_match; reflexivity.
  - assert (Hp : k <> pname p)
      by (intros E; apply (Hne p); [now left|now symmetry]).
    destruct (decide (pkind p = VAR_KEYWORD)); [reflexivity|].
    destruct (decide (pkind p = KEYWORD_ONLY)); [reflexivity|].
    destruct (decide (pkind p = VAR_POSITIONAL));
      [now rewrite (setitem_cons_ne _ _ _ _ _ Hp)|].
    destruct (contains (pname p) kw
              && bool_decide (pkind p <> POSITIONAL_ONLY)); [reflexivity|].
    rewrite (setitem_cons_ne _ _ _ _ _ Hp). apply IH.
    intros q Hq. apply Hne. now right.
Qed.

Lemma bind_keywords_prefix k (x : bound value) ps :
  forall kw acc kp,
  (forall q, q ∈ ps -> pname q <> k) ->
  bind_keywords ps kw ((k, x) :: acc) kp
  = match bind_keywords ps kw acc kp with
    | inl e => inl e
    | inr (acc', kw', kp') => inr ((k, x) :: acc', kw', kp')
    end.
Proof.
  induction ps as [|p ps IH]; intros kw acc kp Hne; cbn [bind_keywords];
    [reflexivity|].
  assert (Hp : k <> pname p)
    by (intros E; apply (Hne p); [now left|now symmetry]).
  assert (Hps : forall q, q ∈ ps -> pname q <> k)
    by (intros q Hq; apply Hne; now right).
  destruct (decide (pkind p = VAR_KEYWORD)); [now apply IH|].
  destruct (decide (pkind p = VAR_POSITIONAL)); [now apply IH|].
  destruct (pop (pname p) kw) as [[v kw']|].
  - destruct (decide (pkind p = POSITIONAL_ONLY)); [reflexivity|].
    rewrite (setitem_cons_ne _ _ _ _ _ Hp). now apply IH.
  - destruct (pdefault p); [now apply IH|reflexivity].
Qed.

Lemma bind_keywords_remembered ps : forall kw acc kp acc' kw' kp' param,
  bind_keywords ps kw acc kp = inr (acc', kw', kp') ->
  kp' = Some param -> param ∈ ps \/ kp = Some param.
Proof.
  induction ps as [|p ps IH]; intros kw acc kp acc' kw' kp' param; simpl.
  - intros [= <- <- <-] ->. now right.
  - repeat case_match; try discriminate; intros Hb E;
      destruct (IH _ _ _ _ _ _ _ Hb E) as [Hin|Heq];
      try (left; now right); try (now right).
    injection Heq as <-. left. now left.
Qed.

(** Binding with the receiver in front: the first parameter takes it and
    the other parameters are bound as without it. *)
Lemma bind_receiver p ps (x : value) (args : list value) kw :
  pkind p = POSITIONAL_OR_KEYWORD \/ pkind p = POSITIONAL_ONLY ->
  pname p ∉ map pname ps ->
  pname p ∉ kw.*1 ->
  bind (p :: ps) (x :: args) kw
  = match bind ps args kw with
    | inl e => inl e
    | inr r => inr ((pname p, One x) :: r)
    end.
Proof.
  intros Hkind Hfresh Hkw. unfold bind. cbn [bind_positional].
  assert (Hne : forall q, q ∈ ps -> pname q <> pname p).
  { intros q Hq E. apply Hfresh. rewrite <- E.
    apply list_elem_of_fmap. now exists q. }
  destruct (decide (pkind p = VAR_KEYWORD)) as [E|_];
    [destruct Hkind; congruence|].
  destruct (decide (pkind p = KEYWORD_ONLY)) as [E|_];
    [destruct Hkind; congruence|].
  destruct (decide (pkind p = VAR_POSITIONAL)) as [E|_];
    [destruct Hkind; congruence|].
  rewrite (proj2 (contains_false _ _) Hkw). cbn [andb setitem].
  rewrite (bind_positional_prefix _ _ _ _ _ _ Hne).
  destruct (bind_positional ps args kw []) as [e|[acc rem]] eqn:E1;
    [reflexivity|].
  assert (Hrem : forall q, q ∈ rem -> pname q <> pname p)
    by (intros q Hq; apply Hne; exact (bind_positional_rest _ _ _ _ _ _ E1 q Hq)).
  rewrite (bind_keywords_prefix _ _ _ _ _ _ Hrem).
  destruct (bind_keywords rem kw acc None) as [e|[[acc' kw'] kp']] eqn:E2;
    [reflexivity|].
  destruct kw' as [|kv kw']; [reflexivity|].
  destruct kp' as [param|]; [|reflexivity].
  destruct (bind_keywords_remembered _ _ _ _ _ _ _ param E2 eq_refl)
    as [Hin|Hin]; [|discriminate].
  rewrite setitem_cons_ne; [reflexivity|].
  intros E. now apply (Hrem param Hin).
Qed.

(** X7.  For a bound method of an instance over a function whose first
    parameter is positional (positional-only or positional-or-keyword,
    not [*args]) and has a name that no other parameter has and that no
    keyword argument of the call has, [bind_arguments] of [ast_trace.py]
    gives what [bind_arguments] of [ast_transform.py] gives, with the
    receiver in front under the name of that first parameter; it raises
    when that one raises, the same error. *)
Theorem bound_method_includes_self (self : receiver value)
    (func : callable value) (p : Param value) (ps : Signature value)
    (args : list value) (kw : OrderedDict value) :
  isclass self = false ->
  signature func = inr (p :: ps) ->
  pkind p = POSITIONAL_OR_KEYWORD \/ pkind p = POSITIONAL_ONLY ->
  pname p ∉ map pname ps ->
  pname p ∉ kw.*1 ->
  ast_trace.bind_arguments (Method self func) args kw
  = match ast_transform.bind_arguments (Method self func) args kw with
    | inl e => inl e
    | inr r => inr ((pname p, One (obj self)) :: r)
    end.
Proof.
  intros Hself Hsig Hkind Hfresh Hkw.
  unfold ast_trace.bind_arguments, ast_transform.bind_arguments.
  destruct (fun_args_kwargs kw) as [e|[]]; [reflexivity|].
  rewrite Hself. cbn [negb signature]. rewrite Hsig.
  cbn [_signature_bound_method app].
  destruct Hkind as [E|E]; rewrite E;
    (rewrite bind_receiver; [|now rewrite E; auto|assumption|assumption]);
    now destruct (bind ps args kw).
Qed.

Lemma bind_positional_TypeError ps : forall args kw acc e,
  bind_positional ps args kw acc = inl e -> exists msg, e = TypeError msg.
Proof.
  induction ps as [|p ps IH]; intros [|a args] kw acc e; simpl;
    try discriminate.
  - intros [= <-]. eauto.
  - repeat case_match; try discriminate; intros [= <-]; eauto.
  - repeat case_match; try discriminate; try (intros [= <-]; eauto).
    apply IH.
Qed.

Lemma bind_keywords_TypeError ps : forall kw acc kp e,
  bind_keywords ps kw acc kp = inl e -> exists msg, e = TypeError msg.
Proof.
  induction ps as [|p ps IH]; intros kw acc kp e; simpl; [discriminate|].
  repeat case_match; try discriminate; try (intros [= <-]; eauto);
    apply IH.
Qed.

Lemma bind_TypeError ps (args : list value) kw e :
  bind ps args kw = inl e -> exists msg, e = TypeError msg.
Proof.
  unfold bind.
  destruct (bind_positional ps args kw []) as [e1|[acc rem]] eqn:E1.
  - intros [= <-]. exact (bind_positional_TypeError _ _ _ _ _ E1).
  - destruct (bind_keywords rem kw acc None) as [e2|[[acc' kw'] kp']] eqn:E2.
    + intros [= <-]. exact (bind_keywords_TypeError _ _ _ _ _ E2).
    + repeat case_match; try discriminate. intros [= <-]. eauto.
Qed.

Lemma signature_ValueError (f : callable value) e :
  signature f = inl e -> exists msg, e = ValueError msg.
Proof.
  revert e. induction f as [self func IH|self [sig|]]; intros e; simpl.
  - destruct (signature func) as [e1|sig].
    + intros [= <-]. now apply IH.
    + unfold _signature_bound_method.
      repeat case_match; try discriminate; intros [= <-]; eauto.
  - discriminate.
  - intros [= <-]. eauto.
Qed.

(** X8.  Both resolvers raise nothing but [TypeError]: the [ValueError]
    of a callable without signature never leaves them, and the arguments
    that a signature does not accept are a [TypeError]. *)
Theorem bind_arguments_raises_TypeError (f : callable value)
    (args : list value) (kw : OrderedDict value) (e : error) :
  ast_trace.bind_arguments f args kw = inl e
  \/ ast_transform.bind_arguments f args kw = inl e ->
  exists msg, e = TypeError msg.
Proof.
  intros [H|H].
  - unfold ast_trace.bind_arguments in H.
    destruct (fun_args_kwargs kw) as [e0|[]] eqn:Hfun.
    { injection H as ->. destruct (fun_args_kwargs_inl _ _ Hfun) as [_ ->].
      eauto. }
    destruct (match f with
              | Method self func =>
                  if negb (isclass self) then (func, [obj self] ++ args)
                  else (f, args)
              | Callable _ _ => (f, args)
              end) as [g args'].
    destruct (signature g) as [e1|sig] eqn:E.
    + destruct (signature_ValueError _ _ E) as [msg ->]. discriminate.
    + exact (bind_TypeError _ _ _ _ H).
  - unfold ast_transform.bind_arguments in H.
    destruct (fun_args_kwargs kw) as [e0|[]] eqn:Hfun.
    { injection H as ->. destruct (fun_args_kwargs_inl _ _ Hfun) as [_ ->].
      eauto. }
    destruct (signature f) as [e1|sig] eqn:E.
    + destruct (signature_ValueError _ _ E) as [msg ->]. discriminate.
    + exact (bind_TypeError _ _ _ _ H).
Qed.

Lemma Method_neq (func : callable value) :
  forall r : receiver value, func <> Method r func.
Proof.
  induction func as [s g IH|s sig]; intros r E; [|discriminate].
  injection E as -> Hg. exact (IH _ Hg).
Qed.

(** X9.  The two resolvers differ in the receivers only: for a callable
    that is no bound method of an instance they give the same, unless it
    has no signature and a receiver that is not a module. *)
Theorem resolvers_agree_without_receiver (f : callable value)
    (args : list value) (kw : OrderedDict value) :
  introspected f = f ->
  (forall msg, signature f = inl (ValueError msg) -> own_receiver f = []) ->
  ast_trace.bind_arguments f args kw
  = ast_transform.bind_arguments f args kw.
Proof.
  intros Hf Hrecv.
  unfold ast_trace.bind_arguments, ast_transform.bind_arguments.
  destruct (fun_args_kwargs kw) as [e0|[]]; [reflexivity|].
  assert (E : match f with
              | Method self func =>
                  if negb (isclass self) then (func, [obj self] ++ args)
                  else (f, args)
              | Callable _ _ => (f, args)
              end = (f, args)).
  { destruct f as [self func|s sig]; [|reflexivity].
    unfold introspected in Hf. destruct (isclass self); [reflexivity|].
    exfalso. exact (Method_neq _ _ Hf). }
  rewrite E. destruct (signature f) as [e|sig] eqn:Hs; [|reflexivity].
  destruct e as [msg|msg]; [reflexivity|].
  specialize (Hrecv msg eq_refl). unfold own_receiver in Hrecv.
  destruct (getattr_self f) as [s|]; [|reflexivity].
  destruct (ismodule s); [reflexivity|discriminate].
Qed.
End receiver_facts.

Section resolver_samples.
Import inspect ast_transform ast_trace resolver samples.

Lemma opaque_arguments_lookup_witness :
  signature a_builtin = inl (ValueError "no signature found")
  /\ "fun" ∉ [("z", 3); ("1", 4)].*1
  /\ NoDup [("z", 3); ("1", 4)].*1
  /\ exists arguments : OrderedDict (bound nat),
       ast_transform.bind_arguments a_builtin [5; 6] [("z", 3); ("1", 4)]
       = inr arguments
       /\ (forall k v, getitem k [("z", 3); ("1", 4)] = Some v ->
                       getitem k arguments = Some (One v))
       /\ (forall i v, [5; 6] !! i = Some v ->
                       pretty i ∉ [("z", 3); ("1", 4)].*1 ->
                       getitem (pretty i) arguments = Some (One v))
       /\ (forall k, k ∈ arguments.*1 ->
                     k ∈ [("z", 3); ("1", 4)].*1
                     \/ exists i, i < length [5; 6] /\ k = pretty i).
Proof.
  assert (Hnd : NoDup [("z", 3); ("1", 4)].*1).
  { refine (bool_decide_unpack _ _). vm_compute. exact I. }
  assert (Hfun : "fun" ∉ [("z", 3); ("1", 4)].*1).
  { refine (bool_decide_unpack _ _). vm_compute. exact I. }
  split; [reflexivity|]. split; [exact Hfun|]. split; [exact Hnd|].
  exact (opaque_arguments_lookup a_builtin "no signature found" [5; 6]
           [("z", 3); ("1", 4)] eq_refl Hfun Hnd).
Defined.

Lemma bound_method_includes_self_witness :
  isclass an_instance = false
  /\ ("self" ∉ map pname [plain_param "a"])
  /\ ast_trace.bind_arguments a_method [5] []
     = inr [("self", One 77); ("a", One 5)].
Proof.
  assert (Hfresh : "self" ∉ map pname [plain_param "a"]).
  { refine (bool_decide_unpack _ _). vm_compute. exact I. }
  split; [reflexivity|]. split; [exact Hfresh|].
  exact (bound_method_includes_self an_instance
           (Callable None (Some [plain_param "self"; plain_param "a"]))
           (plain_param "self") [plain_param "a"] [5] []
           eq_refl eq_refl (or_introl eq_refl) Hfresh
           (not_elem_of_nil _)).
Defined.

Lemma bind_arguments_raises_TypeError_witness :
  ast_trace.bind_arguments with_default [1; 2; 3] []
  = inl (TypeError "too many positional arguments")
  /\ exists msg, TypeError "too many positional arguments" = TypeError msg.
Proof.
  split; [reflexivity|].
  exact (bind_arguments_raises_TypeError with_default [1; 2; 3] []
           (TypeError "too many positional arguments")
           (or_introl eq_refl)).
Defined.

Lemma resolvers_agree_without_receiver_witness :
  introspected with_default = with_default
  /\ ast_trace.bind_arguments with_default [1] [("y", 9)]
     = ast_transform.bind_arguments with_default [1] [("y", 9)].
Proof.
  split; [reflexivity|].
  apply (resolvers_agree_without_receiver with_default [1] [("y", 9)]);
    [reflexivity|].
  intros msg H. discriminate H.
Defined.
End resolver_samples.

(** ** The call sites of a rewritten tree *)

Section occurrences_facts.
Import ast_transform ast_trace call_site occurrences.

End occurrences_facts.

Section occurrences_lists.
Context {A B : Type}.

Lemma Forall_concat_map (P : B -> Prop) (g : A -> list B) (l : list A) :
  Forall (fun a => Forall P (g a)) l -> Forall P (concat (map g l)).
Proof.
  induction 1 as [|a l Ha _ IH]; simpl; [constructor|].
  apply Forall_app. now split.
Qed.

Lemma elem_of_concat_map (g : A -> list B) (l : list A) (x : B) :
  x ∈ concat (map g l) <-> exists a, a ∈ l /\ x ∈ g a.
Proof.
  induction l as [|a l IH]; simpl.
  - split; [intros H; now apply elem_of_nil in H|].
    intros (a & H & _). now apply elem_of_nil in H.
  - rewrite elem_of_app, IH. split.
    + intros [H|(b & Hb & H)]; [exists a; split; [now left|exact H]|].
      exists b. split; [now right|exact H].
    + intros (b & Hb & H). apply elem_of_cons in Hb as [->|Hb];
        [now left|right; now exists b].
Qed.
End occurrences_lists.

Section traced_calls.
Import ast_transform ast_trace call_site occurrences.
Variable hs : bool.
Variable t : string.

Local Abbreviation T := (Name t Load).
Local Abbreviation V := (TraceFunctionCalls.visit hs T).
Local Abbreviation through := (fun c => traced t c = true).

Lemma calls_Call f a k s d :
  calls (Call f a k s d)
  = Call f a k s d :: calls f ++ concat (map calls a)
      ++ concat (map (fun kw => calls (kw_value kw)) k)
      ++ from_option calls [] s ++ from_option calls [] d.
Proof. reflexivity. Qed.

Lemma traced_method attr a k s d :
  attr ∈ ["trace_function"; "trace_argument"; "trace_return"] ->
  traced t (Call (TraceFunctionCalls.trace_method T attr) a k s d) = true.
Proof.
  intros H. unfold traced, TraceFunctionCalls.trace_method, to_attribute.
  cbn [callee is_trace_method]. rewrite (bool_decide_true (t = t)) by reflexivity.
  rewrite !elem_of_cons, elem_of_nil in H.
  destruct H as [->|[->|[->|[]]]]; reflexivity.
Qed.

Lemma traced_function_call f n a k s d :
  traced t (Call (TraceFunctionCalls.trace_function T f n) a k s d) = true.
Proof.
  unfold traced, TraceFunctionCalls.trace_function, to_call,
    TraceFunctionCalls.trace_method, to_attribute.
  cbn [callee is_trace_method].
  now rewrite (bool_decide_true (t = t)) by reflexivity.
Qed.

Lemma calls_trace_argument x name n :
  exists c, traced t c = true
    /\ calls (TraceFunctionCalls.trace_argument hs T x name n)
       = c :: calls x.
Proof.
  assert (Hm : "trace_argument"
               ∈ ["trace_function"; "trace_argument"; "trace_return"])
    by (rewrite !elem_of_cons; auto).
  unfold TraceFunctionCalls.trace_argument, to_call.
  destruct (hs && is_Starred x) eqn:E.
  - destruct x; try (now rewrite andb_false_r in E).
    destruct (truthy_name name); simpl; rewrite ?app_nil_r;
      (eexists; split; cycle 1;
       [reflexivity|apply traced_method; exact Hm]).
  - assert (Hx : match x with Starred value _ => x | _ => x end = x)
      by (now destruct x).
    rewrite Hx. rewrite calls_Call.
    destruct (truthy_name name), n; simpl; rewrite ?app_nil_r;
      (eexists; split; cycle 1;
       [reflexivity|apply traced_method; exact Hm]).
Qed.

Lemma through_trace_argument x name n :
  Forall through (calls x) ->
  Forall through (calls (TraceFunctionCalls.trace_argument hs T x name n)).
Proof.
  intros H. destruct (calls_trace_argument x name n) as (c & Hc & ->).
  now constructor.
Qed.

Lemma through_visit e : Forall through (calls (V e)).
Proof.
  induction e as [id ctx|n|s|x IH attr ctx|x IH ctx
                 |f IHf args IHargs kws IHkws sa IHsa ka IHka
                 |ps body IH|kind children IH|arg x IH]
    using expr_keyword_ind
    with (P0 := fun kw => Forall through (calls (V (kw_value kw))));
    try (now constructor); try exact IH.
  - rewrite TraceFunctionCalls_visit_Call_eq. cbv zeta.
    unfold TraceFunctionCalls.trace_return, to_call.
    rewrite calls_Call. constructor.
    { apply traced_method. rewrite !elem_of_cons. auto. }
    cbn [calls TraceFunctionCalls.trace_method to_attribute app map concat
         from_option].
    rewrite !app_nil_r. constructor.
    { apply traced_function_call. }
    apply list_all_Forall in IHargs. apply list_all_Forall in IHkws.
    assert (Hcase : hs = true \/ hs = false) by (destruct hs; auto).
    repeat (apply Forall_app; split).
    + unfold TraceFunctionCalls.trace_function, to_call.
      rewrite calls_Call. constructor.
      { apply traced_method. rewrite !elem_of_cons. auto. }
      cbn [calls TraceFunctionCalls.trace_method to_attribute app map concat
           from_option].
      now rewrite !app_nil_r.
    + rewrite map_map. apply Forall_concat_map.
      eapply Forall_impl; [exact IHargs|].
      intros a Ha. now apply through_trace_argument.
    + rewrite map_map. apply Forall_concat_map.
      eapply Forall_impl; [exact IHkws|].
      intros kw Hkw. cbn [kw_value]. now apply through_trace_argument.
    + destruct Hcase as [E|E];
        [rewrite (if_true_eq _ _ _ E); constructor
        |rewrite (if_false_eq _ _ _ E)].
      destruct sa as [x|]; [|constructor].
      cbn [option_map from_option]. apply through_trace_argument.
      now apply (option_all_Some _ _ IHsa).
    + destruct Hcase as [E|E];
        [rewrite (if_true_eq _ _ _ E); constructor
        |rewrite (if_false_eq _ _ _ E)].
      destruct ka as [x|]; [|constructor].
      cbn [option_map from_option]. apply through_trace_argument.
      now apply (option_all_Some _ _ IHka).
  - cbn [TraceFunctionCalls.visit NodeTransformer.generic_visit calls].
    apply list_all_Forall in IH. rewrite map_map.
    now apply Forall_concat_map.
Qed.
End traced_calls.

Section wrapped_calls.
Import ast_transform ast_trace call_site occurrences.
Variable py35 : bool.
Variable w : string.

Local Abbreviation W := (Name w Load).
Local Abbreviation V := (WrapCalls.visit py35 W).

Lemma WrapCalls_visit_Call_eq f args kws sa ka :
  V (Call f args kws sa ka)
  = Call W (V f :: map V args)
         (map (NodeTransformer.visit_keyword V) kws)
         (if py35 then None else option_map V sa)
         (if py35 then None else option_map V ka).
Proof.
  cbn [WrapCalls.visit]. unfold WrapCalls.visit_Call.
  cbn [NodeTransformer.generic_visit]. now destruct py35.
Qed.

Lemma calls_visit_keyword kws :
  concat (map (fun kw => calls (kw_value kw))
              (map (NodeTransformer.visit_keyword V) kws))
  = concat (map (fun kw => calls (V (kw_value kw))) kws).
Proof.
  rewrite map_map. f_equal. apply map_ext. now intros [a v].
Qed.

Lemma wrapped_visit e :
  Forall (fun c => callee c = Some W) (calls (V e)).
Proof.
  induction e as [id ctx|n|s|x IH attr ctx|x IH ctx
                 |f IHf args IHargs kws IHkws sa IHsa ka IHka
                 |ps body IH|kind children IH|arg x IH]
    using expr_keyword_ind
    with (P0 := fun kw =>
                  Forall (fun c => callee c = Some W)
                         (calls (V (kw_value kw))));
    try (now constructor); try exact IH.
  - rewrite WrapCalls_visit_Call_eq, calls_Call.
    constructor; [reflexivity|].
    apply list_all_Forall in IHargs. apply list_all_Forall in IHkws.
    assert (Hcase : py35 = true \/ py35 = false) by (destruct py35; auto).
    cbn [calls map concat app].
    repeat (apply Forall_app; split).
    + exact IHf.
    + rewrite map_map. now apply Forall_concat_map.
    + rewrite calls_visit_keyword. now apply Forall_concat_map.
    + destruct Hcase as [E|E];
        [rewrite (if_true_eq _ _ _ E); constructor
        |rewrite (if_false_eq _ _ _ E)].
      destruct sa as [x|]; [|constructor].
      now apply (option_all_Some _ _ IHsa).
    + destruct Hcase as [E|E];
        [rewrite (if_true_eq _ _ _ E); constructor
        |rewrite (if_false_eq _ _ _ E)].
      destruct ka as [x|]; [|constructor].
      now apply (option_all_Some _ _ IHka).
  - cbn [WrapCalls.visit NodeTransformer.generic_visit calls].
    apply list_all_Forall in IH. rewrite map_map.
    now apply Forall_concat_map.
Qed.

Lemma Forall_concat_map_inv {A B : Type} (P : B -> Prop) (g : A -> list B)
    (l : list A) :
  Forall P (concat (map g l)) -> Forall (fun a => Forall P (g a)) l.
Proof.
  induction l as [|a l IH]; simpl; [constructor|].
  intros H. apply Forall_app in H as [H1 H2]. constructor; auto.
Qed.

Lemma concat_map_ext_Forall {A B : Type} (g g' : A -> list B) (l : list A) :
  Forall (fun a => g a = g' a) l -> concat (map g l) = concat (map g' l).
Proof. induction 1 as [|a l Ha _ IH]; simpl; congruence. Qed.

Lemma calls_visit e :
  Forall (dialect_ok py35) (calls e) -> calls (V e) = map V (calls e).
Proof.
  induction e as [id ctx|n|s|x IH attr ctx|x IH ctx
                 |f IHf args IHargs kws IHkws sa IHsa ka IHka
                 |ps body IH|kind children IH|arg x IH]
    using expr_keyword_ind
    with (P0 := fun kw =>
                  Forall (dialect_ok py35) (calls (kw_value kw)) ->
                  calls (V (kw_value kw)) = map V (calls (kw_value kw)));
    try reflexivity; try exact IH.
  - rewrite calls_Call. intros H. apply Forall_cons in H as [Hd H].
    apply Forall_app in H as [Hf H]. apply Forall_app in H as [Hargs H].
    apply Forall_app in H as [Hkws H]. apply Forall_app in H as [Hsa Hka].
    apply list_all_Forall in IHargs. apply list_all_Forall in IHkws.
    rewrite map_cons, !map_app. rewrite WrapCalls_visit_Call_eq at 1.
    rewrite calls_Call. f_equal; [now rewrite WrapCalls_visit_Call_eq|].
    cbn [calls map concat app].
    rewrite (IHf Hf).
    assert (E1 : concat (map calls (map V args))
                 = map V (concat (map calls args))).
    { rewrite map_map, concat_map, map_map.
      apply concat_map_ext_Forall.
      apply Forall_concat_map_inv in Hargs.
      eapply Forall_impl;
        [exact (proj2 (Forall_and _ _) (conj IHargs Hargs))|].
      intros a [IHa Ha]. now apply IHa. }
    assert (E2 : concat (map (fun kw => calls (kw_value kw))
                             (map (NodeTransformer.visit_keyword V) kws))
                 = map V (concat (map (fun kw => calls (kw_value kw))
                                      kws))).
    { rewrite calls_visit_keyword, concat_map, map_map.
      apply concat_map_ext_Forall.
      apply Forall_concat_map_inv in Hkws.
      eapply Forall_impl;
        [exact (proj2 (Forall_and _ _) (conj IHkws Hkws))|].
      intros a [IHa Ha]. now apply IHa. }
    assert (E3 : from_option calls []
                   (if py35 then None else option_map V sa)
                 = map V (from_option calls [] sa)).
    { destruct sa as [x|].
      - destruct py35 eqn:E; [now destruct (Hd eq_refl)|].
        cbn [option_map from_option].
        now apply (option_all_Some _ _ IHsa).
      - now destruct py35. }
    assert (E4 : from_option calls []
                   (if py35 then None else option_map V ka)
                 = map V (from_option calls [] ka)).
    { destruct ka as [x|].
      - destruct py35 eqn:E; [now destruct (Hd eq_refl)|].
        cbn [option_map from_option].
        now apply (option_all_Some _ _ IHka).
      - now destruct py35. }
    rewrite E1, E2, E3, E4. now rewrite <- ?app_assoc.
  - cbn [WrapCalls.visit NodeTransformer.generic_visit calls]. intros H.
    apply list_all_Forall in IH. rewrite map_map, concat_map, map_map.
    apply concat_map_ext_Forall. apply Forall_concat_map_inv in H.
    eapply Forall_impl; [exact (proj2 (Forall_and _ _) (conj IH H))|].
    intros a [IHa Ha]. now apply IHa.
Qed.
End wrapped_calls.

Section names_facts.
Import ast_transform ast_trace call_site occurrences.

Lemma names_Call f a k s d :
  host.names (Call f a k s d)
  = host.names f ++ concat (map host.names a)
      ++ concat (map (fun kw => host.names (kw_value kw)) k)
      ++ from_option host.names [] s ++ from_option host.names [] d.
Proof. reflexivity. Qed.

Section tracer.
Variable hs : bool.
Variable t : string.

Local Abbreviation T := (Name t Load).
Local Abbreviation V := (TraceFunctionCalls.visit hs T).

Lemma names_trace_return c :
  host.names (TraceFunctionCalls.trace_return T c) = t :: host.names c.
Proof. simpl. now rewrite !app_nil_r. Qed.

Lemma names_trace_function f n :
  host.names (TraceFunctionCalls.trace_function T f n) = t :: host.names f.
Proof. simpl. now rewrite !app_nil_r. Qed.

Lemma names_trace_argument x name n id :
  id ∈ host.names (TraceFunctionCalls.trace_argument hs T x name n) ->
  id = t \/ id ∈ host.names x.
Proof.
  unfold TraceFunctionCalls.trace_argument, to_call.
  destruct (hs && is_Starred x) eqn:E.
  - destruct x; try (now rewrite andb_false_r in E).
    destruct (truthy_name name); simpl; rewrite ?app_nil_r;
      intros H; apply elem_of_cons in H as [->|H]; auto.
  - assert (Hx : match x with Starred value _ => x | _ => x end = x)
      by (now destruct x).
    rewrite Hx, names_Call.
    destruct (truthy_name name), n; simpl; rewrite ?app_nil_r;
      intros H; apply elem_of_cons in H as [->|H]; auto.
Qed.

Lemma names_visit e id :
  id ∈ host.names (V e) -> id = t \/ id ∈ host.names e.
Proof.
  revert id.
  induction e as [i ctx|n|s|x IH attr ctx|x IH ctx
                 |f IHf args IHargs kws IHkws sa IHsa ka IHka
                 |ps body IH|kind children IH|arg x IH]
    using expr_keyword_ind
    with (P0 := fun kw => forall id,
                  id ∈ host.names (V (kw_value kw)) ->
                  id = t \/ id ∈ host.names (kw_value kw));
    intros id; try (now right); try exact (IH id).
  - rewrite TraceFunctionCalls_visit_Call_eq. cbv zeta.
    rewrite names_trace_return, names_Call, names_trace_function.
    rewrite names_Call.
    apply list_all_Forall in IHargs. apply list_all_Forall in IHkws.
    rewrite Forall_forall in IHargs. rewrite Forall_forall in IHkws.
    assert (Hcase : hs = true \/ hs = false) by (destruct hs; auto).
    rewrite !elem_of_cons, !elem_of_app, !elem_of_cons.
    rewrite !map_map, !elem_of_concat_map.
    intros [->|[[->|H]|[(a & Ha & H)|[(kw & Hkw & H)|[H|H]]]]];
      try (now left).
    + destruct (IHf _ H) as [->|H']; [now left|right; now left].
    + apply names_trace_argument in H as [->|H]; [now left|].
      destruct (IHargs a Ha _ H) as [->|H']; [now left|].
      right. right. left. now exists a.
    + cbn [kw_value] in H.
      apply names_trace_argument in H as [->|H]; [now left|].
      destruct (IHkws kw Hkw _ H) as [->|H']; [now left|].
      right. right. right. left. now exists kw.
    + destruct Hcase as [E|E];
        [rewrite (if_true_eq _ _ _ E) in H; now apply elem_of_nil in H
        |rewrite (if_false_eq _ _ _ E) in H].
      destruct sa as [x|]; [|now apply elem_of_nil in H].
      cbn [option_map from_option] in H.
      apply names_trace_argument in H as [->|H]; [now left|].
      destruct (option_all_Some _ _ IHsa x eq_refl _ H) as [->|H'];
        [now left|]. right. right. right. right. now left.
    + destruct Hcase as [E|E];
        [rewrite (if_true_eq _ _ _ E) in H; now apply elem_of_nil in H
        |rewrite (if_false_eq _ _ _ E) in H].
      destruct ka as [x|]; [|now apply elem_of_nil in H].
      cbn [option_map from_option] in H.
      apply names_trace_argument in H as [->|H]; [now left|].
      destruct (option_all_Some _ _ IHka x eq_refl _ H) as [->|H'];
        [now left|]. right. right. right. right. now right.
  - cbn [TraceFunctionCalls.visit NodeTransformer.generic_visit host.names].
    rewrite !elem_of_app. intros [H|H]; [right; now left|].
    destruct (IH _ H) as [->|H']; [now left|right; now right].
  - cbn [TraceFunctionCalls.visit NodeTransformer.generic_visit host.names].
    apply list_all_Forall in IH. rewrite Forall_forall in IH.
    rewrite map_map, !elem_of_concat_map. intros (a & Ha & H).
    destruct (IH a Ha _ H) as [->|H']; [now left|right; now exists a].
Qed.
End tracer.

Section wrapper.
Variable py35 : bool.
Variable w : string.

Local Abbreviation W := (Name w Load).
Local Abbreviation V := (WrapCalls.visit py35 W).

Lemma WrapCalls_names_visit e id :
  id ∈ host.names (V e) -> id = w \/ id ∈ host.names e.
Proof.
  revert id.
  induction e as [i ctx|n|s|x IH attr ctx|x IH ctx
                 |f IHf args IHargs kws IHkws sa IHsa ka IHka
                 |ps body IH|kind children IH|arg x IH]
    using expr_keyword_ind
    with (P0 := fun kw => forall id,
                  id ∈ host.names (V (kw_value kw)) ->
                  id = w \/ id ∈ host.names (kw_value kw));
    intros id; try (now right); try exact (IH id).
  - rewrite WrapCalls_visit_Call_eq, !names_Call.
    apply list_all_Forall in IHargs. apply list_all_Forall in IHkws.
    rewrite Forall_forall in IHargs. rewrite Forall_forall in IHkws.
    assert (Hcase : py35 = true \/ py35 = false) by (destruct py35; auto).
    cbn [host.names map concat].
    rewrite !elem_of_app, !elem_of_cons.
    rewrite !map_map, !elem_of_concat_map.
    intros [[->|H]|[[H|(a & Ha & H)]|[(kw & Hkw & H)|[H|H]]]];
      try (now left); try (now apply elem_of_nil in H).
    + destruct (IHf _ H) as [->|H']; [now left|right; now left].
    + destruct (IHargs a Ha _ H) as [->|H']; [now left|].
      right. right. left. now exists a.
    + destruct kw as [arg x]. cbn [kw_value NodeTransformer.visit_keyword] in H.
      destruct (IHkws _ Hkw _ H) as [->|H']; [now left|].
      right. right. right. left. now exists (Keyword arg x).
    + destruct Hcase as [E|E];
        [rewrite (if_true_eq _ _ _ E) in H; now apply elem_of_nil in H
        |rewrite (if_false_eq _ _ _ E) in H].
      destruct sa as [x|]; [|now apply elem_of_nil in H].
      destruct (option_all_Some _ _ IHsa x eq_refl _ H) as [->|H'];
        [now left|]. right. right. right. right. now left.
    + destruct Hcase as [E|E];
        [rewrite (if_true_eq _ _ _ E) in H; now apply elem_of_nil in H
        |rewrite (if_false_eq _ _ _ E) in H].
      destruct ka as [x|]; [|now apply elem_of_nil in H].
      destruct (option_all_Some _ _ IHka x eq_refl _ H) as [->|H'];
        [now left|]. right. right. right. right. now right.
  - cbn [WrapCalls.visit NodeTransformer.generic_visit host.names].
    rewrite !elem_of_app. intros [H|H]; [right; now left|].
    destruct (IH _ H) as [->|H']; [now left|right; now right].
  - cbn [WrapCalls.visit NodeTransformer.generic_visit host.names].
    apply list_all_Forall in IH. rewrite Forall_forall in IH.
    rewrite map_map, !elem_of_concat_map. intros (a & Ha & H).
    destruct (IH a Ha _ H) as [->|H']; [now left|right; now exists a].
Qed.
End wrapper.
End names_facts.

Section rewritten_call_sites.
Import ast_transform ast_trace call_site occurrences.

Lemma to_name_Load x n :
  to_name x None = inr n -> exists id, n = Name id Load.
Proof.
  destruct x as [s|[]|]; simpl; try discriminate; intros [= <-]; eauto.
Qed.

Lemma calls_nil_call_free e : calls e = [] -> call_free e = true.
Proof.
  induction e as [id ctx|n|s|x IH attr ctx|x IH ctx
                 |f IHf args IHargs kws IHkws sa IHsa ka IHka
                 |ps body IH|kind children IH|arg x IH]
    using expr_keyword_ind with (P0 := fun _ => True);
    try reflexivity; try exact IH; try exact I; try discriminate.
  cbn [calls call_free]. apply list_all_Forall in IH.
  induction IH as [|c cs Hc _ IHcs]; [reflexivity|].
  cbn [map concat forallb]. intros H. apply app_eq_nil in H as [H1 H2].
  now rewrite (Hc H1), (IHcs H2).
Qed.

(** X10.  After [WrapCalls] every call in the tree is a call of the
    wrapper: the callee of each [Call] node is the wrapper's name, in
    load context. *)
Theorem WrapCalls_every_call_wrapped (py35 : bool) (wrapper : str_or_name)
    (tree out : expr) :
  WrapCalls.run py35 wrapper tree = inr out ->
  exists id,
    to_name wrapper None = inr (Name id Load)
    /\ Forall (fun c => callee c = Some (Name id Load)) (calls out).
Proof.
  unfold WrapCalls.run.
  destruct (to_name wrapper None) as [e|n] eqn:E; [discriminate|].
  destruct (to_name_Load _ _ E) as [id ->]. intros [= <-].
  exists id. split; [reflexivity|apply wrapped_visit].
Qed.

(** X11.  The calls of the tree that [WrapCalls] returns are the call
    sites of its input, each one rewritten, in the same order: no call
    site is lost, repeated or made up.  (A call has no [starargs] and
    [kwargs] fields on Python 3.5 and later.) *)
Theorem WrapCalls_call_sites_rewritten (py35 : bool)
    (wrapper : str_or_name) (tree out : expr) :
  WrapCalls.run py35 wrapper tree = inr out ->
  Forall (dialect_ok py35) (calls tree) ->
  exists w,
    to_name wrapper None = inr w
    /\ calls out = map (WrapCalls.visit py35 w) (calls tree)
    /\ length (calls out) = length (calls tree).
Proof.
  unfold WrapCalls.run.
  destruct (to_name wrapper None) as [e|n] eqn:E; [discriminate|].
  destruct (to_name_Load _ _ E) as [id ->]. intros [= <-] Hd.
  exists (Name id Load). split; [reflexivity|].
  rewrite (calls_visit _ _ _ Hd). split; [reflexivity|apply length_map].
Qed.

(** X12.  After [TraceFunctionCalls] every call in the tree goes through
    the tracer: each [Call] node calls [tracer.trace_function],
    [tracer.trace_argument] or [tracer.trace_return], or what a call of
    [tracer.trace_function] returns. *)
Theorem TraceFunctionCalls_every_call_traced (v : version_info)
    (tracer : str_or_name) (tree out : expr) :
  TraceFunctionCalls.run v tracer tree = inr out ->
  exists id,
    to_name tracer None = inr (Name id Load)
    /\ Forall (fun c => traced id c = true) (calls out).
Proof.
  unfold TraceFunctionCalls.run.
  destruct (to_name tracer None) as [e|n] eqn:E; [discriminate|].
  destruct (to_name_Load _ _ E) as [id ->]. intros [= <-].
  exists id. split; [reflexivity|apply through_visit].
Qed.

(** X13.  Neither transformer brings in an identifier other than the one
    it is made with: a variable or parameter of the rewritten tree is the
    handle's name or occurs in the input. *)
Theorem rewrite_adds_no_name (v : version_info) (py35 : bool)
    (handle : string) (tree out : expr) (id : string) :
  TraceFunctionCalls.run v (OfStr handle) tree = inr out
  \/ WrapCalls.run py35 (OfStr handle) tree = inr out ->
  id ∈ host.names out ->
  id = handle \/ id ∈ host.names tree.
Proof.
  intros [[= <-]|[= <-]].
  - apply names_visit.
  - apply WrapCalls_names_visit.
Qed.

(** X14.  A tree without call sites is returned as it is, by both
    transformers. *)
Theorem rewrite_without_call_sites (v : version_info) (py35 : bool)
    (handle : string) (tree : expr) :
  calls tree = [] ->
  TraceFunctionCalls.run v (OfStr handle) tree = inr tree
  /\ WrapCalls.run py35 (OfStr handle) tree = inr tree.
Proof.
  intros H. apply calls_nil_call_free in H.
  unfold TraceFunctionCalls.run, WrapCalls.run. cbn [to_name default].
  now rewrite TraceFunctionCalls_visit_call_free, WrapCalls_visit_call_free.
Qed.
End rewritten_call_sites.

Section rewritten_call_sites_samples.
Import ast_transform ast_trace call_site occurrences samples.

Lemma WrapCalls_every_call_wrapped_witness :
  exists id,
    to_name (OfStr "wrapper") None = inr (Name id Load)
    /\ Forall (fun c => callee c = Some (Name id Load))
              (calls (WrapCalls.visit true (Name "wrapper" Load)
                        nested_call)).
Proof.
  exact (WrapCalls_every_call_wrapped true (OfStr "wrapper") nested_call
           _ eq_refl).
Defined.

Lemma WrapCalls_call_sites_rewritten_witness :
  Forall (dialect_ok true) (calls nested_call)
  /\ exists w,
       to_name (OfStr "wrapper") None = inr w
       /\ calls (WrapCalls.visit true (Name "wrapper" Load) nested_call)
          = map (WrapCalls.visit true w) (calls nested_call)
       /\ length (calls (WrapCalls.visit true (Name "wrapper" Load)
                           nested_call))
          = length (calls nested_call).
Proof.
  assert (Hd : Forall (dialect_ok true) (calls nested_call))
    by (repeat constructor).
  split; [exact Hd|].
  exact (WrapCalls_call_sites_rewritten true (OfStr "wrapper") nested_call
           _ eq_refl Hd).
Defined.

Lemma TraceFunctionCalls_every_call_traced_witness :
  exists id,
    to_name (OfStr "tracer") None = inr (Name id Load)
    /\ Forall (fun c => traced id c = true)
              (calls (TraceFunctionCalls.visit true (Name "tracer" Load)
                        both_spreads)).
Proof.
  exact (TraceFunctionCalls_every_call_traced {| major := 3; minor := 8 |}
           (OfStr "tracer") both_spreads _ eq_refl).
Defined.

Lemma rewrite_adds_no_name_witness :
  ("kw" ∈ host.names
            (TraceFunctionCalls.visit true (Name "tracer" Load)
               both_spreads))
  /\ ("kw" = "tracer" \/ "kw" ∈ host.names both_spreads).
Proof.
  assert (Hin : "kw" ∈ host.names
                  (TraceFunctionCalls.visit true (Name "tracer" Load)
                     both_spreads)).
  { refine (bool_decide_unpack _ _). vm_compute. exact I. }
  split; [exact Hin|].
  exact (rewrite_adds_no_name {| major := 3; minor := 8 |} true "tracer"
           both_spreads _ "kw" (or_introl eq_refl) Hin).
Defined.

Lemma rewrite_without_call_sites_witness :
  calls (Lambda ["x"] (Name "x" Load)) = []
  /\ TraceFunctionCalls.run {| major := 3; minor := 8 |} (OfStr "tracer")
       (Lambda ["x"] (Name "x" Load))
     = inr (Lambda ["x"] (Name "x" Load))
  /\ WrapCalls.run true (OfStr "wrapper") (Lambda ["x"] (Name "x" Load))
     = inr (Lambda ["x"] (Name "x" Load)).
Proof.
  split; [reflexivity|].
  destruct (rewrite_without_call_sites {| major := 3; minor := 8 |} true
              "tracer" (Lambda ["x"] (Name "x" Load)) eq_refl) as [H1 _].
  destruct (rewrite_without_call_sites {| major := 3; minor := 8 |} true
              "wrapper" (Lambda ["x"] (Name "x" Load)) eq_refl) as [_ H2].
  split; [exact H1|exact H2].
Defined.
End rewritten_call_sites_samples.

(** ** The store outside of the rewritten tree, and the root returned *)

Section store_frame.
Import store ast_trace.
Implicit Types (h : heap) (l : loc) (fp : list loc) (o : object).

(** X15.  The rewrite assigns to the nodes of its input tree only: every
    other node of the store is as it was, and a tree that shares no node
    with the input still stands for what it stood for. *)
Theorem rewrite_leaves_other_trees (v : version_info) (py35 : bool)
    (name : string) h l e fp :
  shape h l e fp -> NoDup fp ->
  exists d0, forall d, d0 <= d ->
    (exists l' h',
       store.TraceFunctionCalls.run v name d l h = Some (l', h')
       /\ (forall x, x < length h -> x ∉ fp -> h' !! x = h !! x)
       /\ (forall l2 e2 fp2, shape h l2 e2 fp2 ->
             (forall x, x ∈ fp2 -> x ∉ fp) -> shape h' l2 e2 fp2))
    /\ (exists l' h',
       store.WrapCalls.run py35 name d l h = Some (l', h')
       /\ (forall x, x < length h -> x ∉ fp -> h' !! x = h !! x)
       /\ (forall l2 e2 fp2, shape h l2 e2 fp2 ->
             (forall x, x ∈ fp2 -> x ∉ fp) -> shape h' l2 e2 fp2)).
Proof.
  intros Hs Hnd.
  destruct (run_refines
              (fun w => store.TraceFunctionCalls.trace_call
                          (ast_has_starred v) w)
              (ast_trace.TraceFunctionCalls.visit_Call (ast_has_starred v)
                 (Name name Load) id)
              (ast_trace.TraceFunctionCalls.visit (ast_has_starred v)
                 (Name name Load))
              name h l e fp) as [d1 H1]; try assumption.
  { intros handle. apply trace_call_ok. }
  { apply TraceFunctionCalls_visit_dispatch. }
  destruct (run_refines
              (fun w => store.WrapCalls.wrap_call py35 w)
              (ast_transform.WrapCalls.visit_Call py35 (Name name Load) id)
              (ast_transform.WrapCalls.visit py35 (Name name Load))
              name h l e fp) as [d2 H2]; try assumption.
  { intros handle. apply wrap_call_ok. }
  { apply WrapCalls_visit_dispatch. }
  assert (Hother : forall h',
    (forall x, x < length h -> x ∉ fp -> h' !! x = h !! x) ->
    forall l2 e2 fp2, shape h l2 e2 fp2 ->
      (forall x, x ∈ fp2 -> x ∉ fp) -> shape h' l2 e2 fp2).
  { intros h' Hframe l2 e2 fp2 Hs2 Hdisj.
    apply (proj1 (shape_frame h h') l2 e2 fp2 Hs2).
    intros x Hx. apply Hframe; [|now apply Hdisj].
    exact (proj1 (shape_dom h) l2 e2 fp2 Hs2 x Hx). }
  exists (d1 + d2). intros d Hd. split.
  - destruct (H1 d) as (l' & h' & Hrun & _ & _ & Hframe); [lia|].
    exists l', h'. split; [exact Hrun|]. split; [exact Hframe|].
    now apply Hother.
  - destruct (H2 d) as (l' & h' & Hrun & _ & _ & Hframe); [lia|].
    exists l', h'. split; [exact Hrun|]. split; [exact Hframe|].
    now apply Hother.
Qed.
End store_frame.

Section store_growth.
Import store ast_trace.
Implicit Types (h : heap) (l : loc) (o : object).

(** A computation that leaves no fewer nodes than it finds. *)
Local Abbreviation keeps c :=
  (forall h a h', c h = Some (a, h') -> length h <= length h').

Lemma bind_Some_inv {A B : Type} (c : M A) (k : A -> M B) h b h' :
  (a ← c; k a) h = Some (b, h') ->
  exists a h1, c h = Some (a, h1) /\ k a h1 = Some (b, h').
Proof.
  unfold mbind, M_bind. destruct (c h) as [[a h1]|]; [|discriminate].
  intros H. now exists a, h1.
Qed.

Lemma keeps_bind {A B : Type} (c : M A) (k : A -> M B) :
  keeps c -> (forall a, keeps (k a)) -> keeps (a ← c; k a).
Proof.
  intros Hc Hk h b h' H.
  apply bind_Some_inv in H as (a & h1 & H1 & H2).
  specialize (Hc _ _ _ H1). specialize (Hk _ _ _ _ H2). lia.
Qed.

Lemma keeps_ret {A : Type} (a : A) : keeps (mret a : M A).
Proof. intros h b h' [= _ <-]. lia. Qed.

Lemma keeps_raise {A : Type} : keeps (raise : M A).
Proof. intros h b h' H. discriminate H. Qed.

Lemma alloc_Some o h l h' :
  alloc o h = Some (l, h') -> l = length h /\ h' = h ++ [o].
Proof. now intros [= <- <-]. Qed.

Lemma keeps_alloc o : keeps (alloc o).
Proof.
  intros h l h' H. apply alloc_Some in H as [_ ->].
  rewrite length_app. lia.
Qed.

Lemma keeps_load l : keeps (load l).
Proof.
  intros h o h'. unfold load. destruct (h !! l); [|discriminate].
  intros [= _ <-]. lia.
Qed.

Lemma keeps_assign l o : keeps (assign l o).
Proof.
  intros h u h'. unfold assign. destruct (decide (l < length h));
    [|discriminate].
  intros H. injection H as _ <-. now rewrite length_insert.
Qed.

Lemma keeps_mapM {A B : Type} (f : A -> M B) (ls : list A) :
  (forall a, keeps (f a)) -> keeps (mapM f ls).
Proof.
  intros Hf. induction ls as [|a ls IH]; cbn [mapM].
  - apply keeps_ret.
  - apply keeps_bind; [apply Hf|]. intros b.
    apply keeps_bind; [exact IH|]. intros bs. apply keeps_ret.
Qed.

Lemma keeps_optM {A B : Type} (f : A -> M B) (lo : option A) :
  (forall a, keeps (f a)) -> keeps (optM f lo).
Proof.
  intros Hf. destruct lo as [a|]; cbn [optM]; [|apply keeps_ret].
  apply keeps_bind; [apply Hf|]. intros b. apply keeps_ret.
Qed.

Ltac keeps_step :=
  first [ apply keeps_ret | apply keeps_raise | apply keeps_alloc
        | apply keeps_load | apply keeps_assign
        | apply keeps_mapM; intros ?
        | apply keeps_optM; intros ?
        | apply keeps_bind; [|intros ?] ].

Lemma keeps_generic_visit (vis : loc -> M loc) l :
  (forall x, keeps (vis x)) ->
  keeps (NodeTransformer.generic_visit vis l).
Proof.
  intros Hv. unfold NodeTransformer.generic_visit.
  apply keeps_bind; [apply keeps_load|]. intros o.
  destruct o; repeat first [apply Hv | keeps_step].
Qed.

Lemma generic_visit_returns (vis : loc -> M loc) l h l' h' :
  NodeTransformer.generic_visit vis l h = Some (l', h') -> l' = l.
Proof.
  unfold NodeTransformer.generic_visit. intros H.
  apply bind_Some_inv in H as (o & h1 & _ & H).
  destruct o;
    repeat match type of H with
           | (_ ← _; _) _ = Some _ =>
               apply bind_Some_inv in H as (? & ? & _ & H)
           | (_ ;; _) _ = Some _ =>
               apply bind_Some_inv in H as (? & ? & _ & H)
           end;
    now injection H.
Qed.

Lemma keeps_visit (hook : loc -> M loc) d :
  (forall x, keeps (hook x)) ->
  forall l,
    keeps (NodeTransformer.visit
             (fun vis call =>
                NodeTransformer.generic_visit vis call;; hook call) d l).
Proof.
  intros Hh. induction d as [|d IH]; intros l; cbn [NodeTransformer.visit].
  - apply keeps_raise.
  - apply keeps_bind; [apply keeps_load|]. intros o.
    destruct o; try (now apply keeps_generic_visit).
    apply keeps_bind; [now apply keeps_generic_visit|]. intros _.
    apply Hh.
Qed.

Lemma keeps_trace_argument hs t x name n :
  keeps (store.TraceFunctionCalls.trace_argument hs t x name n).
Proof.
  unfold store.TraceFunctionCalls.trace_argument,
    store.TraceFunctionCalls.trace_method, to_attribute, to_call.
  apply keeps_bind; [apply keeps_load|]. intros o.
  apply keeps_bind.
  { destruct (truthy_name name); repeat keeps_step. }
  intros names. apply keeps_bind.
  { destruct (if hs && _ then 1 else n); repeat keeps_step. }
  intros kws. repeat keeps_step.
  destruct (hs && _); keeps_step.
Qed.

Lemma keeps_trace_call hs t x :
  keeps (store.TraceFunctionCalls.trace_call hs t x).
Proof.
  unfold store.TraceFunctionCalls.trace_call.
  apply keeps_bind; [apply keeps_load|]. intros o.
  destruct o; try apply keeps_raise.
  apply keeps_bind; [apply keeps_mapM; intros a; apply keeps_trace_argument|].
  intros args'. apply keeps_bind.
  { apply keeps_mapM. intros kw.
    unfold store.TraceFunctionCalls.trace_keyword.
    apply keeps_bind; [apply keeps_load|]. intros o.
    destruct o; try apply keeps_raise.
    apply keeps_bind; [apply keeps_trace_argument|]. intros a.
    apply keeps_alloc. }
  intros kws'. apply keeps_bind.
  { destruct hs; [apply keeps_ret|].
    apply keeps_optM. intros a. apply keeps_trace_argument. }
  intros sa'. apply keeps_bind.
  { destruct hs; [apply keeps_ret|].
    apply keeps_optM. intros a. apply keeps_trace_argument. }
  intros ka'.
  unfold store.TraceFunctionCalls.trace_function,
    store.TraceFunctionCalls.trace_return,
    store.TraceFunctionCalls.trace_method, to_attribute, to_call.
  repeat keeps_step.
Qed.

Lemma keeps_wrap_call py35 w x : keeps (store.WrapCalls.wrap_call py35 w x).
Proof.
  unfold store.WrapCalls.wrap_call.
  apply keeps_bind; [apply keeps_load|]. intros o.
  destruct o; try apply keeps_raise. destruct py35; apply keeps_alloc.
Qed.

(** What [trace_call] returns is the node it makes last. *)
Lemma trace_call_new hs t x h l' h' :
  store.TraceFunctionCalls.trace_call hs t x h = Some (l', h') ->
  length h < l'.
Proof.
  unfold store.TraceFunctionCalls.trace_call. intros H.
  apply bind_Some_inv in H as (o & h1 & H1 & H).
  apply keeps_load in H1.
  destruct o; try discriminate.
  apply bind_Some_inv in H as (args' & h2 & H2 & H).
  apply (keeps_mapM _ _ (fun a => keeps_trace_argument hs t a None 0)) in H2.
  apply bind_Some_inv in H as (kws' & h3 & H3 & H).
  assert (L3 : length h2 <= length h3).
  { revert H3. apply keeps_mapM. intros kw.
    unfold store.TraceFunctionCalls.trace_keyword.
    apply keeps_bind; [apply keeps_load|]. intros o.
    destruct o; try apply keeps_raise.
    apply keeps_bind; [apply keeps_trace_argument|]. intros a.
    apply keeps_alloc. }
  apply bind_Some_inv in H as (sa' & h4 & H4 & H).
  assert (L4 : length h3 <= length h4).
  { revert H4. destruct hs; [apply keeps_ret|].
    apply keeps_optM. intros a. apply keeps_trace_argument. }
  apply bind_Some_inv in H as (ka' & h5 & H5 & H).
  assert (L5 : length h4 <= length h5).
  { revert H5. destruct hs; [apply keeps_ret|].
    apply keeps_optM. intros a. apply keeps_trace_argument. }
  apply bind_Some_inv in H as (f & h6 & H6 & H).
  assert (L6 : length h5 <= length h6).
  { revert H6.
    unfold store.TraceFunctionCalls.trace_function,
      store.TraceFunctionCalls.trace_method, to_attribute, to_call.
    repeat keeps_step. }
  apply bind_Some_inv in H as (c & h7 & H7 & H).
  apply keeps_alloc in H7.
  unfold store.TraceFunctionCalls.trace_return,
    store.TraceFunctionCalls.trace_method, to_attribute, to_call in H.
  apply bind_Some_inv in H as (m & h8 & H8 & H).
  apply alloc_Some in H8 as [_ ->]. apply alloc_Some in H as [-> _].
  rewrite length_app. simpl. lia.
Qed.

Lemma wrap_call_new py35 w x h l' h' :
  store.WrapCalls.wrap_call py35 w x h = Some (l', h') -> length h <= l'.
Proof.
  unfold store.WrapCalls.wrap_call. intros H.
  apply bind_Some_inv in H as (o & h1 & H1 & H).
  unfold load in H1. destruct (h !! x) as [o0|]; [|discriminate].
  injection H1 as E1 E2. subst o h1.
  destruct o0; try discriminate.
  destruct py35; apply alloc_Some in H as [-> _]; lia.
Qed.

Lemma visit_root (hook : loc -> M loc) d l h o l' h' :
  (forall x, keeps (hook x)) ->
  (forall x h1 l1 h2, hook x h1 = Some (l1, h2) -> length h1 <= l1) ->
  h !! l = Some o ->
  NodeTransformer.visit
    (fun vis call => NodeTransformer.generic_visit vis call;; hook call)
    d l h = Some (l', h') ->
  length h <= length h'
  /\ if is_call o then length h <= l' else l' = l.
Proof.
  intros Hk Hnew Hl H. split; [exact (keeps_visit hook d Hk l _ _ _ H)|].
  destruct d as [|d]; [discriminate|]. cbn [NodeTransformer.visit] in H.
  apply bind_Some_inv in H as (o' & h1 & H1 & H).
  unfold load in H1. rewrite Hl in H1. injection H1 as E1 E2.
  subst o' h1.
  destruct o; cbn [is_call];
    try exact (generic_visit_returns _ _ _ _ _ H).
  apply bind_Some_inv in H as (l1 & h1 & H1 & H).
  apply (keeps_generic_visit _ _ (keeps_visit hook d Hk)) in H1.
  apply Hnew in H. lia.
Qed.

(** X16.  The store never loses a node, and the node that a transformer
    returns is the root it was given, updated in place, unless that root
    is a call: then it is a node that was not in the store. *)
Theorem rewritten_root (v : version_info) (py35 : bool) (name : string)
    (d : nat) l h o l' h' :
  h !! l = Some o ->
  store.TraceFunctionCalls.run v name d l h = Some (l', h')
  \/ store.WrapCalls.run py35 name d l h = Some (l', h') ->
  length h < length h'
  /\ if is_call o then length h < l' else l' = l.
Proof.
  intros Hl H.
  assert (Hl' : (h ++ [OName name Load]) !! l = Some o).
  { rewrite lookup_app_l; [exact Hl|]. now apply lookup_lt_Some in Hl. }
  destruct H as [H|H].
  - unfold store.TraceFunctionCalls.run, to_name in H.
    apply bind_Some_inv in H as (t & h1 & H1 & H).
    apply alloc_Some in H1 as [-> ->].
    destruct (visit_root
                (store.TraceFunctionCalls.trace_call (ast_has_starred v)
                   (length h))
                d l _ o l' h'
                (fun x => keeps_trace_call _ _ x)
                (fun x h1 l1 h2 Hx =>
                   Nat.lt_le_incl _ _ (trace_call_new _ _ _ _ _ _ Hx))
                Hl' H) as [L R].
    rewrite length_app in L, R. simpl in L, R. split; [lia|].
    destruct (is_call o); [lia|exact R].
  - unfold store.WrapCalls.run, to_name in H.
    apply bind_Some_inv in H as (t & h1 & H1 & H).
    apply alloc_Some in H1 as [-> ->].
    destruct (visit_root
                (store.WrapCalls.wrap_call py35 (length h))
                d l _ o l' h'
                (fun x => keeps_wrap_call _ _ x)
                (fun x h1 l1 h2 Hx => wrap_call_new _ _ _ _ _ _ Hx)
                Hl' H) as [L R].
    rewrite length_app in L, R. simpl in L, R. split; [lia|].
    destruct (is_call o); [lia|exact R].
Qed.
End store_growth.

Section store_samples.
Import store ast_trace samples.

Lemma nested_heap_shape : shape nested_heap 4 nested_call [4; 0; 3; 1; 2].
Proof.
  apply (shape_Call _ 4 0 [3] [] None None _ _ _ _ _ [0] [3; 1; 2] [] [] []);
    try (now constructor).
  apply (shapes_cons _ 3 [] _ [] [3; 1; 2] []); [|constructor].
  apply (shape_Call _ 3 1 [2] [] None None _ _ _ _ _ [1] [2] [] [] []);
    try (now constructor).
  apply (shapes_cons _ 2 [] _ [] [2] []); now constructor.
Qed.

Lemma rewrite_leaves_other_trees_witness :
  shape nested_heap 4 nested_call [4; 0; 3; 1; 2]
  /\ NoDup [4; 0; 3; 1; 2]
  /\ exists d0, forall d, d0 <= d ->
       (exists l' h',
          store.TraceFunctionCalls.run {| major := 3; minor := 8 |}
            "tracer" d 4 nested_heap = Some (l', h')
          /\ (forall x, x < length nested_heap -> x ∉ [4; 0; 3; 1; 2] ->
                        h' !! x = nested_heap !! x)
          /\ (forall l2 e2 fp2, shape nested_heap l2 e2 fp2 ->
                (forall x, x ∈ fp2 -> x ∉ [4; 0; 3; 1; 2]) ->
                shape h' l2 e2 fp2))
       /\ (exists l' h',
          store.WrapCalls.run true "tracer" d 4 nested_heap = Some (l', h')
          /\ (forall x, x < length nested_heap -> x ∉ [4; 0; 3; 1; 2] ->
                        h' !! x = nested_heap !! x)
          /\ (forall l2 e2 fp2, shape nested_heap l2 e2 fp2 ->
                (forall x, x ∈ fp2 -> x ∉ [4; 0; 3; 1; 2]) ->
                shape h' l2 e2 fp2)).
Proof.
  assert (Hnd : NoDup [4; 0; 3; 1; 2]).
  { refine (bool_decide_unpack _ _). vm_compute. exact I. }
  split; [exact nested_heap_shape|]. split; [exact Hnd|].
  exact (rewrite_leaves_other_trees {| major := 3; minor := 8 |} true
           "tracer" nested_heap 4 nested_call [4; 0; 3; 1; 2]
           nested_heap_shape Hnd).
Defined.

Lemma rewritten_root_witness :
  nested_heap !! 4 = Some (OCall 0 [3] [] None None)
  /\ exists l' h',
       store.TraceFunctionCalls.run {| major := 3; minor := 8 |} "tracer"
         10 4 nested_heap = Some (l', h')
       /\ length nested_heap < length h'
       /\ length nested_heap < l'.
Proof.
  split; [reflexivity|]. eexists _, _. split; [vm_compute; reflexivity|].
  apply (rewritten_root {| major := 3; minor := 8 |} true "tracer" 10 4
           nested_heap (OCall 0 [3] [] None None) _ _ eq_refl).
  left. vm_compute. reflexivity.
Defined.
End store_samples.

(** ** One traced call for each call site *)

Section traced_sites.
Import ast_transform ast_trace call_site occurrences.
Variable hs : bool.
Variable t : string.

Local Abbreviation T := (Name t Load).
Local Abbreviation V := (TraceFunctionCalls.visit hs T).
Local Abbreviation sites_of e := (filter (fun c => traced_site t c = true) (calls e)).

Lemma sites_trace_argument x name n :
  sites_of (TraceFunctionCalls.trace_argument hs T x name n) = sites_of x.
Proof.
  unfold TraceFunctionCalls.trace_argument, to_call.
  destruct (hs && is_Starred x) eqn:E.
  - destruct x; try (now rewrite andb_false_r in E).
    destruct (truthy_name name); simpl; now rewrite ?app_nil_r.
  - assert (Hx : match x with Starred value _ => x | _ => x end = x)
      by (now destruct x).
    rewrite Hx, calls_Call.
    destruct (truthy_name name), n; simpl; now rewrite ?app_nil_r.
Qed.

Lemma filter_concat_map {A B : Type} (p : B -> Prop)
    `{forall b, Decision (p b)} (g : A -> list B) (l : list A) :
  filter p (concat (map g l)) = concat (map (fun a => filter p (g a)) l).
Proof.
  induction l as [|a l IH]; [reflexivity|]. simpl.
  now rewrite filter_app, IH.
Qed.

Lemma length_concat_map_Forall {A B : Type} (g g' : A -> list B)
    (l : list A) :
  Forall (fun a => length (g a) = length (g' a)) l ->
  length (concat (map g l)) = length (concat (map g' l)).
Proof.
  induction 1 as [|a l Ha _ IH]; [reflexivity|]. simpl.
  now rewrite !length_app, Ha, IH.
Qed.

Lemma sites_visit e :
  Forall (dialect_ok hs) (calls e) ->
  length (sites_of (V e)) = length (calls e).
Proof.
  induction e as [id ctx|n|s|x IH attr ctx|x IH ctx
                 |f IHf args IHargs kws IHkws sa IHsa ka IHka
                 |ps body IH|kind children IH|arg x IH]
    using expr_keyword_ind
    with (P0 := fun kw =>
                  Forall (dialect_ok hs) (calls (kw_value kw)) ->
                  length (sites_of (V (kw_value kw)))
                  = length (calls (kw_value kw)));
    try reflexivity; try exact IH.
  - rewrite (calls_Call f). intros H. apply Forall_cons in H as [Hd H].
    apply Forall_app in H as [Hf H]. apply Forall_app in H as [Hargs H].
    apply Forall_app in H as [Hkws H]. apply Forall_app in H as [Hsa Hka].
    apply list_all_Forall in IHargs. apply list_all_Forall in IHkws.
    rewrite TraceFunctionCalls_visit_Call_eq. cbv zeta.
    unfold TraceFunctionCalls.trace_return, to_call.
    rewrite calls_Call.
    cbn [calls TraceFunctionCalls.trace_method to_attribute app map concat
         from_option].
    rewrite !app_nil_r.
    rewrite filter_cons_False by (cbn; congruence).
    rewrite filter_cons_True
      by (unfold traced_site, TraceFunctionCalls.trace_function, to_call,
            TraceFunctionCalls.trace_method, to_attribute;
          cbn [callee is_trace_method];
          now rewrite (bool_decide_true (t = t)) by reflexivity).
    cbn [length]. f_equal.
    rewrite !filter_app, !length_app.
    assert (E0 : length (sites_of (TraceFunctionCalls.trace_function T
                                     (V f) (length args + length kws
                 + (if (if hs then None
                        else option_map
                               (fun s => TraceFunctionCalls.trace_argument
                                           hs T s None 1)
                               (option_map V sa)) is Some _ then 1 else 0)
                 + (if (if hs then None
                        else option_map
                               (fun k => TraceFunctionCalls.trace_argument
                                           hs T k None 2)
                               (option_map V ka)) is Some _ then 1 else 0))))
                 = length (calls f)).
    { unfold TraceFunctionCalls.trace_function, to_call.
      rewrite calls_Call.
      cbn [calls TraceFunctionCalls.trace_method to_attribute app map
           concat from_option].
      rewrite !app_nil_r.
      rewrite filter_cons_False by (cbn; congruence).
      now apply IHf. }
    assert (E1 : length (filter (fun c => traced_site t c = true)
                   (concat (map calls
                      (map (fun a => TraceFunctionCalls.trace_argument hs T
                                       (V a) None 0) args))))
                 = length (concat (map calls args))).
    { rewrite map_map, filter_concat_map.
      apply length_concat_map_Forall.
      apply Forall_concat_map_inv in Hargs.
      eapply Forall_impl;
        [exact (proj2 (Forall_and _ _) (conj IHargs Hargs))|].
      intros a [IHa Ha]. rewrite sites_trace_argument. now apply IHa. }
    assert (E2 : length (filter (fun c => traced_site t c = true)
                   (concat (map (fun kw => calls (kw_value kw))
                      (map (fun kw => Keyword (kw_arg kw)
                              (TraceFunctionCalls.trace_argument hs T
                                 (V (kw_value kw)) (kw_arg kw)
                                 (if kw_arg kw is None then 2 else 0)))
                           kws))))
                 = length (concat (map (fun kw => calls (kw_value kw))
                                       kws))).
    { rewrite map_map, filter_concat_map.
      apply length_concat_map_Forall.
      apply Forall_concat_map_inv in Hkws.
      eapply Forall_impl;
        [exact (proj2 (Forall_and _ _) (conj IHkws Hkws))|].
      intros a [IHa Ha]. cbn [kw_value].
      rewrite sites_trace_argument. now apply IHa. }
    assert (Hcase : hs = true \/ hs = false) by (destruct hs; auto).
    assert (E3 : length (filter (fun c => traced_site t c = true)
                   (from_option calls []
                      (if hs then None
                       else option_map
                              (fun s => TraceFunctionCalls.trace_argument
                                          hs T s None 1)
                              (option_map V sa))))
                 = length (from_option calls [] sa)).
    { destruct sa as [x|].
      - destruct Hcase as [E|E]; [now destruct (Hd E)|].
        rewrite (if_false_eq _ _ _ E). cbn [option_map from_option].
        rewrite sites_trace_argument.
        now apply (option_all_Some _ _ IHsa).
      - destruct Hcase as [E|E];
          [now rewrite (if_true_eq _ _ _ E)
          |now rewrite (if_false_eq _ _ _ E)]. }
    assert (E4 : length (filter (fun c => traced_site t c = true)
                   (from_option calls []
                      (if hs then None
                       else option_map
                              (fun k => TraceFunctionCalls.trace_argument
                                          hs T k None 2)
                              (option_map V ka))))
                 = length (from_option calls [] ka)).
    { destruct ka as [x|].
      - destruct Hcase as [E|E]; [now destruct (Hd E)|].
        rewrite (if_false_eq _ _ _ E). cbn [option_map from_option].
        rewrite sites_trace_argument.
        now apply (option_all_Some _ _ IHka).
      - destruct Hcase as [E|E];
          [now rewrite (if_true_eq _ _ _ E)
          |now rewrite (if_false_eq _ _ _ E)]. }
    now rewrite E0, E1, E2, E3, E4.
  - cbn [TraceFunctionCalls.visit NodeTransformer.generic_visit calls].
    intros H. apply list_all_Forall in IH.
    rewrite map_map, filter_concat_map.
    apply length_concat_map_Forall. apply Forall_concat_map_inv in H.
    eapply Forall_impl; [exact (proj2 (Forall_and _ _) (conj IH H))|].
    intros a [IHa Ha]. now apply IHa.
Qed.

End traced_sites.

Section traced_sites_run.
Import ast_transform ast_trace call_site occurrences samples.

(** X17.  [TraceFunctionCalls] makes one traced call for each call site:
    the calls of the rewritten tree that call the result of
    [tracer.trace_function] are as many as the calls of the input.  (A
    call has no [starargs] and [kwargs] fields on Python 3.5 and
    later.) *)
Theorem TraceFunctionCalls_one_call_per_site (v : version_info)
    (t : string) (tree out : expr) :
  TraceFunctionCalls.run v (OfStr t) tree = inr out ->
  Forall (dialect_ok (ast_has_starred v)) (calls tree) ->
  length (filter (fun c => traced_site t c = true) (calls out))
  = length (calls tree).
Proof. intros [= <-]. apply sites_visit. Qed.

Lemma TraceFunctionCalls_one_call_per_site_witness :
  Forall (dialect_ok true) (calls nested_call)
  /\ length (filter (fun c => traced_site "tracer" c = true)
               (calls (TraceFunctionCalls.visit true (Name "tracer" Load)
                         nested_call)))
     = 2.
Proof.
  assert (Hd : Forall (dialect_ok true) (calls nested_call))
    by (repeat constructor).
  split; [exact Hd|].
  exact (TraceFunctionCalls_one_call_per_site {| major := 3; minor := 8 |}
           "tracer" nested_call _ eq_refl Hd).
Defined.
End traced_sites_run.
